(** * Transient Recorder framework: the arming sequence controller

    A shallow embedding of the C++ sources of the Transient Recorder
    framework (TRBaseDriver, TRConfigParam, TRChannelDataSubmit,
    TRChannelsDriver, TRTimeArrayDriver) and the properties of the arming
    sequence that its specification states.

    Conventions of the embedding:
    - a C++ [int] is a [Z]; the code below never computes outside the 32-bit
      range on the inputs the theorems quantify over (the only additions are
      guarded by explicit range checks, which are modelled);
    - a C++ [double] is a primitive binary64 [float], [NAN] is [nan];
    - the asyn parameter library of a port is a list of parameter values
      indexed by the parameter index that [createParam] returned;
    - the virtual functions a digitizer driver overrides are a record of
      functions over an abstract driver state;
    - the port lock serialises the write handlers with the read thread, so
      the activity of other threads is a list of handler calls ([Action])
      that run while the read thread does not hold the lock. *)

From Stdlib Require Import ZArith Bool Lia PrimFloat Uint63.
From stdpp Require Import base option list.

Set Default Proof Using "Type".

(** ** C++ scalar types *)

Definition INT_MAX : Z := 2147483647.

Definition NAN : float := PrimFloat.nan.

(** Conversion of an [int] to [double] (exact for 32-bit integers). *)
Definition double_of_int (z : Z) : float :=
  if (z <? 0)%Z
  then PrimFloat.opp (PrimFloat.of_uint63 (Uint63.of_Z (- z)))
  else PrimFloat.of_uint63 (Uint63.of_Z z).

(** ** asyn: status codes and the parameter library

    The asyn library is not part of the repository.  The few functions of
    asynPortDriver the framework calls are modelled after their documented
    behaviour: a parameter has a fixed type and is undefined until it is
    first set; setting a parameter with the accessor of another type, or at
    an index that does not exist, fails and changes nothing. *)

Inductive asynStatus := asynSuccess | asynError.

Inductive asynParamType := asynParamInt32 | asynParamFloat64.

Inductive paramVal :=
| ParamUndefined (t : asynParamType)
| ParamInt32 (v : Z)
| ParamFloat64 (v : float).

Definition paramType (p : paramVal) : asynParamType :=
  match p with
  | ParamUndefined t => t
  | ParamInt32 _ => asynParamInt32
  | ParamFloat64 _ => asynParamFloat64
  end.

Definition asynParamType_eqb (a b : asynParamType) : bool :=
  match a, b with
  | asynParamInt32, asynParamInt32 => true
  | asynParamFloat64, asynParamFloat64 => true
  | _, _ => false
  end.

Abbreviation paramList := (list paramVal).

(** [createParam] appends a parameter and returns its index. *)
Definition createParam (t : asynParamType) (l : paramList) : nat * paramList :=
  (length l, l ++ [ParamUndefined t]).

Definition setIntegerParam (index : nat) (v : Z) (l : paramList) : paramList :=
  match l !! index with
  | Some p =>
      if asynParamType_eqb (paramType p) asynParamInt32
      then <[index := ParamInt32 v]> l else l
  | None => l
  end.

Definition setDoubleParam (index : nat) (v : float) (l : paramList) : paramList :=
  match l !! index with
  | Some p =>
      if asynParamType_eqb (paramType p) asynParamFloat64
      then <[index := ParamFloat64 v]> l else l
  | None => l
  end.

(** [getIntegerParam] and [getDoubleParam] leave their output argument alone
    when the parameter is undefined or of another type; the callers in the
    framework pass an uninitialised local, whose value is modelled as 0. *)
Definition getIntegerParam (index : nat) (l : paramList) : Z :=
  match l !! index with
  | Some (ParamInt32 v) => v
  | _ => 0%Z
  end.

Definition getDoubleParam (index : nat) (l : paramList) : float :=
  match l !! index with
  | Some (ParamFloat64 v) => v
  | _ => 0%float
  end.

(** ** TRConfigParamTraits *)

Class TRConfigParamTraits (T : Type) := {
  asynType : asynParamType;
  setParam : paramList -> nat -> T -> paramList;
  getParam : paramList -> nat -> T;
  toParamVal : T -> paramVal;
}.

#[export] Instance TRConfigParamTraits_int : TRConfigParamTraits Z := {|
  asynType := asynParamInt32;
  setParam := fun port index newVal => setIntegerParam index newVal port;
  getParam := fun port index => getIntegerParam index port;
  toParamVal := ParamInt32;
|}.

#[export] Instance TRConfigParamTraits_double : TRConfigParamTraits float := {|
  asynType := asynParamFloat64;
  setParam := fun port index newVal => setDoubleParam index newVal port;
  getParam := fun port index => getDoubleParam index port;
  toParamVal := ParamFloat64;
|}.

(** The implicit conversion from the value type to the effective-value type
    in [m_irrelevant ? m_invalid_value : m_snapshot_value]. *)
Class Converts (V E : Type) := convert : V -> E.

#[export] Instance Converts_int_int : Converts Z Z := fun v => v.
#[export] Instance Converts_int_double : Converts Z float := double_of_int.
#[export] Instance Converts_double_double : Converts float float := fun v => v.

(** The literal 0 of a value type ([m_snapshot_value = 0]). *)
Class Zero (V : Type) := zero : V.

#[export] Instance Zero_int : Zero Z := 0%Z.
#[export] Instance Zero_double : Zero float := 0%float.

(** ** TRConfigParam *)

Record TRConfigParam (V E : Type) := mkConfigParam {
  m_internal : bool;
  m_irrelevant : bool;
  m_desired_param : nat;
  m_effective_param : nat;
  m_snapshot_value : V;
  m_invalid_value : E;
}.

Arguments mkConfigParam {V E}.
Arguments m_internal {V E}.
Arguments m_irrelevant {V E}.
Arguments m_desired_param {V E}.
Arguments m_effective_param {V E}.
Arguments m_snapshot_value {V E}.
Arguments m_invalid_value {V E}.

Section ConfigParam.
Context {V E : Type}.
Context {Traits : TRConfigParamTraits V}.
Context {EffectiveTraits : TRConfigParamTraits E}.
Context {Conv : Converts V E}.
Context {ZeroV : Zero V}.

Definition getSnapshot (p : TRConfigParam V E) : V := m_snapshot_value p.

Definition setIrrelevant (p : TRConfigParam V E) : TRConfigParam V E :=
  mkConfigParam (m_internal p) true (m_desired_param p)
    (m_effective_param p) (m_snapshot_value p) (m_invalid_value p).

Definition setSnapshot (value : V) (p : TRConfigParam V E) : TRConfigParam V E :=
  mkConfigParam (m_internal p) (m_irrelevant p) (m_desired_param p)
    (m_effective_param p) value (m_invalid_value p).

Definition getDesired (p : TRConfigParam V E) (port : paramList) : V :=
  getParam (TRConfigParamTraits := Traits) port (m_desired_param p).

Definition setDesired (p : TRConfigParam V E) (value : V) (port : paramList)
  : paramList :=
  setParam (TRConfigParamTraits := Traits) port (m_desired_param p) value.

Definition setEffectiveParam (p : TRConfigParam V E) (value : E)
  (port : paramList) : paramList :=
  setParam (TRConfigParamTraits := EffectiveTraits) port (m_effective_param p) value.

Definition setSnapshotToDesired (p : TRConfigParam V E) (port : paramList)
  : TRConfigParam V E :=
  mkConfigParam (m_internal p) false (m_desired_param p) (m_effective_param p)
    (getParam (TRConfigParamTraits := Traits) port (m_desired_param p))
    (m_invalid_value p).

Definition setEffectiveToSnapshot (p : TRConfigParam V E) (port : paramList)
  : paramList :=
  setEffectiveParam p
    (if m_irrelevant p then m_invalid_value p else convert (m_snapshot_value p))
    port.

Definition setEffectiveToInvalid (p : TRConfigParam V E) (port : paramList)
  : paramList :=
  setEffectiveParam p (m_invalid_value p) port.

(** [TRConfigParam::init]: creates the DESIRED_ and EFFECTIVE_ parameters,
    sets the effective value to the invalid value and registers the
    write-protected parameters.  The snapshot starts at 0 and
    irrelevant.  Returns the parameter object, the parameter library
    and the list of write-protected parameters. *)
Definition init (invalid_value : E) (internal : bool)
  (port : paramList) (protected : list nat)
  : TRConfigParam V E * paramList * list nat :=
  let '(desired_param, port) :=
    createParam (asynType (TRConfigParamTraits := Traits)) port in
  let '(effective_param, port) :=
    createParam (asynType (TRConfigParamTraits := EffectiveTraits)) port in
  let p := mkConfigParam internal true desired_param effective_param
             zero invalid_value in
  let port := setEffectiveParam p invalid_value port in
  let protected := protected ++ [effective_param] in
  let protected := if internal then protected ++ [desired_param] else protected in
  (p, port, protected).

(** What the effective-value parameter of [p] reads in the library. *)
Definition effectiveValue (p : TRConfigParam V E) (port : paramList)
  : option paramVal := port !! m_effective_param p.

Definition invalidValue (p : TRConfigParam V E) : paramVal :=
  toParamVal (TRConfigParamTraits := EffectiveTraits) (m_invalid_value p).

End ConfigParam.

(** The three instantiations of the template, as one type for the vector
    [m_config_params] of [TRConfigParamBase] pointers. *)
Inductive TRConfigParamBase :=
| ConfigIntInt (p : TRConfigParam Z Z)
| ConfigIntDouble (p : TRConfigParam Z float)
| ConfigDoubleDouble (p : TRConfigParam float float).

Definition base_setSnapshotToDesired (port : paramList) (c : TRConfigParamBase)
  : TRConfigParamBase :=
  match c with
  | ConfigIntInt p => ConfigIntInt (setSnapshotToDesired p port)
  | ConfigIntDouble p => ConfigIntDouble (setSnapshotToDesired p port)
  | ConfigDoubleDouble p => ConfigDoubleDouble (setSnapshotToDesired p port)
  end.

Definition base_setEffectiveToSnapshot (c : TRConfigParamBase) (port : paramList)
  : paramList :=
  match c with
  | ConfigIntInt p => setEffectiveToSnapshot p port
  | ConfigIntDouble p => setEffectiveToSnapshot p port
  | ConfigDoubleDouble p => setEffectiveToSnapshot p port
  end.

Definition base_setEffectiveToInvalid (c : TRConfigParamBase) (port : paramList)
  : paramList :=
  match c with
  | ConfigIntInt p => setEffectiveToInvalid p port
  | ConfigIntDouble p => setEffectiveToInvalid p port
  | ConfigDoubleDouble p => setEffectiveToInvalid p port
  end.

Definition base_effective_param (c : TRConfigParamBase) : nat :=
  match c with
  | ConfigIntInt p => m_effective_param p
  | ConfigIntDouble p => m_effective_param p
  | ConfigDoubleDouble p => m_effective_param p
  end.

Definition base_desired_param (c : TRConfigParamBase) : nat :=
  match c with
  | ConfigIntInt p => m_desired_param p
  | ConfigIntDouble p => m_desired_param p
  | ConfigDoubleDouble p => m_desired_param p
  end.

Definition base_invalidValue (c : TRConfigParamBase) : paramVal :=
  match c with
  | ConfigIntInt p => invalidValue p
  | ConfigIntDouble p => invalidValue p
  | ConfigDoubleDouble p => invalidValue p
  end.

Definition base_irrelevant (c : TRConfigParamBase) : bool :=
  match c with
  | ConfigIntInt p => m_irrelevant p
  | ConfigIntDouble p => m_irrelevant p
  | ConfigDoubleDouble p => m_irrelevant p
  end.

(** ** Arm states (TRBaseDriver::ArmState) *)

Inductive ArmState :=
| ArmStateDisarm
| ArmStatePostTrigger
| ArmStatePrePostTrigger
| ArmStateBusy
| ArmStateError.

#[export] Instance ArmState_eq_dec : EqDecision ArmState.
Proof. solve_decision. Defined.

Definition ArmState_to_int (s : ArmState) : Z :=
  match s with
  | ArmStateDisarm => 0
  | ArmStatePostTrigger => 1
  | ArmStatePrePostTrigger => 2
  | ArmStateBusy => 3
  | ArmStateError => 4
  end.

(** The cast [(ArmState)armRequest], used only once the request is known to
    be one of the three requestable states. *)
Definition ArmState_of_int (z : Z) : ArmState :=
  if (z =? 0)%Z then ArmStateDisarm
  else if (z =? 1)%Z then ArmStatePostTrigger
  else if (z =? 2)%Z then ArmStatePrePostTrigger
  else if (z =? 3)%Z then ArmStateBusy
  else ArmStateError.

Definition ArmState_eqb (a b : ArmState) : bool :=
  match a, b with
  | ArmStateDisarm, ArmStateDisarm
  | ArmStatePostTrigger, ArmStatePostTrigger
  | ArmStatePrePostTrigger, ArmStatePrePostTrigger
  | ArmStateBusy, ArmStateBusy
  | ArmStateError, ArmStateError => true
  | _, _ => false
  end.

(** ** TRChannelsDriver: the channels port

    NDArray and its pool belong to areaDetector, which is not part of the
    repository.  An array is addressed by its index in the pool; it is free
    when its reference count is 0, [reserve] and [release] count references,
    and an allocation reuses a free array or, while the pool has not reached
    [maxBuffers] (0 means no limit), adds one; otherwise it returns NULL. *)

Record NDArray := mkNDArray {
  uniqueId : Z;
  timeStamp : float;
  epicsTS : Z * Z;
  referenceCount : Z;
  READ_SAMPLE_RATE : option float;
  dataType : Z;
  numSamples : Z;
}.

Definition NDArray_reserve (a : NDArray) : NDArray :=
  mkNDArray (uniqueId a) (timeStamp a) (epicsTS a) (referenceCount a + 1)
    (READ_SAMPLE_RATE a) (dataType a) (numSamples a).

Definition NDArray_release (a : NDArray) : NDArray :=
  mkNDArray (uniqueId a) (timeStamp a) (epicsTS a) (referenceCount a - 1)
    (READ_SAMPLE_RATE a) (dataType a) (numSamples a).

Definition NDArray_setMeta (unique_id : Z) (timestamp : float) (epics_ts : Z * Z)
  (a : NDArray) : NDArray :=
  mkNDArray unique_id timestamp epics_ts (referenceCount a)
    (READ_SAMPLE_RATE a) (dataType a) (numSamples a).

Definition NDArray_addSampleRate (sample_rate : float) (a : NDArray) : NDArray :=
  mkNDArray (uniqueId a) (timeStamp a) (epicsTS a) (referenceCount a)
    (Some sample_rate) (dataType a) (numSamples a).

Definition NDArray_fresh (data_type num_samples : Z) : NDArray :=
  mkNDArray 0 0%float (0, 0)%Z 1 None data_type num_samples.

Definition NDArray_isFree (a : NDArray) : bool := (referenceCount a =? 0)%Z.

(** A completion callback ([TRArrayCompletionCallback::completeArray]) may
    change the array and says whether to submit it. *)
Definition TRArrayCompletionCallback := NDArray -> bool * NDArray.

Record TRChannelsDriver := mkChannels {
  maxAddr : Z;
  maxBuffers : Z;
  pNDArrayPool : list NDArray;
  pArrays : list (option nat);
  NDArrayCallbacks : list Z;
  UPDATE_ARRAYS : list Z;
  (** the calls of [doCallbacksGenericPointer]: array, its contents, channel *)
  genericPointerCallbacks : list (nat * NDArray * Z);
  (** the calls of [submitArray] so far: array, channel, sample rate *)
  submitArrayCalls : list (nat * Z * float);
}.

Definition set_pNDArrayPool (v : list NDArray) (c : TRChannelsDriver) :=
  mkChannels (maxAddr c) (maxBuffers c) v (pArrays c) (NDArrayCallbacks c)
    (UPDATE_ARRAYS c) (genericPointerCallbacks c) (submitArrayCalls c).

Definition set_pArrays (v : list (option nat)) (c : TRChannelsDriver) :=
  mkChannels (maxAddr c) (maxBuffers c) (pNDArrayPool c) v (NDArrayCallbacks c)
    (UPDATE_ARRAYS c) (genericPointerCallbacks c) (submitArrayCalls c).

Definition set_genericPointerCallbacks (v : list (nat * NDArray * Z))
  (c : TRChannelsDriver) :=
  mkChannels (maxAddr c) (maxBuffers c) (pNDArrayPool c) (pArrays c)
    (NDArrayCallbacks c) (UPDATE_ARRAYS c) v (submitArrayCalls c).

Definition set_submitArrayCalls (v : list (nat * Z * float))
  (c : TRChannelsDriver) :=
  mkChannels (maxAddr c) (maxBuffers c) (pNDArrayPool c) (pArrays c)
    (NDArrayCallbacks c) (UPDATE_ARRAYS c) (genericPointerCallbacks c) v.

(** [array->release()], [array->reserve()] on the array at an address. *)
Definition pool_release (array : nat) (c : TRChannelsDriver) : TRChannelsDriver :=
  set_pNDArrayPool (alter NDArray_release array (pNDArrayPool c)) c.

Definition pool_reserve (array : nat) (c : TRChannelsDriver) : TRChannelsDriver :=
  set_pNDArrayPool (alter NDArray_reserve array (pNDArrayPool c)) c.

(** The constructor: every channel starts with array callbacks and pArrays
    updates enabled and no array. *)
Definition TRChannelsDriver_new (num_channels num_extra_addrs max_ad_buffers : Z)
  : TRChannelsDriver :=
  let n := Z.to_nat (num_channels + num_extra_addrs) in
  mkChannels (num_channels + num_extra_addrs) max_ad_buffers []
    (replicate n None)
    (replicate (Z.to_nat num_channels) 1%Z ++ replicate (Z.to_nat num_extra_addrs) 0%Z)
    (replicate (Z.to_nat num_channels) 1%Z ++ replicate (Z.to_nat num_extra_addrs) 0%Z)
    [] [].

(** [resetArrays]: release and clear the array of every address. *)
Definition resetArrays_channel (c : TRChannelsDriver) (channel : nat)
  : TRChannelsDriver :=
  match pArrays c !! channel with
  | Some (Some array) =>
      set_pArrays (<[channel := None]> (pArrays c)) (pool_release array c)
  | _ => c
  end.

Definition resetArrays (c : TRChannelsDriver) : TRChannelsDriver :=
  foldl resetArrays_channel c (seq 0 (Z.to_nat (maxAddr c))).

(** [TRChannelsDriver::allocateArray]: [pNDArrayPool->alloc]. *)
Definition allocateArray (data_type num_samples : Z) (c : TRChannelsDriver)
  : option nat * TRChannelsDriver :=
  match list_find (fun a => NDArray_isFree a = true) (pNDArrayPool c) with
  | Some (array, _) =>
      (Some array,
       set_pNDArrayPool
         (<[array := NDArray_fresh data_type num_samples]> (pNDArrayPool c)) c)
  | None =>
      if ((maxBuffers c =? 0)%Z
          || (Z.of_nat (length (pNDArrayPool c)) <? maxBuffers c)%Z)
      then (Some (length (pNDArrayPool c)),
            set_pNDArrayPool
              (pNDArrayPool c ++ [NDArray_fresh data_type num_samples]) c)
      else (None, c)
  end.

Definition channelParam (l : list Z) (channel : Z) : Z :=
  if (channel <? 0)%Z then 0%Z else default 0%Z (l !! Z.to_nat channel).

(** [TRChannelsDriver::submitArray].  [None] is a failed assertion. *)
Definition submitArray (array : nat) (channel : Z) (sample_rate : float)
  (compl_cb : option TRArrayCompletionCallback) (c : TRChannelsDriver)
  : option TRChannelsDriver :=
  if negb (channel <? maxAddr c)%Z then None else
  let c := set_submitArrayCalls (submitArrayCalls c ++ [(array, channel, sample_rate)]) c in
  let arrayCallbacks := channelParam (NDArrayCallbacks c) channel in
  let update_parrays := channelParam (UPDATE_ARRAYS c) channel in
  let c := set_pNDArrayPool
             (alter (NDArray_addSampleRate sample_rate) array (pNDArrayPool c)) c in
  let '(submit, c) :=
    match compl_cb, pNDArrayPool c !! array with
    | Some cb, Some a =>
        let '(submit, a') := cb a in
        (submit, set_pNDArrayPool (<[array := a']> (pNDArrayPool c)) c)
    | _, _ => (true, c)
    end in
  let c :=
    if submit && negb (update_parrays =? 0)%Z then
      let c := pool_reserve array c in
      let c := match pArrays c !! Z.to_nat channel with
               | Some (Some old) => pool_release old c
               | _ => c
               end in
      set_pArrays (<[Z.to_nat channel := Some array]> (pArrays c)) c
    else c in
  let c :=
    if submit && negb (arrayCallbacks =? 0)%Z then
      match pNDArrayPool c !! array with
      | Some a =>
          set_genericPointerCallbacks
            (genericPointerCallbacks c ++ [(array, a, channel)]) c
      | None => c
      end
    else c in
  Some (pool_release array c).

(** ** TRTimeArrayDriver: the port of the relative time axis *)

Module TimeArray.

(** Parameter indices, in the order the constructor creates them.  The
    ARRAY parameter is a float64 array, which the parameter library does
    not store; its slot only reserves the index. *)
Definition ARRAY : nat := 0.
Definition UPDATE : nat := 1.

Record TRTimeArrayDriver := mkTimeArray {
  ta_params : paramList;
  m_unit : float;
  m_num_pre : Z;
  m_num_post : Z;
}.

Definition new : TRTimeArrayDriver :=
  let '(_, l) := createParam asynParamFloat64 [] in
  let '(_, l) := createParam asynParamInt32 l in
  mkTimeArray (setIntegerParam UPDATE 0 l) 0%float 0 0.

(** The loop [for (i = 0; i < count; i++) value[i] = (i - num_pre) * unit]. *)
Definition writeArray (unit : float) (num_pre count : Z) (value : list float)
  : list float :=
  foldl (fun value i =>
           <[Z.to_nat i := PrimFloat.mul (double_of_int (i - num_pre)) unit]> value)
    value (seqZ 0 count).

(** [readFloat64Array].  [value] is the caller's buffer of [nElements]
    elements and [nIn] the previous contents of the output count; the
    base class does not implement array reads and fails without touching
    either. *)
Definition readFloat64Array (t : TRTimeArrayDriver) (reason : nat)
  (value : list float) (nElements : Z) (nIn : Z)
  : asynStatus * list float * Z :=
  if Nat.eqb reason ARRAY then
    let unit := m_unit t in
    let num_pre := m_num_pre t in
    let num_post := m_num_post t in
    if ((num_pre <? 0) || (num_post <? 0) || (INT_MAX - num_pre <? num_post))%Z
    then (asynError, value, 0%Z)
    else
      let count := (num_pre + num_post)%Z in
      let count := if (nElements <? count)%Z then nElements else count in
      (asynSuccess, writeArray unit num_pre count value, count)
  else (asynError, value, nIn).

Definition setTimeArrayParams (unit : float) (num_pre num_post : Z)
  (t : TRTimeArrayDriver) : TRTimeArrayDriver :=
  let update := getIntegerParam UPDATE (ta_params t) in
  mkTimeArray
    (setIntegerParam UPDATE (if (update =? 0)%Z then 1 else 0)%Z (ta_params t))
    unit num_pre num_post.

End TimeArray.

Abbreviation TRTimeArrayDriver := TimeArray.TRTimeArrayDriver.

Record TRBaseDriver := mkDriver {
  params : paramList;
  m_num_channels : Z;
  m_supports_pre_samples : bool;
  m_init_completed : bool;
  m_allowing_data : bool;
  m_protected_params : list nat;
  m_param_num_bursts : TRConfigParam Z float;
  m_param_num_post_samples : TRConfigParam Z float;
  m_param_num_pre_post_samples : TRConfigParam Z float;
  m_param_requested_sample_rate : TRConfigParam float float;
  m_param_achievable_sample_rate : TRConfigParam float float;
  m_derived_config_params : list TRConfigParamBase;
  m_arm_state : ArmState;
  m_requested_arm_state : ArmState;
  m_disarm_requested : bool;
  m_requested_rearm_state : ArmState;
  m_in_read_loop : bool;
  m_rate_for_display : float;
  m_start_arming_event : bool;
  m_disarm_requested_event : bool;
  m_channels_driver : TRChannelsDriver;
  m_time_array_driver : TRTimeArrayDriver;
}.

(** Field updates ([d.f = v]). *)
Definition set_params (v : paramList) (d : TRBaseDriver) : TRBaseDriver :=
  mkDriver v (m_num_channels d) (m_supports_pre_samples d) (m_init_completed
    d) (m_allowing_data d) (m_protected_params d) (m_param_num_bursts d)
    (m_param_num_post_samples d) (m_param_num_pre_post_samples d)
    (m_param_requested_sample_rate d) (m_param_achievable_sample_rate d)
    (m_derived_config_params d) (m_arm_state d) (m_requested_arm_state d)
    (m_disarm_requested d) (m_requested_rearm_state d) (m_in_read_loop d)
    (m_rate_for_display d) (m_start_arming_event d) (m_disarm_requested_event
    d) (m_channels_driver d) (m_time_array_driver d).

Definition set_m_init_completed (v : bool) (d : TRBaseDriver) : TRBaseDriver :=
  mkDriver (params d) (m_num_channels d) (m_supports_pre_samples d) v
    (m_allowing_data d) (m_protected_params d) (m_param_num_bursts d)
    (m_param_num_post_samples d) (m_param_num_pre_post_samples d)
    (m_param_requested_sample_rate d) (m_param_achievable_sample_rate d)
    (m_derived_config_params d) (m_arm_state d) (m_requested_arm_state d)
    (m_disarm_requested d) (m_requested_rearm_state d) (m_in_read_loop d)
    (m_rate_for_display d) (m_start_arming_event d) (m_disarm_requested_event
    d) (m_channels_driver d) (m_time_array_driver d).

Definition set_m_allowing_data (v : bool) (d : TRBaseDriver) : TRBaseDriver :=
  mkDriver (params d) (m_num_channels d) (m_supports_pre_samples d)
    (m_init_completed d) v (m_protected_params d) (m_param_num_bursts d)
    (m_param_num_post_samples d) (m_param_num_pre_post_samples d)
    (m_param_requested_sample_rate d) (m_param_achievable_sample_rate d)
    (m_derived_config_params d) (m_arm_state d) (m_requested_arm_state d)
    (m_disarm_requested d) (m_requested_rearm_state d) (m_in_read_loop d)
    (m_rate_for_display d) (m_start_arming_event d) (m_disarm_requested_event
    d) (m_channels_driver d) (m_time_array_driver d).

Definition set_m_protected_params (v : list nat) (d : TRBaseDriver) : TRBaseDriver :=
  mkDriver (params d) (m_num_channels d) (m_supports_pre_samples d)
    (m_init_completed d) (m_allowing_data d) v (m_param_num_bursts d)
    (m_param_num_post_samples d) (m_param_num_pre_post_samples d)
    (m_param_requested_sample_rate d) (m_param_achievable_sample_rate d)
    (m_derived_config_params d) (m_arm_state d) (m_requested_arm_state d)
    (m_disarm_requested d) (m_requested_rearm_state d) (m_in_read_loop d)
    (m_rate_for_display d) (m_start_arming_event d) (m_disarm_requested_event
    d) (m_channels_driver d) (m_time_array_driver d).

Definition set_m_param_num_bursts (v : TRConfigParam Z float) (d : TRBaseDriver) : TRBaseDriver :=
  mkDriver (params d) (m_num_channels d) (m_supports_pre_samples d)
    (m_init_completed d) (m_allowing_data d) (m_protected_params d) v
    (m_param_num_post_samples d) (m_param_num_pre_post_samples d)
    (m_param_requested_sample_rate d) (m_param_achievable_sample_rate d)
    (m_derived_config_params d) (m_arm_state d) (m_requested_arm_state d)
    (m_disarm_requested d) (m_requested_rearm_state d) (m_in_read_loop d)
    (m_rate_for_display d) (m_start_arming_event d) (m_disarm_requested_event
    d) (m_channels_driver d) (m_time_array_driver d).

Definition set_m_param_num_post_samples (v : TRConfigParam Z float) (d : TRBaseDriver) : TRBaseDriver :=
  mkDriver (params d) (m_num_channels d) (m_supports_pre_samples d)
    (m_init_completed d) (m_allowing_data d) (m_protected_params d)
    (m_param_num_bursts d) v (m_param_num_pre_post_samples d)
    (m_param_requested_sample_rate d) (m_param_achievable_sample_rate d)
    (m_derived_config_params d) (m_arm_state d) (m_requested_arm_state d)
    (m_disarm_requested d) (m_requested_rearm_state d) (m_in_read_loop d)
    (m_rate_for_display d) (m_start_arming_event d) (m_disarm_requested_event
    d) (m_channels_driver d) (m_time_array_driver d).

Definition set_m_param_num_pre_post_samples (v : TRConfigParam Z float) (d : TRBaseDriver) : TRBaseDriver :=
  mkDriver (params d) (m_num_channels d) (m_supports_pre_samples d)
    (m_init_completed d) (m_allowing_data d) (m_protected_params d)
    (m_param_num_bursts d) (m_param_num_post_samples d) v
    (m_param_requested_sample_rate d) (m_param_achievable_sample_rate d)
    (m_derived_config_params d) (m_arm_state d) (m_requested_arm_state d)
    (m_disarm_requested d) (m_requested_rearm_state d) (m_in_read_loop d)
    (m_rate_for_display d) (m_start_arming_event d) (m_disarm_requested_event
    d) (m_channels_driver d) (m_time_array_driver d).

Definition set_m_param_requested_sample_rate (v : TRConfigParam float float) (d : TRBaseDriver) : TRBaseDriver :=
  mkDriver (params d) (m_num_channels d) (m_supports_pre_samples d)
    (m_init_completed d) (m_allowing_data d) (m_protected_params d)
    (m_param_num_bursts d) (m_param_num_post_samples d)
    (m_param_num_pre_post_samples d) v (m_param_achievable_sample_rate d)
    (m_derived_config_params d) (m_arm_state d) (m_requested_arm_state d)
    (m_disarm_requested d) (m_requested_rearm_state d) (m_in_read_loop d)
    (m_rate_for_display d) (m_start_arming_event d) (m_disarm_requested_event
    d) (m_channels_driver d) (m_time_array_driver d).

Definition set_m_param_achievable_sample_rate (v : TRConfigParam float float) (d : TRBaseDriver) : TRBaseDriver :=
  mkDriver (params d) (m_num_channels d) (m_supports_pre_samples d)
    (m_init_completed d) (m_allowing_data d) (m_protected_params d)
    (m_param_num_bursts d) (m_param_num_post_samples d)
    (m_param_num_pre_post_samples d) (m_param_requested_sample_rate d) v
    (m_derived_config_params d) (m_arm_state d) (m_requested_arm_state d)
    (m_disarm_requested d) (m_requested_rearm_state d) (m_in_read_loop d)
    (m_rate_for_display d) (m_start_arming_event d) (m_disarm_requested_event
    d) (m_channels_driver d) (m_time_array_driver d).

Definition set_m_derived_config_params (v : list TRConfigParamBase) (d : TRBaseDriver) : TRBaseDriver :=
  mkDriver (params d) (m_num_channels d) (m_supports_pre_samples d)
    (m_init_completed d) (m_allowing_data d) (m_protected_params d)
    (m_param_num_bursts d) (m_param_num_post_samples d)
    (m_param_num_pre_post_samples d) (m_param_requested_sample_rate d)
    (m_param_achievable_sample_rate d) v (m_arm_state d)
    (m_requested_arm_state d) (m_disarm_requested d) (m_requested_rearm_state
    d) (m_in_read_loop d) (m_rate_for_display d) (m_start_arming_event d)
    (m_disarm_requested_event d) (m_channels_driver d) (m_time_array_driver d).

Definition set_m_arm_state (v : ArmState) (d : TRBaseDriver) : TRBaseDriver :=
  mkDriver (params d) (m_num_channels d) (m_supports_pre_samples d)
    (m_init_completed d) (m_allowing_data d) (m_protected_params d)
    (m_param_num_bursts d) (m_param_num_post_samples d)
    (m_param_num_pre_post_samples d) (m_param_requested_sample_rate d)
    (m_param_achievable_sample_rate d) (m_derived_config_params d) v
    (m_requested_arm_state d) (m_disarm_requested d) (m_requested_rearm_state
    d) (m_in_read_loop d) (m_rate_for_display d) (m_start_arming_event d)
    (m_disarm_requested_event d) (m_channels_driver d) (m_time_array_driver d).

Definition set_m_requested_arm_state (v : ArmState) (d : TRBaseDriver) : TRBaseDriver :=
  mkDriver (params d) (m_num_channels d) (m_supports_pre_samples d)
    (m_init_completed d) (m_allowing_data d) (m_protected_params d)
    (m_param_num_bursts d) (m_param_num_post_samples d)
    (m_param_num_pre_post_samples d) (m_param_requested_sample_rate d)
    (m_param_achievable_sample_rate d) (m_derived_config_params d)
    (m_arm_state d) v (m_disarm_requested d) (m_requested_rearm_state d)
    (m_in_read_loop d) (m_rate_for_display d) (m_start_arming_event d)
    (m_disarm_requested_event d) (m_channels_driver d) (m_time_array_driver d).

Definition set_m_disarm_requested (v : bool) (d : TRBaseDriver) : TRBaseDriver :=
  mkDriver (params d) (m_num_channels d) (m_supports_pre_samples d)
    (m_init_completed d) (m_allowing_data d) (m_protected_params d)
    (m_param_num_bursts d) (m_param_num_post_samples d)
    (m_param_num_pre_post_samples d) (m_param_requested_sample_rate d)
    (m_param_achievable_sample_rate d) (m_derived_config_params d)
    (m_arm_state d) (m_requested_arm_state d) v (m_requested_rearm_state d)
    (m_in_read_loop d) (m_rate_for_display d) (m_start_arming_event d)
    (m_disarm_requested_event d) (m_channels_driver d) (m_time_array_driver d).

Definition set_m_requested_rearm_state (v : ArmState) (d : TRBaseDriver) : TRBaseDriver :=
  mkDriver (params d) (m_num_channels d) (m_supports_pre_samples d)
    (m_init_completed d) (m_allowing_data d) (m_protected_params d)
    (m_param_num_bursts d) (m_param_num_post_samples d)
    (m_param_num_pre_post_samples d) (m_param_requested_sample_rate d)
    (m_param_achievable_sample_rate d) (m_derived_config_params d)
    (m_arm_state d) (m_requested_arm_state d) (m_disarm_requested d) v
    (m_in_read_loop d) (m_rate_for_display d) (m_start_arming_event d)
    (m_disarm_requested_event d) (m_channels_driver d) (m_time_array_driver d).

Definition set_m_in_read_loop (v : bool) (d : TRBaseDriver) : TRBaseDriver :=
  mkDriver (params d) (m_num_channels d) (m_supports_pre_samples d)
    (m_init_completed d) (m_allowing_data d) (m_protected_params d)
    (m_param_num_bursts d) (m_param_num_post_samples d)
    (m_param_num_pre_post_samples d) (m_param_requested_sample_rate d)
    (m_param_achievable_sample_rate d) (m_derived_config_params d)
    (m_arm_state d) (m_requested_arm_state d) (m_disarm_requested d)
    (m_requested_rearm_state d) v (m_rate_for_display d) (m_start_arming_event
    d) (m_disarm_requested_event d) (m_channels_driver d) (m_time_array_driver
    d).

Definition set_m_rate_for_display (v : float) (d : TRBaseDriver) : TRBaseDriver :=
  mkDriver (params d) (m_num_channels d) (m_supports_pre_samples d)
    (m_init_completed d) (m_allowing_data d) (m_protected_params d)
    (m_param_num_bursts d) (m_param_num_post_samples d)
    (m_param_num_pre_post_samples d) (m_param_requested_sample_rate d)
    (m_param_achievable_sample_rate d) (m_derived_config_params d)
    (m_arm_state d) (m_requested_arm_state d) (m_disarm_requested d)
    (m_requested_rearm_state d) (m_in_read_loop d) v (m_start_arming_event d)
    (m_disarm_requested_event d) (m_channels_driver d) (m_time_array_driver d).

Definition set_m_start_arming_event (v : bool) (d : TRBaseDriver) : TRBaseDriver :=
  mkDriver (params d) (m_num_channels d) (m_supports_pre_samples d)
    (m_init_completed d) (m_allowing_data d) (m_protected_params d)
    (m_param_num_bursts d) (m_param_num_post_samples d)
    (m_param_num_pre_post_samples d) (m_param_requested_sample_rate d)
    (m_param_achievable_sample_rate d) (m_derived_config_params d)
    (m_arm_state d) (m_requested_arm_state d) (m_disarm_requested d)
    (m_requested_rearm_state d) (m_in_read_loop d) (m_rate_for_display d) v
    (m_disarm_requested_event d) (m_channels_driver d) (m_time_array_driver d).

Definition set_m_disarm_requested_event (v : bool) (d : TRBaseDriver) : TRBaseDriver :=
  mkDriver (params d) (m_num_channels d) (m_supports_pre_samples d)
    (m_init_completed d) (m_allowing_data d) (m_protected_params d)
    (m_param_num_bursts d) (m_param_num_post_samples d)
    (m_param_num_pre_post_samples d) (m_param_requested_sample_rate d)
    (m_param_achievable_sample_rate d) (m_derived_config_params d)
    (m_arm_state d) (m_requested_arm_state d) (m_disarm_requested d)
    (m_requested_rearm_state d) (m_in_read_loop d) (m_rate_for_display d)
    (m_start_arming_event d) v (m_channels_driver d) (m_time_array_driver d).

Definition set_m_channels_driver (v : TRChannelsDriver) (d : TRBaseDriver) : TRBaseDriver :=
  mkDriver (params d) (m_num_channels d) (m_supports_pre_samples d)
    (m_init_completed d) (m_allowing_data d) (m_protected_params d)
    (m_param_num_bursts d) (m_param_num_post_samples d)
    (m_param_num_pre_post_samples d) (m_param_requested_sample_rate d)
    (m_param_achievable_sample_rate d) (m_derived_config_params d)
    (m_arm_state d) (m_requested_arm_state d) (m_disarm_requested d)
    (m_requested_rearm_state d) (m_in_read_loop d) (m_rate_for_display d)
    (m_start_arming_event d) (m_disarm_requested_event d) v
    (m_time_array_driver d).

Definition set_m_time_array_driver (v : TRTimeArrayDriver) (d : TRBaseDriver) : TRBaseDriver :=
  mkDriver (params d) (m_num_channels d) (m_supports_pre_samples d)
    (m_init_completed d) (m_allowing_data d) (m_protected_params d)
    (m_param_num_bursts d) (m_param_num_post_samples d)
    (m_param_num_pre_post_samples d) (m_param_requested_sample_rate d)
    (m_param_achievable_sample_rate d) (m_derived_config_params d)
    (m_arm_state d) (m_requested_arm_state d) (m_disarm_requested d)
    (m_requested_rearm_state d) (m_in_read_loop d) (m_rate_for_display d)
    (m_start_arming_event d) (m_disarm_requested_event d) (m_channels_driver
    d) v.

(** ** Construction of the base driver *)

Record TRBaseConfig := mkBaseConfig {
  num_channels : Z;
  supports_pre_samples : bool;
  max_ad_buffers : Z;
}.

(** The asyn parameters of the base class, by the index [createParam] gives
    them in the constructor ([m_asyn_params]). *)
Definition ARM_REQUEST : nat := 0.
Definition ARM_STATE : nat := 1.
Definition EFFECTIVE_SAMPLE_RATE : nat := 2.
Definition BURST_ID : nat := 3.
Definition BURST_TIME_BURST : nat := 4.
Definition BURST_TIME_READ : nat := 5.
Definition BURST_TIME_PROCESS : nat := 6.
Definition SLEEP_AFTER_BURST : nat := 7.

Definition baseAsynParams : paramList :=
  let l := [] in
  let '(_, l) := createParam asynParamInt32 l in     (* ARM_REQUEST *)
  let '(_, l) := createParam asynParamInt32 l in     (* ARM_STATE *)
  let '(_, l) := createParam asynParamFloat64 l in   (* EFFECTIVE_SAMPLE_RATE *)
  let '(_, l) := createParam asynParamInt32 l in     (* BURST_ID *)
  let '(_, l) := createParam asynParamFloat64 l in   (* BURST_TIME_BURST *)
  let '(_, l) := createParam asynParamFloat64 l in   (* BURST_TIME_READ *)
  let '(_, l) := createParam asynParamFloat64 l in   (* BURST_TIME_PROCESS *)
  let '(_, l) := createParam asynParamFloat64 l in   (* SLEEP_AFTER_BURST *)
  l.

(** The constructor.  It leaves [m_requested_arm_state],
    [m_disarm_requested], [m_requested_rearm_state] and [m_in_read_loop]
    uninitialised; [startArming] assigns them before they are first read.
    The channels driver does not exist before [completeInit]. *)
Definition TRBaseDriver_new (cfg : TRBaseConfig) : TRBaseDriver :=
  let port := baseAsynParams in
  let protected :=
    [ARM_STATE; EFFECTIVE_SAMPLE_RATE; BURST_ID; BURST_TIME_BURST;
     BURST_TIME_READ; BURST_TIME_PROCESS] in
  let port := setIntegerParam ARM_REQUEST (ArmState_to_int ArmStateDisarm) port in
  let port := setIntegerParam ARM_STATE (ArmState_to_int ArmStateDisarm) port in
  let port := setDoubleParam EFFECTIVE_SAMPLE_RATE NAN port in
  let '(num_bursts, port, protected) := init NAN false port protected in
  let '(num_post_samples, port, protected) := init NAN false port protected in
  let '(num_pre_post_samples, port, protected) := init NAN false port protected in
  let '(requested_sample_rate, port, protected) := init NAN false port protected in
  let '(achievable_sample_rate, port, protected) := init NAN true port protected in
  mkDriver port (num_channels cfg) (supports_pre_samples cfg) false false
    protected num_bursts num_post_samples num_pre_post_samples
    requested_sample_rate achievable_sample_rate []
    ArmStateDisarm ArmStateDisarm false ArmStateDisarm false 0%float
    false false
    (TRChannelsDriver_new 0 0 (max_ad_buffers cfg))
    TimeArray.new.

(** What the constructor of a derived class does to the base object:
    it creates its own asyn parameters and initialises its own
    configuration parameters. *)
Inductive DerivedInit :=
| DerivedCreateParam (t : asynParamType)
| DerivedConfigIntInt (invalid_value : Z) (internal : bool)
| DerivedConfigIntDouble (invalid_value : float) (internal : bool)
| DerivedConfigDoubleDouble (invalid_value : float) (internal : bool).

Definition addConfigParam (c : TRConfigParamBase) (port : paramList)
  (protected : list nat) (d : TRBaseDriver) : TRBaseDriver :=
  set_m_derived_config_params (m_derived_config_params d ++ [c])
    (set_m_protected_params protected (set_params port d)).

Definition derivedInit (d : TRBaseDriver) (op : DerivedInit) : TRBaseDriver :=
  match op with
  | DerivedCreateParam t => set_params (createParam t (params d)).2 d
  | DerivedConfigIntInt invalid_value internal =>
      let '(p, port, protected) :=
        init (V := Z) (E := Z) invalid_value internal (params d) (m_protected_params d) in
      addConfigParam (ConfigIntInt p) port protected d
  | DerivedConfigIntDouble invalid_value internal =>
      let '(p, port, protected) :=
        init (V := Z) (E := float) invalid_value internal (params d) (m_protected_params d) in
      addConfigParam (ConfigIntDouble p) port protected d
  | DerivedConfigDoubleDouble invalid_value internal =>
      let '(p, port, protected) :=
        init (V := float) (E := float) invalid_value internal (params d) (m_protected_params d) in
      addConfigParam (ConfigDoubleDouble p) port protected d
  end.

(** [completeInit] with the default [createChannelsDriver]. *)
Definition completeInit (d : TRBaseDriver) : TRBaseDriver :=
  set_m_init_completed true
    (set_m_channels_driver
       (TRChannelsDriver_new (m_num_channels d) 0
          (maxBuffers (m_channels_driver d))) d).

(** A driver object as the initialisation function of a digitizer driver
    leaves it. *)
Definition construct (cfg : TRBaseConfig) (derived : list DerivedInit) : TRBaseDriver :=
  completeInit (foldl derivedInit (TRBaseDriver_new cfg) derived).

(** [m_config_params], in the order the parameters were initialised. *)
Definition m_config_params (d : TRBaseDriver) : list TRConfigParamBase :=
  [ConfigIntDouble (m_param_num_bursts d);
   ConfigIntDouble (m_param_num_post_samples d);
   ConfigIntDouble (m_param_num_pre_post_samples d);
   ConfigDoubleDouble (m_param_requested_sample_rate d);
   ConfigDoubleDouble (m_param_achievable_sample_rate d)]
  ++ m_derived_config_params d.

(** ** Functions of TRBaseDriver that only touch the driver object *)

Definition addProtectedParam (param : nat) (d : TRBaseDriver) : TRBaseDriver :=
  set_m_protected_params (m_protected_params d ++ [param]) d.

(** [std::find(...) == end()]; the error message is not modelled. *)
Definition checkProtectedParamWrite (param : nat) (d : TRBaseDriver) : bool :=
  negb (bool_decide (param ∈ m_protected_params d)).

Definition isDisarmed (d : TRBaseDriver) : bool :=
  ArmState_eqb (m_arm_state d) ArmStateDisarm.

Definition getRequestedSampleRate (d : TRBaseDriver) : float :=
  getDesired (m_param_requested_sample_rate d) (params d).

(** [callParamCallbacks] publishes the changed parameters to the clients of
    the port; it does not change the state of the driver. *)
Definition setAchievableSampleRate (value : float) (d : TRBaseDriver) : TRBaseDriver :=
  set_params (setDesired (m_param_achievable_sample_rate d) value (params d)) d.

Record TRBurstMetaInfo := mkBurstMetaInfo {
  burst_id : Z;
  time_burst : float;
  time_read : float;
  time_process : float;
}.

Definition publishBurstMetaInfo (info : TRBurstMetaInfo) (d : TRBaseDriver)
  : TRBaseDriver :=
  let port := params d in
  let port := setIntegerParam BURST_ID (burst_id info) port in
  let port := setDoubleParam BURST_TIME_BURST (time_burst info) port in
  let port := setDoubleParam BURST_TIME_READ (time_read info) port in
  let port := setDoubleParam BURST_TIME_PROCESS (time_process info) port in
  set_params port d.

(** [processConfigParams(&TRConfigParamBase::setSnapshotToDesired)]. *)
Definition snapshotConfigParams (d : TRBaseDriver) : TRBaseDriver :=
  let port := params d in
  set_m_param_num_bursts (setSnapshotToDesired (m_param_num_bursts d) port)
  (set_m_param_num_post_samples (setSnapshotToDesired (m_param_num_post_samples d) port)
  (set_m_param_num_pre_post_samples
     (setSnapshotToDesired (m_param_num_pre_post_samples d) port)
  (set_m_param_requested_sample_rate
     (setSnapshotToDesired (m_param_requested_sample_rate d) port)
  (set_m_param_achievable_sample_rate
     (setSnapshotToDesired (m_param_achievable_sample_rate d) port)
  (set_m_derived_config_params
     (base_setSnapshotToDesired port <$> m_derived_config_params d) d))))).

(** [processConfigParams] with a member function that writes the parameter
    library: the functions run over [m_config_params] from first to last. *)
Definition processConfigParams (func : TRConfigParamBase -> paramList -> paramList)
  (d : TRBaseDriver) : TRBaseDriver :=
  set_params (foldl (fun port c => func c port) (params d) (m_config_params d)) d.

Definition setEffectiveParams (d : TRBaseDriver) : TRBaseDriver :=
  let d := set_params
             (setDoubleParam EFFECTIVE_SAMPLE_RATE (m_rate_for_display d) (params d)) d in
  processConfigParams base_setEffectiveToSnapshot d.

Definition clearEffectiveParams (d : TRBaseDriver) : TRBaseDriver :=
  let d := set_params (setDoubleParam EFFECTIVE_SAMPLE_RATE NAN (params d)) d in
  processConfigParams base_setEffectiveToInvalid d.

(** [checkBasicSettings]: the result and the driver, whose
    NUM_PRE_POST_SAMPLES parameter the last branch changes. *)
Definition checkBasicSettings (d : TRBaseDriver) : bool * TRBaseDriver :=
  let num_bursts := getSnapshot (m_param_num_bursts d) in
  if (num_bursts <? 0)%Z then (false, d) else
  let num_post_samples := getSnapshot (m_param_num_post_samples d) in
  if (num_post_samples <=? 0)%Z then (false, d) else
  if ArmState_eqb (m_requested_arm_state d) ArmStatePrePostTrigger then
    if negb (m_supports_pre_samples d) then (false, d) else
    let num_pre_post_samples := getSnapshot (m_param_num_pre_post_samples d) in
    if (num_pre_post_samples <=? num_post_samples)%Z then (false, d) else
    (true, d)
  else
    (true,
     set_m_param_num_pre_post_samples
       (setSnapshot 0%Z (setIrrelevant (m_param_num_pre_post_samples d))) d).

Definition setupTimeArray (d : TRBaseDriver) : TRBaseDriver :=
  let unit := PrimFloat.div 1%float (m_rate_for_display d) in
  let num_post := getSnapshot (m_param_num_post_samples d) in
  let num_pre_post := getSnapshot (m_param_num_pre_post_samples d) in
  let num_pre := if (num_pre_post =? 0)%Z then 0%Z else (num_pre_post - num_post)%Z in
  set_m_time_array_driver
    (TimeArray.setTimeArrayParams unit num_pre num_post (m_time_array_driver d)) d.

(** ** TRChannelDataSubmit

    The object holds the array it allocated, or NULL.  [None] as the result
    of a function is a failed assertion. *)

Record TRChannelDataSubmit := mkDataSubmit { m_array : option nat }.

Definition TRChannelDataSubmit_new : TRChannelDataSubmit := mkDataSubmit None.

Definition TRChannelDataSubmit_allocateArray (channel_num data_type num_samples : Z)
  (o : TRChannelDataSubmit) (driver : TRBaseDriver)
  : option (bool * TRChannelDataSubmit * TRBaseDriver) :=
  if negb (bool_decide (m_array o = None)) then None else
  if negb ((0 <=? channel_num)%Z && (channel_num <? m_num_channels driver)%Z)
  then None else
  let '(array, ch_driver) :=
    allocateArray data_type num_samples (m_channels_driver driver) in
  match array with
  | None => Some (false, o, set_m_channels_driver ch_driver driver)
  | Some array =>
      Some (true, mkDataSubmit (Some array), set_m_channels_driver ch_driver driver)
  end.

Definition TRChannelDataSubmit_releaseArray (o : TRChannelDataSubmit)
  (driver : TRBaseDriver) : TRChannelDataSubmit * TRBaseDriver :=
  match m_array o with
  | Some array =>
      (mkDataSubmit None,
       set_m_channels_driver (pool_release array (m_channels_driver driver)) driver)
  | None => (o, driver)
  end.

Definition TRChannelDataSubmit_submit (channel unique_id : Z) (timestamp : float)
  (epics_ts : Z * Z) (compl_cb : option TRArrayCompletionCallback)
  (o : TRChannelDataSubmit) (driver : TRBaseDriver)
  : option (TRChannelDataSubmit * TRBaseDriver) :=
  if negb ((0 <=? channel)%Z && (channel <? m_num_channels driver)%Z) then None else
  match m_array o with
  | None => Some (o, driver)
  | Some array =>
      let o := mkDataSubmit None in
      let ch_driver := m_channels_driver driver in
      let ch_driver :=
        set_pNDArrayPool
          (alter (NDArray_setMeta unique_id timestamp epics_ts) array
             (pNDArrayPool ch_driver)) ch_driver in
      if negb (m_num_channels driver <=? maxAddr ch_driver)%Z then None else
      (* under the lock of the main port *)
      let proceed := m_allowing_data driver in
      let sample_rate := m_rate_for_display driver in
      if proceed then
        ch_driver ← submitArray array channel sample_rate compl_cb ch_driver;
        Some (o, set_m_channels_driver ch_driver driver)
      else
        Some (o, set_m_channels_driver (pool_release array ch_driver) driver)
  end.

(** A use of one TRChannelDataSubmit object by a digitizer driver: a
    sequence of calls, between which the main port may allow or stop
    allowing data. *)
Inductive SubmitOp :=
| OpAllocateArray (channel_num data_type num_samples : Z)
| OpSubmit (channel unique_id : Z) (timestamp : float) (epics_ts : Z * Z)
    (compl_cb : option TRArrayCompletionCallback)
| OpReleaseArray
| OpAllowingData (allowing_data : bool).

(** Runs the calls; the count is the number of successful
    [allocateArray]. *)
Fixpoint runSubmitOps (ops : list SubmitOp) (o : TRChannelDataSubmit)
  (driver : TRBaseDriver) (allocated : nat)
  : option (TRChannelDataSubmit * TRBaseDriver * nat) :=
  match ops with
  | [] => Some (o, driver, allocated)
  | OpAllocateArray channel_num data_type num_samples :: ops =>
      '(ok, o, driver) ←
        TRChannelDataSubmit_allocateArray channel_num data_type num_samples o driver;
      runSubmitOps ops o driver (if ok : bool then S allocated else allocated)
  | OpSubmit channel unique_id timestamp epics_ts compl_cb :: ops =>
      '(o, driver) ←
        TRChannelDataSubmit_submit channel unique_id timestamp epics_ts compl_cb
          o driver;
      runSubmitOps ops o driver allocated
  | OpReleaseArray :: ops =>
      let '(o, driver) := TRChannelDataSubmit_releaseArray o driver in
      runSubmitOps ops o driver allocated
  | OpAllowingData allowing_data :: ops =>
      runSubmitOps ops o (set_m_allowing_data allowing_data driver) allocated
  end.

(** ** The arming sequence

    Everything the read thread and the write handlers do to one another
    goes through the driver object under the port lock.  The run of the
    system therefore is a sequence of critical sections: those of the read
    thread, in program order, and between them the handler calls of other
    threads ([Action]). *)

(** What a run makes visible: the calls of the driver's virtual functions
    with their results, the result of [checkBasicSettings], the arm states
    [setArmState] publishes, and the calls of [startArming] and
    [requestDisarming] with their argument, at the moment they assign
    [m_requested_rearm_state]. *)
Inductive Event :=
| EvWaitForPreconditions (ok : bool)
| EvCheckBasicSettings (ok : bool)
| EvCheckSettings (ok : bool)
| EvStartAcquisition (overflow ok : bool)
| EvReadBurst (ok : bool)
| EvCheckOverflow (ok had_overflow : bool) (num_buffer_bursts : Z)
| EvProcessBurstData (ok : bool)
| EvInterruptReading
| EvStopAcquisition
| EvSetArmState (s : ArmState)
| EvStartArming (requested_arm_state : ArmState)
| EvRequestDisarming (requested_rearm_state : ArmState).

#[export] Instance Event_eq_dec : EqDecision Event.
Proof. solve_decision. Defined.

(** A call into the driver object from outside the read thread: a write
    from the control system, or a call of one of the functions the
    framework offers to the digitizer driver.  Each takes the port lock. *)
Inductive Action :=
| WriteInt32 (reason : nat) (value : Z)
| WriteFloat64 (reason : nat) (value : float)
| RequestDisarmingFromDriver
| SetAchievableSampleRate (value : float)
| PublishBurstMetaInfo (info : TRBurstMetaInfo).

(** [TRArmInfo], which [checkSettings] fills in. *)
Record TRArmInfo := mkArmInfo { rate_for_display : float }.

(** What [checkSettings] may do to the configuration parameters of the
    derived class: [setIrrelevant] and [setSnapshot].  The parameters of the
    base class are private to it. *)
Inductive SnapshotEdit :=
| EditSetIrrelevant (i : nat)
| EditSetSnapshotInt (i : nat) (value : Z)
| EditSetSnapshotDouble (i : nat) (value : float).

Definition base_setIrrelevant (c : TRConfigParamBase) : TRConfigParamBase :=
  match c with
  | ConfigIntInt p => ConfigIntInt (setIrrelevant p)
  | ConfigIntDouble p => ConfigIntDouble (setIrrelevant p)
  | ConfigDoubleDouble p => ConfigDoubleDouble (setIrrelevant p)
  end.

Definition base_setSnapshotInt (value : Z) (c : TRConfigParamBase) : TRConfigParamBase :=
  match c with
  | ConfigIntInt p => ConfigIntInt (setSnapshot value p)
  | ConfigIntDouble p => ConfigIntDouble (setSnapshot value p)
  | ConfigDoubleDouble p => ConfigDoubleDouble p
  end.

Definition base_setSnapshotDouble (value : float) (c : TRConfigParamBase)
  : TRConfigParamBase :=
  match c with
  | ConfigDoubleDouble p => ConfigDoubleDouble (setSnapshot value p)
  | _ => c
  end.

Definition applySnapshotEdit (d : TRBaseDriver) (e : SnapshotEdit) : TRBaseDriver :=
  set_m_derived_config_params
    (match e with
     | EditSetIrrelevant i => alter base_setIrrelevant i (m_derived_config_params d)
     | EditSetSnapshotInt i v =>
         alter (base_setSnapshotInt v) i (m_derived_config_params d)
     | EditSetSnapshotDouble i v =>
         alter (base_setSnapshotDouble v) i (m_derived_config_params d)
     end) d.

(** The virtual functions of TRBaseDriver that a digitizer driver
    implements, over the state [A] of the digitizer and its driver.  Each
    sees the driver object.  [otherThreads] is not a virtual function: it
    gives the handler calls that get the port lock, in order, before the
    read thread gets it. *)
Record DigitizerDriver (A : Type) := mkDigitizerDriver {
  requestedSampleRateChanged : TRBaseDriver -> A -> option float * A;
  waitForPreconditions : TRBaseDriver -> A -> bool * A;
  checkSettings : TRBaseDriver -> A -> bool * TRArmInfo * list SnapshotEdit * A;
  startAcquisition : bool -> TRBaseDriver -> A -> bool * A;
  readBurst : TRBaseDriver -> A -> bool * A;
  checkOverflow : TRBaseDriver -> A -> bool * bool * Z * A;
  processBurstData : TRBaseDriver -> A -> bool * A;
  interruptReading : TRBaseDriver -> A -> A;
  stopAcquisition : TRBaseDriver -> A -> A;
  otherThreads : TRBaseDriver -> A -> list Action * A;
}.

Arguments requestedSampleRateChanged {A}.
Arguments waitForPreconditions {A}.
Arguments checkSettings {A}.
Arguments startAcquisition {A}.
Arguments readBurst {A}.
Arguments checkOverflow {A}.
Arguments processBurstData {A}.
Arguments interruptReading {A}.
Arguments stopAcquisition {A}.
Arguments otherThreads {A}.

(** The labels of [readThreadIteration]. *)
Inductive Label := error | stopped.

(** Why a run does not go on: the thread waits for an event nobody will
    signal, an [assert] failed, or the model ran out of fuel. *)
Inductive Halt := Blocked | AssertFailed | OutOfFuel.

Inductive Res (X : Type) :=
| Ok (x : X)
| Goto (l : Label)
| Stop (h : Halt).

Arguments Ok {X}.
Arguments Goto {X}.
Arguments Stop {X}.

Section ArmingSequence.

Context {A : Type}.
Variable digitizer : DigitizerDriver A.

(** The state of a run: the driver object, the digitizer, the events so far
    (oldest first), the states of the driver object at the moments the port
    lock was free (oldest first), and the local [need_stop_acquisition] of
    [readThreadIteration], which outlives its gotos. *)
Record Sys := mkSys {
  drv : TRBaseDriver;
  ext : A;
  log : list Event;
  observed : list TRBaseDriver;
  need_stop_acquisition : bool;
}.

Definition M (X : Type) : Type := Sys -> Res X * Sys.

#[export] Instance M_ret : MRet M := fun X x s => (Ok x, s).

#[export] Instance M_bind : MBind M := fun X Y k m s =>
  match m s with
  | (Ok x, s') => k x s'
  | (Goto l, s') => (Goto l, s')
  | (Stop h, s') => (Stop h, s')
  end.

Definition goto {X} (l : Label) : M X := fun s => (Goto l, s).
Definition halt {X} (h : Halt) : M X := fun s => (Stop h, s).
Definition assert (b : bool) : M unit := if b then mret () else halt AssertFailed.

(** The label a block jumps to, if it does. *)
Definition catch (m : M Empty_set) : M Label := fun s =>
  match m s with
  | (Ok x, _) => match x return Res Label * Sys with end
  | (Goto l, s') => (Ok l, s')
  | (Stop h, s') => (Stop h, s')
  end.

Definition gets {X} (f : TRBaseDriver -> X) : M X := fun s => (Ok (f (drv s)), s).

Definition modify (f : TRBaseDriver -> TRBaseDriver) : M unit := fun s =>
  (Ok (), mkSys (f (drv s)) (ext s) (log s) (observed s) (need_stop_acquisition s)).

(** A function of the driver object that returns a result. *)
Definition state {X} (f : TRBaseDriver -> X * TRBaseDriver) : M X := fun s =>
  let '(x, d) := f (drv s) in
  (Ok x, mkSys d (ext s) (log s) (observed s) (need_stop_acquisition s)).

Definition emit (e : Event) : M unit := fun s =>
  (Ok (), mkSys (drv s) (ext s) (log s ++ [e]) (observed s) (need_stop_acquisition s)).

(** A call of a virtual function of the digitizer driver. *)
Definition call {X} (f : TRBaseDriver -> A -> X * A) : M X := fun s =>
  let '(x, a) := f (drv s) (ext s) in
  (Ok x, mkSys (drv s) a (log s) (observed s) (need_stop_acquisition s)).

Definition observe : M unit := fun s =>
  (Ok (), mkSys (drv s) (ext s) (log s) (observed s ++ [drv s]) (need_stop_acquisition s)).

Definition set_need_stop_acquisition (b : bool) : M unit := fun s =>
  (Ok (), mkSys (drv s) (ext s) (log s) (observed s) b).

Definition get_need_stop_acquisition : M bool := fun s =>
  (Ok (need_stop_acquisition s), s).

(** *** The write handlers *)

Definition setArmState (armState : ArmState) : M unit :=
  modify (set_m_arm_state armState);;
  modify (fun d =>
    set_params (setIntegerParam ARM_STATE (ArmState_to_int armState) (params d)) d);;
  emit (EvSetArmState armState).

Definition startArming (requested_arm_state : ArmState) : M unit :=
  assert (ArmState_eqb requested_arm_state ArmStatePostTrigger
          || ArmState_eqb requested_arm_state ArmStatePrePostTrigger);;
  arm_state ← gets m_arm_state;
  assert (ArmState_eqb arm_state ArmStateDisarm);;
  init_completed ← gets m_init_completed;
  assert init_completed;;
  setArmState ArmStateBusy;;
  modify (set_m_requested_arm_state requested_arm_state);;
  modify (set_m_disarm_requested false);;
  emit (EvStartArming requested_arm_state);;
  modify (set_m_requested_rearm_state ArmStateDisarm);;
  modify (set_m_in_read_loop false);;
  modify (set_m_start_arming_event true).

Definition requestDisarming (requested_rearm_state : ArmState) : M unit :=
  arm_state ← gets m_arm_state;
  assert (negb (ArmState_eqb arm_state ArmStateDisarm));;
  disarm_requested ← gets m_disarm_requested;
  (if negb disarm_requested then
     modify (set_m_disarm_requested true);;
     modify (set_m_allowing_data false);;
     setArmState ArmStateBusy;;
     modify (set_m_disarm_requested_event true);;
     in_read_loop ← gets m_in_read_loop;
     if in_read_loop : bool
     then call (fun d a => ((), interruptReading digitizer d a));;
          emit EvInterruptReading
     else mret ()
   else mret ());;
  emit (EvRequestDisarming requested_rearm_state);;
  modify (set_m_requested_rearm_state requested_rearm_state).

Definition handleArmRequest (armRequest : Z) : M asynStatus :=
  if (negb (armRequest =? ArmState_to_int ArmStateDisarm)%Z
      && negb (armRequest =? ArmState_to_int ArmStatePostTrigger)%Z
      && negb (armRequest =? ArmState_to_int ArmStatePrePostTrigger)%Z)
  then mret asynError
  else
    arm_state ← gets m_arm_state;
    (if ArmState_eqb arm_state ArmStateDisarm then
       if negb (armRequest =? ArmState_to_int ArmStateDisarm)%Z
       then startArming (ArmState_of_int armRequest)
       else mret ()
     else requestDisarming (ArmState_of_int armRequest));;
    mret asynSuccess.

(** [asynPortDriver::writeInt32] and [asynPortDriver::writeFloat64] of the
    asyn library: store the value in the parameter library and do the
    parameter callbacks, whose status they return. *)
Definition asynPortDriver_writeInt32 (reason : nat) (value : Z) : M asynStatus :=
  modify (fun d => set_params (setIntegerParam reason value (params d)) d);;
  mret asynSuccess.

Definition asynPortDriver_writeFloat64 (reason : nat) (value : float) : M asynStatus :=
  modify (fun d => set_params (setDoubleParam reason value (params d)) d);;
  mret asynSuccess.

Definition writeInt32 (reason : nat) (value : Z) : M asynStatus :=
  if Nat.eqb reason ARM_REQUEST then
    asynPortDriver_writeInt32 reason value;;
    handleArmRequest value
  else
    ok ← gets (checkProtectedParamWrite reason);
    if negb ok then mret asynError
    else asynPortDriver_writeInt32 reason value.

Definition writeFloat64 (reason : nat) (value : float) : M asynStatus :=
  desired ← gets (fun d => m_desired_param (m_param_requested_sample_rate d));
  if Nat.eqb reason desired then
    asynPortDriver_writeFloat64 reason value;;
    achievable ← call (requestedSampleRateChanged digitizer);
    match achievable : option float with
    | Some rate => modify (setAchievableSampleRate rate)
    | None => mret ()
    end;;
    mret asynSuccess
  else
    ok ← gets (checkProtectedParamWrite reason);
    if negb ok then mret asynError
    else asynPortDriver_writeFloat64 reason value.

Definition requestDisarmingFromDriver : M unit :=
  arm_state ← gets m_arm_state;
  if negb (ArmState_eqb arm_state ArmStateDisarm)
  then requestDisarming ArmStateDisarm
  else mret ().

(** One handler call, from taking the port lock to releasing it. *)
Definition runAction (act : Action) : M unit :=
  match act with
  | WriteInt32 reason value => writeInt32 reason value;; mret ()
  | WriteFloat64 reason value => writeFloat64 reason value;; mret ()
  | RequestDisarmingFromDriver => requestDisarmingFromDriver
  | SetAchievableSampleRate value => modify (setAchievableSampleRate value)
  | PublishBurstMetaInfo info => modify (publishBurstMetaInfo info)
  end;;
  observe.

Fixpoint runActions (acts : list Action) : M unit :=
  match acts with
  | [] => mret ()
  | act :: acts => runAction act;; runActions acts
  end.

(** *** The port lock, as the read thread takes and releases it *)

(** [lock()]: the handler calls that were waiting for the lock, or get it
    first, run before the read thread goes on. *)
Definition lock : M unit :=
  acts ← call (otherThreads digitizer);
  runActions acts.

Definition unlock : M unit := observe.

(** [epicsEvent::wait] on an event: once the other threads have run, the
    event is signaled, or the thread waits for ever.  The wait consumes the
    signal. *)
Definition waitEvent (get : TRBaseDriver -> bool)
  (set : bool -> TRBaseDriver -> TRBaseDriver) : M unit :=
  acts ← call (otherThreads digitizer);
  runActions acts;;
  signaled ← gets get;
  if signaled : bool then modify (set false) else halt Blocked.

Definition waitUntilDisarming : M unit :=
  waitEvent m_disarm_requested_event set_m_disarm_requested_event;;
  modify (set_m_disarm_requested_event true).

Definition checkDisarmRequestedUnlocked : M bool :=
  lock;;
  stop_requested ← gets m_disarm_requested;
  unlock;;
  mret stop_requested.

(** [maybeSleepForTesting] reads SLEEP_AFTER_BURST under the lock and
    sleeps; only the critical section is modelled. *)
Definition maybeSleepForTesting : M unit :=
  lock;;
  unlock.

(** *** The read thread *)

(** The first part of the arming, up to the overflow recovery loop: it
    returns the initial [remainingBursts] with the lock held, or jumps to
    [error] with the lock released. *)
Definition prepareArming : M Z :=
  lock;;
  (* waitForPreconditions may release the lock and take it again *)
  ok ← call (waitForPreconditions digitizer);
  emit (EvWaitForPreconditions ok);;
  unlock;;
  lock;;
  if negb ok then unlock;; goto error else
  modify snapshotConfigParams;;
  ok ← state checkBasicSettings;
  emit (EvCheckBasicSettings ok);;
  if negb ok then unlock;; goto error else
  '(ok, arm_info, edits) ← call (checkSettings digitizer);
  emit (EvCheckSettings ok);;
  modify (fun d => foldl applySnapshotEdit d edits);;
  if negb ok then unlock;; goto error else
  if PrimFloat.is_nan (rate_for_display arm_info) then unlock;; goto error else
  modify (set_m_rate_for_display (rate_for_display arm_info));;
  modify setEffectiveParams;;
  modify setupTimeArray;;
  modify (fun d => set_m_channels_driver (resetArrays (m_channels_driver d)) d);;
  remainingBursts ← gets (fun d => getSnapshot (m_param_num_bursts d));
  mret (if (remainingBursts =? 0)%Z then (-1)%Z else remainingBursts).

(** The main burst reading loop, [while (currentRemBursts != 0)], entered
    with the lock released.  It ends with the values of [overflow] and
    [remainingBursts], or jumps. *)
Fixpoint burstLoop (fuel : nat) (overflow : bool)
  (currentRemBursts remainingBursts : Z) {struct fuel} : M (bool * Z) :=
  if (currentRemBursts =? 0)%Z then mret (overflow, remainingBursts) else
  match fuel with
  | O => halt OutOfFuel
  | S fuel =>
      ok ← call (readBurst digitizer);
      emit (EvReadBurst ok);;
      if negb ok then goto error else
      disarm_requested ← checkDisarmRequestedUnlocked;
      if disarm_requested : bool then goto stopped else
      '(overflow, currentRemBursts) ←
        (if negb overflow then
           '(ok, overflow_detected, num_buffer_bursts) ←
             call (checkOverflow digitizer);
           emit (EvCheckOverflow ok overflow_detected num_buffer_bursts);;
           if negb ok then goto error else
           if overflow_detected : bool then
             assert (0 <? num_buffer_bursts)%Z;;
             mret (true,
                   if (currentRemBursts <? 0)%Z then num_buffer_bursts
                   else Z.min currentRemBursts num_buffer_bursts)
           else mret (overflow, currentRemBursts)
         else mret (overflow, currentRemBursts));
      ok ← call (processBurstData digitizer);
      emit (EvProcessBurstData ok);;
      if negb ok then goto error else
      let currentRemBursts :=
        if (0 <? currentRemBursts)%Z then (currentRemBursts - 1)%Z
        else currentRemBursts in
      let remainingBursts :=
        if (0 <? remainingBursts)%Z then (remainingBursts - 1)%Z
        else remainingBursts in
      maybeSleepForTesting;;
      burstLoop fuel overflow currentRemBursts remainingBursts
  end.

(** The overflow recovery loop, [while (true)], entered with the lock held.
    It only ends by a jump.  [burstFuel] bounds each run of the burst
    loop. *)
Fixpoint overflowLoop (fuel burstFuel : nat) (overflow : bool)
  (remainingBursts : Z) {struct fuel} : M Empty_set :=
  match fuel with
  | O => halt OutOfFuel
  | S fuel =>
      disarm_requested ← gets m_disarm_requested;
      if disarm_requested : bool then unlock;; goto stopped else
      modify (set_m_allowing_data true);;
      unlock;;
      set_need_stop_acquisition true;;
      ok ← call (startAcquisition digitizer overflow);
      emit (EvStartAcquisition overflow ok);;
      if negb ok then goto error else
      lock;;
      disarm_requested ← gets m_disarm_requested;
      if disarm_requested : bool then unlock;; goto stopped else
      (if negb overflow
       then requested_arm_state ← gets m_requested_arm_state;
            setArmState requested_arm_state
       else mret ());;
      modify (set_m_in_read_loop true);;
      unlock;;
      let currentRemBursts := remainingBursts in
      let overflow := false in
      '(overflow, remainingBursts) ←
        burstLoop burstFuel overflow currentRemBursts remainingBursts;
      if (remainingBursts =? 0)%Z then goto stopped else
      assert overflow;;
      lock;;
      modify (set_m_in_read_loop false);;
      overflowLoop fuel burstFuel overflow remainingBursts
  end.

(** The block of [readThreadIteration] before the labels. *)
Definition armAndRead (fuel : nat) : M Empty_set :=
  remainingBursts ← prepareArming;
  overflowLoop fuel fuel false remainingBursts.

(** The code from the label [error] on, shared by both labels; [had_error]
    is false when control came through [stopped]. *)
Definition disarm (had_error : bool) : M unit :=
  lock;;
  modify (set_m_in_read_loop false);;
  disarm_requested ← gets m_disarm_requested;
  (if had_error && negb disarm_requested then
     setArmState ArmStateError;;
     unlock;;
     waitUntilDisarming;;
     lock
   else mret ());;
  modify (set_m_allowing_data false);;
  need_stop ← get_need_stop_acquisition;
  (if need_stop : bool then
     unlock;;
     call (fun d a => ((), stopAcquisition digitizer d a));;
     emit EvStopAcquisition;;
     lock
   else mret ());;
  modify clearEffectiveParams;;
  (* m_disarm_requested_event.tryWait() *)
  modify (set_m_disarm_requested_event false);;
  requested_rearm_state ← gets m_requested_rearm_state;
  (if negb (ArmState_eqb requested_rearm_state ArmStateDisarm) then
     modify (set_m_arm_state ArmStateDisarm);;
     startArming requested_rearm_state
   else setArmState ArmStateDisarm);;
  unlock.

(** One arming and disarming. *)
Definition readThreadIteration (fuel : nat) : M unit :=
  waitEvent m_start_arming_event set_m_start_arming_event;;
  arm_state ← gets m_arm_state;
  assert (ArmState_eqb arm_state ArmStateBusy);;
  set_need_stop_acquisition false;;
  label ← catch (armAndRead fuel);
  disarm (match label with error => true | stopped => false end).

(** [readThread]: [n] armings, one after the other. *)
Fixpoint readThread (n fuel : nat) : M unit :=
  match n with
  | O => mret ()
  | S n => readThreadIteration fuel;; readThread n fuel
  end.

End ArmingSequence.

Arguments Sys A : clear implicits.
Arguments M A X : clear implicits.

(** ** A digitizer driver that follows a script

    The driver used to run the model on concrete inputs.  Its state counts
    the bursts read and holds, for each time the read thread takes the
    lock, the handler calls that come first.  Every call succeeds;
    [checkSettings] reports the given display rate; [checkOverflow] reports
    an overflow, with the given number of buffered bursts, after the read
    of burst number [overflow_at] and never otherwise. *)

Record Script := mkScript {
  reads : nat;
  calls : list (list Action);
}.

Definition scripted (rate : float) (overflow_at : nat) (num_buffer_bursts : Z)
  : DigitizerDriver Script :=
  mkDigitizerDriver Script
    (fun d a => (Some (getRequestedSampleRate d), a))
    (fun d a => (true, a))
    (fun d a => (true, mkArmInfo rate, [], a))
    (fun overflow d a => (true, a))
    (fun d a => (true, mkScript (S (reads a)) (calls a)))
    (fun d a => (true, Nat.eqb (reads a) overflow_at, num_buffer_bursts, a))
    (fun d a => (true, a))
    (fun d a => a)
    (fun d a => a)
    (fun d a =>
       match calls a with
       | [] => ([], a)
       | acts :: rest => (acts, mkScript (reads a) rest)
       end).

(** A driver object with two channels and no parameters of its own, and the
    indices of two of its parameters. *)
Definition sampleDriver (pre_samples : bool) : TRBaseDriver :=
  construct (mkBaseConfig 2 pre_samples 0) [].

Definition DESIRED_NUM_BURSTS : nat := 8.
Definition EFFECTIVE_NUM_BURSTS : nat := 9.
Definition DESIRED_NUM_POST_SAMPLES : nat := 10.
Definition DESIRED_NUM_PRE_POST_SAMPLES : nat := 12.

(** The start of a run: nothing has happened yet. *)
Definition startOfRun {A} (d : TRBaseDriver) (a : A) : Sys A := mkSys d a [] [] false.

(** A run with a buffer overflow: ten bursts of 100 samples are requested
    and the arming is started; the digitizer reports the overflow at the
    fourth burst, with two bursts left in its buffer. *)
Definition overflowDigitizer : DigitizerDriver Script := scripted 1000 4 2.

Definition overflowRun : Sys Script :=
  startOfRun (sampleDriver false)
    (mkScript 0 [[WriteInt32 DESIRED_NUM_BURSTS 10;
                  WriteInt32 DESIRED_NUM_POST_SAMPLES 100;
                  WriteInt32 ARM_REQUEST 1]]).

(** A run that is re-armed: while the first burst is read, PrePostTrigger,
    Disarm and PrePostTrigger again are written to ARM_REQUEST. *)
Definition rearmDigitizer : DigitizerDriver Script := scripted 1000 9 0.

Definition rearmRun : Sys Script :=
  startOfRun (sampleDriver true)
    (mkScript 0 [[WriteInt32 DESIRED_NUM_BURSTS 2;
                  WriteInt32 DESIRED_NUM_POST_SAMPLES 100;
                  WriteInt32 DESIRED_NUM_PRE_POST_SAMPLES 150;
                  WriteInt32 ARM_REQUEST 1]; []; []; [];
                 [WriteInt32 ARM_REQUEST 2; WriteInt32 ARM_REQUEST 0;
                  WriteInt32 ARM_REQUEST 2]]).

(** The scripted digitizer when no other thread calls a handler, and the
    driver object after a write of PostTrigger to ARM_REQUEST. *)
Definition unattended (rate : float) (overflow_at : nat) (num_buffer_bursts : Z)
  : DigitizerDriver Script :=
  let d := scripted rate overflow_at num_buffer_bursts in
  mkDigitizerDriver Script
    (requestedSampleRateChanged d) (waitForPreconditions d) (checkSettings d)
    (startAcquisition d) (readBurst d) (checkOverflow d) (processBurstData d)
    (interruptReading d) (stopAcquisition d)
    (fun d a => ([], a)).

Definition armedRun : Sys Script :=
  (runAction (unattended 1000 4 2) (WriteInt32 ARM_REQUEST 1)
     (startOfRun (sampleDriver false) (mkScript 0 []))).2.

(** A use of a TRChannelDataSubmit object: a submit before any allocation,
    an array that is submitted, a second submit of it, and an array whose
    submission comes when data is not allowed. *)
Definition sampleSubmitOps : list SubmitOp :=
  [OpSubmit 0 1 0%float (0, 0)%Z None;
   OpAllowingData true;
   OpAllocateArray 0 0 100;
   OpSubmit 0 2 0%float (0, 0)%Z None;
   OpSubmit 0 3 0%float (0, 0)%Z None;
   OpAllowingData false;
   OpAllocateArray 1 0 100;
   OpSubmit 1 4 0%float (0, 0)%Z None].

(** * Properties *)

(** ** Basic settings (C8) *)

Section BasicSettings.

Variable d : TRBaseDriver.

Let num_bursts := m_snapshot_value (m_param_num_bursts d).
Let num_post_samples := m_snapshot_value (m_param_num_post_samples d).
Let num_pre_post_samples := m_snapshot_value (m_param_num_pre_post_samples d).

Lemma ArmState_eqb_eq (a b : ArmState) : ArmState_eqb a b = true <-> a = b.
Proof. destruct a, b; cbn; split; intros; congruence. Qed.

Lemma ArmState_eqb_neq (a b : ArmState) : ArmState_eqb a b = false <-> a <> b.
Proof. destruct a, b; cbn; split; intros; congruence. Qed.

(** C8.  [checkBasicSettings] returns false exactly when the snapshot of
    NUM_BURSTS is negative, or that of NUM_POST_SAMPLES is not positive, or
    PrePostTrigger is requested and pre-samples are not supported or the
    snapshot of NUM_PRE_POST_SAMPLES is not greater than that of
    NUM_POST_SAMPLES.  A rejection changes nothing.  When it accepts a
    request for PrePostTrigger it changes nothing either; when it accepts
    another request it marks NUM_PRE_POST_SAMPLES irrelevant and sets its
    snapshot to 0, and nothing else; and for a request other than
    PrePostTrigger the first two checks are the only ones. *)
Theorem checkBasicSettings_spec :
  ((checkBasicSettings d).1 = false <->
     (num_bursts < 0 \/ num_post_samples <= 0 \/
      (m_requested_arm_state d = ArmStatePrePostTrigger /\
       (m_supports_pre_samples d = false \/
        num_pre_post_samples <= num_post_samples)))%Z) /\
  ((checkBasicSettings d).1 = false -> (checkBasicSettings d).2 = d) /\
  ((checkBasicSettings d).1 = true ->
     m_requested_arm_state d = ArmStatePrePostTrigger ->
     (checkBasicSettings d).2 = d) /\
  ((checkBasicSettings d).1 = true ->
     m_requested_arm_state d <> ArmStatePrePostTrigger ->
     let d' := (checkBasicSettings d).2 in
     m_irrelevant (m_param_num_pre_post_samples d') = true /\
     getSnapshot (m_param_num_pre_post_samples d') = 0%Z /\
     d' = set_m_param_num_pre_post_samples
            (setSnapshot 0%Z (setIrrelevant (m_param_num_pre_post_samples d))) d) /\
  (m_requested_arm_state d <> ArmStatePrePostTrigger ->
     (0 <= num_bursts)%Z -> (0 < num_post_samples)%Z ->
     (checkBasicSettings d).1 = true).
Proof.
  unfold checkBasicSettings, getSnapshot.
  fold num_bursts num_post_samples num_pre_post_samples.
  destruct (Z.ltb_spec num_bursts 0);
    [cbn; repeat split; intros; (done || lia || auto)|].
  destruct (Z.leb_spec num_post_samples 0);
    [cbn; repeat split; intros; (done || lia || auto)|].
  destruct (ArmState_eqb (m_requested_arm_state d) ArmStatePrePostTrigger) eqn:Hreq.
  - apply ArmState_eqb_eq in Hreq.
    destruct (m_supports_pre_samples d) eqn:Hsup; cbn.
    + destruct (Z.leb_spec num_pre_post_samples num_post_samples); cbn;
        repeat split; intros; try done; try lia; auto;
        intuition (try lia; try congruence).
    + repeat split; intros; try done; auto.
  - apply ArmState_eqb_neq in Hreq. cbn.
    repeat split; intros; try done.
    intuition (try lia; try congruence).
Qed.

End BasicSettings.

(** ** The time array (C9) *)

Section TimeArrayRead.

Import TimeArray.

Lemma seqZ_snoc (n : nat) :
  seqZ 0 (Z.of_nat (S n)) = seqZ 0 (Z.of_nat n) ++ [Z.of_nat n].
Proof.
  replace (Z.of_nat (S n)) with (Z.of_nat n + 1)%Z by lia.
  rewrite seqZ_app by lia. reflexivity.
Qed.

(** The loop writes the first [n] elements and no other. *)
Lemma writeArray_lookup (unit : float) (num_pre : Z) (n : nat) (value : list float) :
  (n <= length value)%nat ->
  length (writeArray unit num_pre (Z.of_nat n) value) = length value /\
  (forall i, (i < n)%nat ->
     writeArray unit num_pre (Z.of_nat n) value !! i =
       Some (PrimFloat.mul (double_of_int (Z.of_nat i - num_pre)) unit)) /\
  (forall j, (n <= j)%nat ->
     writeArray unit num_pre (Z.of_nat n) value !! j = value !! j).
Proof.
  unfold writeArray. induction n as [|n IH]; intros Hn.
  - cbn. repeat split; auto. intros i Hi. lia.
  - rewrite seqZ_snoc, foldl_app. cbn [foldl].
    destruct IH as (Hlen & Hin & Hout); [lia|].
    rewrite Nat2Z.id. repeat split.
    + rewrite length_insert. exact Hlen.
    + intros i Hi. destruct (decide (i = n)) as [->|Hne].
      * apply list_lookup_insert_eq. rewrite Hlen. lia.
      * rewrite list_lookup_insert_ne by auto. apply Hin. lia.
    + intros j Hj. rewrite list_lookup_insert_ne by lia. apply Hout. lia.
Qed.

(** C9.  A read of the ARRAY parameter into a buffer of [nElements]
    elements, when the numbers of pre- and post-samples are not negative and
    their sum is an [int], succeeds and returns
    [min (num_pre + num_post) nElements] elements, of which element [i] is
    [(i - num_pre) * unit]; the rest of the buffer is not written. *)
Theorem readFloat64Array_time_array (t : TRTimeArrayDriver) (value : list float)
  (nElements nIn : Z) :
  (0 <= m_num_pre t)%Z ->
  (0 <= m_num_post t)%Z ->
  (m_num_pre t + m_num_post t <= INT_MAX)%Z ->
  nElements = Z.of_nat (length value) ->
  let '(status, value', nIn') := readFloat64Array t ARRAY value nElements nIn in
  status = asynSuccess /\
  nIn' = Z.min (m_num_pre t + m_num_post t) nElements /\
  length value' = length value /\
  (forall i, (0 <= i < nIn')%Z ->
     value' !! Z.to_nat i =
       Some (PrimFloat.mul (double_of_int (i - m_num_pre t)) (m_unit t))) /\
  (forall j, (Z.to_nat nIn' <= j)%nat -> value' !! j = value !! j).
Proof.
  intros Hpre Hpost Hsum HnE. unfold readFloat64Array. cbn [Nat.eqb ARRAY].
  destruct (Z.ltb_spec (m_num_pre t) 0); [lia|].
  destruct (Z.ltb_spec (m_num_post t) 0); [lia|].
  destruct (Z.ltb_spec (INT_MAX - m_num_pre t) (m_num_post t)); [lia|].
  cbn [orb].
  set (count := if (nElements <? m_num_pre t + m_num_post t)%Z
                then nElements else (m_num_pre t + m_num_post t)%Z).
  assert (Hcount : count = Z.min (m_num_pre t + m_num_post t) nElements).
  { unfold count. destruct (Z.ltb_spec nElements (m_num_pre t + m_num_post t)); lia. }
  assert (Hle : (Z.to_nat count <= length value)%nat) by lia.
  destruct (writeArray_lookup (m_unit t) (m_num_pre t) (Z.to_nat count) value Hle)
    as (Hlen & Hin & Hout).
  rewrite Z2Nat.id in Hlen, Hin, Hout by lia.
  repeat split; auto.
  intros i Hi. rewrite Hin by lia. rewrite Z2Nat.id by lia. reflexivity.
Qed.

(** The theorem at a buffer of three elements, one pre-sample and four
    post-samples. *)
Lemma readFloat64Array_time_array_witness :
  let t := mkTimeArray (ta_params new) 0.5%float 1 4 in
  let '(status, value', nIn') :=
    readFloat64Array t ARRAY [0%float; 0%float; 0%float] 3 0 in
  status = asynSuccess /\
  nIn' = Z.min (m_num_pre t + m_num_post t) 3 /\
  length value' = 3%nat /\
  (forall i, (0 <= i < nIn')%Z ->
     value' !! Z.to_nat i =
       Some (PrimFloat.mul (double_of_int (i - m_num_pre t)) (m_unit t))) /\
  (forall j, (Z.to_nat nIn' <= j)%nat ->
     value' !! j = [0%float; 0%float; 0%float] !! j).
Proof.
  intros t.
  apply (readFloat64Array_time_array t [0%float; 0%float; 0%float] 3 0);
    cbn; unfold INT_MAX; (lia || reflexivity).
Defined.

Example readFloat64Array_example :
  readFloat64Array (mkTimeArray (ta_params new) 0.5%float 1 4) ARRAY
    [0%float; 0%float; 0%float] 3 0
  = (asynSuccess, [(-0.5)%float; 0%float; 0.5%float], 3%Z).
Proof. vm_compute. reflexivity. Qed.

End TimeArrayRead.

(** ** Reasoning about runs: weakest preconditions *)

Section WeakestPrecondition.

Context {A : Type}.

(** [wp m Q E s]: the run of [m] from [s] ends normally in a state and with
    a result that satisfy [Q], or jumps or halts in a state that satisfies
    [E]. *)
Definition wp {X} (m : M A X) (Q : X -> Sys A -> Prop) (E : Sys A -> Prop)
  (s : Sys A) : Prop :=
  match m s with
  | (Ok x, s') => Q x s'
  | (_, s') => E s'
  end.

Lemma wp_bind {X Y} (m : M A X) (k : X -> M A Y) Q E s :
  wp m (fun x => wp (k x) Q E) E s -> wp (m ≫= k) Q E s.
Proof.
  unfold wp, mbind, M_bind. destruct (m s) as [[x|l|h] s']; auto.
Qed.

Lemma wp_mono {X} (m : M A X) (Q Q' : X -> Sys A -> Prop) (E E' : Sys A -> Prop) s :
  wp m Q E s ->
  (forall x s', Q x s' -> Q' x s') ->
  (forall s', E s' -> E' s') ->
  wp m Q' E' s.
Proof.
  unfold wp. destruct (m s) as [[x|l|h] s']; auto.
Qed.

Lemma wp_ret {X} (x : X) (Q : X -> Sys A -> Prop) E s : Q x s -> wp (mret x) Q E s.
Proof. auto. Qed.

Lemma wp_goto {X} l (Q : X -> Sys A -> Prop) (E : Sys A -> Prop) s :
  E s -> wp (goto l) Q E s.
Proof. auto. Qed.

Lemma wp_halt {X} h (Q : X -> Sys A -> Prop) (E : Sys A -> Prop) s :
  E s -> wp (halt h) Q E s.
Proof. auto. Qed.

Lemma wp_assert b (Q : unit -> Sys A -> Prop) (E : Sys A -> Prop) s :
  E s -> (b = true -> Q () s) -> wp (assert b) Q E s.
Proof. destruct b; cbn; auto. Qed.

Lemma wp_catch (m : M A Empty_set) (Q : Label -> Sys A -> Prop) E s :
  wp m (fun _ _ => False) (fun s' => E s' /\ forall l, Q l s') s ->
  wp (catch m) Q E s.
Proof.
  unfold wp, catch. destruct (m s) as [[x|l|h] s']; [done| |]; intros [? ?]; auto.
Qed.

(** What a run from [s] returns and where it ends. *)
Lemma wp_run {X} (m : M A X) Q E s :
  wp m Q E s ->
  match (m s).1 with
  | Ok x => Q x (m s).2
  | _ => E (m s).2
  end.
Proof. unfold wp. destruct (m s) as [[x|l|h] s']; auto. Qed.

End WeakestPrecondition.

(** Runs a piece of straight-line code of the model by unfolding the
    operations of the monad. *)
Ltac run_monad :=
  cbv [mbind mret M_bind M_ret modify gets state emit call observe goto halt
       assert set_need_stop_acquisition get_need_stop_acquisition];
  cbn [fst snd drv ext log observed need_stop_acquisition negb andb orb].

(** ** Writes to ARM_REQUEST (C5) *)

Section ArmRequest.

Context {A : Type} (digitizer : DigitizerDriver A).

(** C5, as the code has it.  A write to ARM_REQUEST of a value other than
    0, 1 and 2 returns an error status and changes nothing in the driver
    but the ARM_REQUEST parameter, which keeps the written value: the arm
    state stays, no arming or disarming starts (no flag, event or call
    changes), nothing is published. *)
Theorem writeInt32_invalid_arm_request (s : Sys A) (value : Z) :
  value <> 0%Z -> value <> 1%Z -> value <> 2%Z ->
  let r := writeInt32 digitizer ARM_REQUEST value s in
  r.1 = Ok asynError /\
  r.2 = mkSys
          (set_params (setIntegerParam ARM_REQUEST value (params (drv s))) (drv s))
          (ext s) (log s) (observed s) (need_stop_acquisition s) /\
  m_arm_state (drv r.2) = m_arm_state (drv s) /\
  m_disarm_requested (drv r.2) = m_disarm_requested (drv s) /\
  m_requested_rearm_state (drv r.2) = m_requested_rearm_state (drv s) /\
  m_start_arming_event (drv r.2) = m_start_arming_event (drv s) /\
  m_disarm_requested_event (drv r.2) = m_disarm_requested_event (drv s) /\
  (forall v, params (drv s) !! ARM_REQUEST = Some (ParamInt32 v) ->
     params (drv r.2) !! ARM_REQUEST = Some (ParamInt32 value)).
Proof.
  intros H0 H1 H2. cbn zeta.
  unfold writeInt32, asynPortDriver_writeInt32, handleArmRequest.
  cbn [Nat.eqb ARM_REQUEST ArmState_to_int].
  destruct (Z.eqb_spec value 0); [done|].
  destruct (Z.eqb_spec value 1); [done|].
  destruct (Z.eqb_spec value 2); [done|].
  run_monad. repeat split; try reflexivity.
  intros v Hv. unfold setIntegerParam, ARM_REQUEST in *. rewrite Hv. cbn.
  apply list_lookup_insert_eq. by eapply lookup_lt_Some.
Qed.

End ArmRequest.

(** The theorem at the write of 7 to a driver that has just been
    constructed. *)
Lemma writeInt32_invalid_arm_request_witness :
  let s := startOfRun (sampleDriver false) (mkScript 0 []) in
  let r := writeInt32 (scripted 1000 0 0) ARM_REQUEST 7 s in
  r.1 = Ok asynError /\
  r.2 = mkSys
          (set_params (setIntegerParam ARM_REQUEST 7 (params (drv s))) (drv s))
          (ext s) (log s) (observed s) (need_stop_acquisition s) /\
  m_arm_state (drv r.2) = m_arm_state (drv s) /\
  m_disarm_requested (drv r.2) = m_disarm_requested (drv s) /\
  m_requested_rearm_state (drv r.2) = m_requested_rearm_state (drv s) /\
  m_start_arming_event (drv r.2) = m_start_arming_event (drv s) /\
  m_disarm_requested_event (drv r.2) = m_disarm_requested_event (drv s) /\
  (forall v, params (drv s) !! ARM_REQUEST = Some (ParamInt32 v) ->
     params (drv r.2) !! ARM_REQUEST = Some (ParamInt32 7)).
Proof.
  intros s.
  apply (writeInt32_invalid_arm_request (scripted 1000 0 0) s 7); lia.
Defined.

(** C5 as the specification states it fails: after the rejected write of 7
    the ARM_REQUEST parameter does not have its previous value 0 but 7. *)
Lemma writeInt32_invalid_arm_request_not_reverted :
  let s := startOfRun (sampleDriver false) (mkScript 0 []) in
  let r := writeInt32 (scripted 1000 0 0) ARM_REQUEST 7 s in
  r.1 = Ok asynError /\
  params (drv s) !! ARM_REQUEST = Some (ParamInt32 0) /\
  params (drv r.2) !! ARM_REQUEST = Some (ParamInt32 7) /\
  params (drv r.2) !! ARM_REQUEST <> params (drv s) !! ARM_REQUEST.
Proof. vm_compute. repeat split; congruence. Qed.

(** ** The calls of one arming, in order (C2, C3, C6)

    The order in which one iteration of the read thread calls the virtual
    functions is stated as an automaton that reads the events of the
    iteration and refuses a sequence the code cannot produce.  The
    automaton keeps: whether [startAcquisition] and [stopAcquisition] were
    called, whether Disarm was published, whether a check before the
    acquisition failed, after an overflow was detected the number of bursts
    that may still be read before the restart, the last call of a virtual
    function by the read thread, and the pending re-arm target. *)

Record Mon := mkMon {
  mon_started : bool;
  mon_stopped : bool;
  mon_published : bool;
  mon_failed : bool;
  mon_drain : option Z;
  mon_last_call : option Event;
  mon_pending : ArmState;
}.

Definition mon_init (pending : ArmState) : Mon :=
  mkMon false false false false None None pending.

Definition mon_call (e : Event) (m : Mon) : Mon :=
  mkMon (mon_started m) (mon_stopped m) (mon_published m) (mon_failed m)
    (mon_drain m) (Some e) (mon_pending m).

Definition mon_fail (ok : bool) (m : Mon) : Mon :=
  mkMon (mon_started m) (mon_stopped m) (mon_published m)
    (mon_failed m || negb ok) (mon_drain m) (mon_last_call m) (mon_pending m).

Definition mon_set_drain (drain : option Z) (m : Mon) : Mon :=
  mkMon (mon_started m) (mon_stopped m) (mon_published m) (mon_failed m)
    drain (mon_last_call m) (mon_pending m).

Definition mon_set_pending (pending : ArmState) (m : Mon) : Mon :=
  mkMon (mon_started m) (mon_stopped m) (mon_published m) (mon_failed m)
    (mon_drain m) (mon_last_call m) pending.

(** The calls after which the burst loop reads a burst, checks for an
    overflow and processes a burst. *)
Definition canRead (e : Event) : bool :=
  match e with
  | EvStartAcquisition _ true | EvProcessBurstData true => true
  | _ => false
  end.

Definition isReadOk (e : Event) : bool :=
  match e with EvReadBurst true => true | _ => false end.

Definition canProcess (e : Event) : bool :=
  match e with
  | EvReadBurst true | EvCheckOverflow true _ _ => true
  | _ => false
  end.

Definition lastIs (f : Event -> bool) (m : Mon) : bool :=
  from_option f false (mon_last_call m).

(** A burst is read after a successful start or the processing of the burst
    before, and after an overflow only while buffered bursts are left. *)
Definition readGuard (m : Mon) : bool :=
  lastIs canRead m &&
  match mon_drain m with
  | Some budget => (0 <? budget)%Z
  | None => true
  end.

Definition mon_step (m : Mon) (e : Event) : option Mon :=
  match e with
  | EvWaitForPreconditions ok | EvCheckSettings ok =>
      if mon_started m || mon_stopped m then None
      else Some (mon_call e (mon_fail ok m))
  | EvCheckBasicSettings ok =>
      if mon_started m || mon_stopped m then None else Some (mon_fail ok m)
  | EvStartAcquisition overflow ok =>
      if mon_stopped m || mon_published m || mon_failed m then None else
      match mon_drain m with
      | None =>
          if overflow || mon_started m then None
          else Some (mon_call e
                       (mkMon true false (mon_published m) (mon_failed m) None
                          (mon_last_call m) (mon_pending m)))
      | Some budget =>
          if overflow && (budget =? 0)%Z
             && bool_decide (mon_last_call m = Some (EvProcessBurstData true))
          then Some (mon_call e
                       (mkMon true false (mon_published m) (mon_failed m) None
                          (mon_last_call m) (mon_pending m)))
          else None
      end
  | EvReadBurst ok =>
      if negb (mon_started m) || mon_stopped m || negb (readGuard m) then None
      else Some (mon_call e
                   (mon_set_drain ((fun budget => budget - 1)%Z <$> mon_drain m) m))
  | EvCheckOverflow ok had_overflow num_buffer_bursts =>
      if negb (mon_started m) || mon_stopped m
         || negb (bool_decide (mon_drain m = None))
         || negb (lastIs isReadOk m)
      then None
      else Some (mon_call e
                   (mon_set_drain
                      (if ok && had_overflow then Some (num_buffer_bursts - 1)%Z
                       else None) m))
  | EvProcessBurstData ok =>
      if negb (mon_started m) || mon_stopped m || negb (lastIs canProcess m)
      then None
      else Some (mon_call e m)
  | EvInterruptReading => Some m
  | EvStopAcquisition =>
      if negb (mon_started m) || mon_stopped m || mon_published m then None
      else Some (mon_call e
                   (mkMon (mon_started m) true (mon_published m) (mon_failed m)
                      (mon_drain m) (mon_last_call m) (mon_pending m)))
  | EvSetArmState s =>
      if ArmState_eqb s ArmStateDisarm then
        if mon_started m && negb (mon_stopped m) then None
        else Some (mkMon (mon_started m) (mon_stopped m) true (mon_failed m)
                     (mon_drain m) (mon_last_call m) (mon_pending m))
      else Some m
  | EvStartArming _ => Some (mon_set_pending ArmStateDisarm m)
  | EvRequestDisarming requested_rearm_state =>
      Some (mon_set_pending requested_rearm_state m)
  end.

Fixpoint mon_run (m : Mon) (evs : list Event) : option Mon :=
  match evs with
  | [] => Some m
  | e :: evs => m' ← mon_step m e; mon_run m' evs
  end.

(** The same notions on a list of events. *)

Definition isStart (e : Event) : bool :=
  match e with EvStartAcquisition _ _ => true | _ => false end.

Definition isRead (e : Event) : bool :=
  match e with EvReadBurst _ => true | _ => false end.

Definition isPrecheckFailure (e : Event) : bool :=
  match e with
  | EvWaitForPreconditions false | EvCheckBasicSettings false
  | EvCheckSettings false => true
  | _ => false
  end.



Definition countReads (evs : list Event) : Z :=
  Z.of_nat (length (filter (fun e => isRead e = true) evs)).

(** The pending re-arm target after the events: [startArming] resets it to
    Disarm and every call of [requestDisarming] overwrites it. *)
Definition pendingRearm (pending : ArmState) (evs : list Event) : ArmState :=
  foldl (fun p e =>
           match e with
           | EvStartArming _ => ArmStateDisarm
           | EvRequestDisarming requested_rearm_state => requested_rearm_state
           | _ => p
           end) pending evs.

Lemma mon_run_app (m : Mon) (evs1 evs2 : list Event) :
  mon_run m (evs1 ++ evs2) = m' ← mon_run m evs1; mon_run m' evs2.
Proof.
  revert m. induction evs1 as [|e evs1 IH]; intros m; cbn; [done|].
  destruct (mon_step m e); cbn; auto.
Qed.

Lemma mon_run_cons (m : Mon) (e : Event) (evs : list Event) :
  mon_run m (e :: evs) = m' ← mon_step m e; mon_run m' evs.
Proof. reflexivity. Qed.

Lemma mon_step_pending (m m' : Mon) (e : Event) :
  mon_step m e = Some m' ->
  mon_pending m' = pendingRearm (mon_pending m) [e].
Proof.
  destruct e; cbn;
    repeat (match goal with |- context [if ?c then _ else _] => destruct c end; cbn);
    try discriminate; try (intros [= <-]; reflexivity).
  all: destruct (mon_drain m); cbn;
    repeat (match goal with |- context [if ?c then _ else _] => destruct c end; cbn);
    try discriminate; intros [= <-]; reflexivity.
Qed.

Lemma mon_run_pending (evs : list Event) :
  forall m m', mon_run m evs = Some m' ->
    mon_pending m' = pendingRearm (mon_pending m) evs.
Proof.
  induction evs as [|e evs IH]; intros m m'; cbn; [by intros [= <-]|].
  destruct (mon_step m e) as [m1|] eqn:He; cbn; [|done].
  intros Hrun. rewrite (IH _ _ Hrun). by rewrite (mon_step_pending _ _ _ He).
Qed.

(** The requests that start an arming. *)
Definition validRequest (s : ArmState) : Prop :=
  s = ArmStatePostTrigger \/ s = ArmStatePrePostTrigger.

(** While the arm state is not Disarm, the requested arm state is one of
    the two armed states: [startArming] asserts it. *)
Definition Basic (d : TRBaseDriver) : Prop :=
  m_arm_state d <> ArmStateDisarm -> validRequest (m_requested_arm_state d).

Section Trace.

Context {A : Type} (digitizer : DigitizerDriver A).

(** [TrAt s0 m s]: the events since [s0] are accepted and leave the
    automaton in [m], whose pending re-arm target is that of the driver. *)
Definition TrAt (s0 : Sys A) (m : Mon) (s : Sys A) : Prop :=
  exists evs,
    log s = log s0 ++ evs /\
    mon_run (mon_init (m_requested_rearm_state (drv s0))) evs = Some m /\
    m_requested_rearm_state (drv s) = mon_pending m /\
    Basic (drv s).

Definition Armed (s : Sys A) : Prop := m_arm_state (drv s) <> ArmStateDisarm.

Lemma TrAt_refl (s0 : Sys A) :
  Basic (drv s0) -> TrAt s0 (mon_init (m_requested_rearm_state (drv s0))) s0.
Proof. exists []. rewrite app_nil_r. auto. Qed.

Lemma TrAt_events (s0 : Sys A) m m' s s' es :
  TrAt s0 m s ->
  log s' = log s ++ es ->
  mon_run m es = Some m' ->
  m_requested_rearm_state (drv s') = mon_pending m' ->
  Basic (drv s') ->
  TrAt s0 m' s'.
Proof.
  intros (evs & Hlog & Hrun & Hp & Hb) Hlog' Hes Hp' Hb'.
  exists (evs ++ es). rewrite Hlog', Hlog, app_assoc. split; [done|].
  rewrite mon_run_app, Hrun. cbn. auto.
Qed.

(** The same state of the automaton after a step that logs nothing and
    leaves the arm state and the requested states alone. *)
Lemma TrAt_frame (s0 : Sys A) m s s' :
  TrAt s0 m s ->
  log s' = log s ->
  m_requested_rearm_state (drv s') = m_requested_rearm_state (drv s) ->
  m_arm_state (drv s') = m_arm_state (drv s) ->
  m_requested_arm_state (drv s') = m_requested_arm_state (drv s) ->
  TrAt s0 m s'.
Proof.
  intros H Hlog Hp Ha Hr. eapply (TrAt_events s0 m m s s' []); eauto.
  - by rewrite app_nil_r.
  - destruct H as (? & ? & ? & ? & ?). congruence.
  - destruct H as (? & ? & ? & ? & Hb). unfold Basic in *. by rewrite Ha, Hr.
Qed.

(** A piece of code is quiet when the automaton only sees the pending
    re-arm target change, [need_stop_acquisition] stays and the arm state
    does not become Disarm: it runs write handlers and nothing else that
    matters to the order of the calls. *)
Definition Quiet {X} (c : M A X) : Prop :=
  forall s0 st sp pb fl dr lc pd s,
    TrAt s0 (mkMon st sp pb fl dr lc pd) s ->
    let P := fun s' =>
      (exists pd', TrAt s0 (mkMon st sp pb fl dr lc pd') s') /\
      need_stop_acquisition s' = need_stop_acquisition s /\
      (Armed s -> Armed s') in
    wp c (fun _ => P) P s.

Lemma Quiet_ret {X} (x : X) : Quiet (mret x : M A X).
Proof. intros s0 st sp pb fl dr lc pd s H. cbn. eauto. Qed.

Lemma Quiet_bind {X Y} (c : M A X) (k : X -> M A Y) :
  Quiet c -> (forall x, Quiet (k x)) -> Quiet (c ≫= k).
Proof.
  intros Hc Hk s0 st sp pb fl dr lc pd s H. cbn zeta. apply wp_bind.
  eapply wp_mono; [apply (Hc _ _ _ _ _ _ _ _ _ H)| |]; cbn beta.
  - intros x s' ([pd' H'] & Hn & Ha).
    eapply wp_mono; [apply (Hk x _ _ _ _ _ _ _ _ _ H')| |]; cbn beta;
      intros; rewrite <- Hn; intuition auto.
  - auto.
Qed.

Lemma Quiet_halt {X} h : Quiet (halt h : M A X).
Proof. intros s0 st sp pb fl dr lc pd s H. cbn. eauto. Qed.

Lemma Quiet_assert b : Quiet (assert b : M A unit).
Proof. intros s0 st sp pb fl dr lc pd s H. destruct b; cbn; eauto. Qed.

Lemma Quiet_gets {X} (f : TRBaseDriver -> X) : Quiet (gets f : M A X).
Proof. intros s0 st sp pb fl dr lc pd s H. cbn. eauto. Qed.

Lemma Quiet_observe : Quiet (observe : M A unit).
Proof.
  intros s0 st sp pb fl dr lc pd s H. cbn. split; [|done].
  exists pd. eapply TrAt_frame; eauto.
Qed.

Lemma Quiet_call {X} (f : TRBaseDriver -> A -> X * A) : Quiet (call f).
Proof.
  intros s0 st sp pb fl dr lc pd s H. unfold wp, call.
  destruct (f (drv s) (ext s)) as [x a]. split; [|done].
  exists pd. eapply TrAt_frame; eauto.
Qed.

(** A change of the driver object that leaves the arm state and the
    requested states alone. *)
Lemma Quiet_modify (f : TRBaseDriver -> TRBaseDriver) :
  (forall d, m_requested_rearm_state (f d) = m_requested_rearm_state d /\
             m_arm_state (f d) = m_arm_state d /\
             m_requested_arm_state (f d) = m_requested_arm_state d) ->
  Quiet (modify f : M A unit).
Proof.
  intros Hf s0 st sp pb fl dr lc pd s H. cbn.
  destruct (Hf (drv s)) as (Hp & Ha & Hr). split; [|split; [done|]].
  - exists pd. eapply TrAt_frame; eauto.
  - unfold Armed. cbn. by rewrite Ha.
Qed.

Lemma Quiet_emit (e : Event) :
  (forall m, mon_step m e = Some m) -> Quiet (emit e : M A unit).
Proof.
  intros He s0 st sp pb fl dr lc pd s H. cbn. split; [|done].
  exists pd. eapply (TrAt_events _ _ _ _ _ [e]); eauto; cbn.
  - by rewrite He.
  - by destruct H as (? & ? & ? & ? & ?).
  - by destruct H as (? & ? & ? & ? & ?).
Qed.

Lemma Quiet_state {X} (f : TRBaseDriver -> X * TRBaseDriver) :
  (forall d, m_requested_rearm_state (f d).2 = m_requested_rearm_state d /\
             m_arm_state (f d).2 = m_arm_state d /\
             m_requested_arm_state (f d).2 = m_requested_arm_state d) ->
  Quiet (state f : M A X).
Proof.
  intros Hf s0 st sp pb fl dr lc pd s H. unfold wp, state.
  destruct (Hf (drv s)) as (Hp & Ha & Hr).
  destruct (f (drv s)) as [x d]. cbn in *. split; [|split; [done|]].
  - exists pd. eapply TrAt_frame; eauto.
  - unfold Armed. cbn. by rewrite Ha.
Qed.

Lemma validRequest_eqb (r : ArmState) :
  ArmState_eqb r ArmStatePostTrigger || ArmState_eqb r ArmStatePrePostTrigger = true ->
  validRequest r.
Proof. destruct r; cbn; unfold validRequest; intros; auto; discriminate. Qed.

Lemma Quiet_startArming (requested_arm_state : ArmState) :
  Quiet (startArming requested_arm_state : M A unit).
Proof.
  intros s0 st sp pb fl dr lc pd s H. cbn zeta.
  unfold wp, startArming, setArmState. run_monad.
  destruct (_ || _) eqn:Hv; cbn; [|eauto].
  destruct (ArmState_eqb (m_arm_state (drv s)) ArmStateDisarm) eqn:Hs; cbn; [|eauto].
  destruct (m_init_completed (drv s)); cbn; [|eauto].
  split; [|split; [done|intros _; unfold Armed; cbn; done]].
  exists ArmStateDisarm.
  eapply (TrAt_events _ _ _ _ _
            [EvSetArmState ArmStateBusy; EvStartArming requested_arm_state]);
    [exact H|cbn; by rewrite <- app_assoc|reflexivity|reflexivity|].
  intros _. cbn. by apply validRequest_eqb.
Qed.

Lemma Quiet_requestDisarming (requested_rearm_state : ArmState) :
  Quiet (requestDisarming digitizer requested_rearm_state).
Proof.
  intros s0 st sp pb fl dr lc pd s H. cbn zeta.
  pose proof H as (evs & Hlog & Hrun & Hp & Hb).
  unfold wp, requestDisarming, setArmState. run_monad.
  destruct (ArmState_eqb (m_arm_state (drv s)) ArmStateDisarm) eqn:Hs; cbn; [eauto|].
  apply ArmState_eqb_neq in Hs.
  destruct (m_disarm_requested (drv s)); cbn.
  - split; [|done]. exists requested_rearm_state.
    eapply (TrAt_events _ _ _ _ _ [EvRequestDisarming requested_rearm_state]);
      [exact H|reflexivity|reflexivity|reflexivity|].
    intros _. cbn. auto.
  - destruct (m_in_read_loop (drv s)); cbn;
      (split; [|split; [done|intros _; unfold Armed; cbn; done]]);
      exists requested_rearm_state.
    + eapply (TrAt_events _ _ _ _ _
                [EvSetArmState ArmStateBusy; EvInterruptReading;
                 EvRequestDisarming requested_rearm_state]);
        [exact H|cbn; by rewrite <- !app_assoc|reflexivity|reflexivity|].
      intros _. cbn. auto.
    + eapply (TrAt_events _ _ _ _ _
                [EvSetArmState ArmStateBusy;
                 EvRequestDisarming requested_rearm_state]);
        [exact H|cbn; by rewrite <- !app_assoc|reflexivity|reflexivity|].
      intros _. cbn. auto.
Qed.

End Trace.

(** Decomposes a proof that a piece of code is quiet. *)
Ltac quiet :=
  repeat first
    [ assumption
    | apply Quiet_startArming
    | apply Quiet_requestDisarming
    | lazymatch goal with
      | |- Quiet (mbind _ _) => apply Quiet_bind; [|intros]
      | |- Quiet (mret _) => apply Quiet_ret
      | |- Quiet (halt _) => apply Quiet_halt
      | |- Quiet (assert _) => apply Quiet_assert
      | |- Quiet (gets _) => apply Quiet_gets
      | |- Quiet observe => apply Quiet_observe
      | |- Quiet unlock => apply Quiet_observe
      | |- Quiet (call _) => apply Quiet_call
      | |- Quiet (modify _) => apply Quiet_modify; intros; repeat split; reflexivity
      | |- Quiet (emit _) => apply Quiet_emit; intros; reflexivity
      | |- Quiet (if ?b then _ else _) => destruct b
      | |- Quiet (match ?x with _ => _ end) => destruct x
      | |- Quiet (pair (Ok _)) => apply Quiet_ret
      end ].

Lemma checkBasicSettings_frame (d : TRBaseDriver) :
  m_requested_rearm_state (checkBasicSettings d).2 = m_requested_rearm_state d /\
  m_arm_state (checkBasicSettings d).2 = m_arm_state d /\
  m_requested_arm_state (checkBasicSettings d).2 = m_requested_arm_state d.
Proof.
  unfold checkBasicSettings.
  repeat match goal with |- context [if ?b then _ else _] => destruct b end;
    repeat split; reflexivity.
Qed.

Lemma applySnapshotEdits_frame (edits : list SnapshotEdit) (d : TRBaseDriver) :
  m_requested_rearm_state (foldl applySnapshotEdit d edits) = m_requested_rearm_state d /\
  m_arm_state (foldl applySnapshotEdit d edits) = m_arm_state d /\
  m_requested_arm_state (foldl applySnapshotEdit d edits) = m_requested_arm_state d.
Proof.
  revert d. induction edits as [|e edits IH]; intros d; cbn [foldl]; [done|].
  destruct (IH (applySnapshotEdit d e)) as (-> & -> & ->). done.
Qed.

Section QuietCode.

Context {A : Type} (digitizer : DigitizerDriver A).

Lemma Quiet_runAction (act : Action) : Quiet (runAction digitizer act).
Proof.
  unfold runAction, writeInt32, writeFloat64, handleArmRequest,
    asynPortDriver_writeInt32, asynPortDriver_writeFloat64,
    requestDisarmingFromDriver.
  destruct act; quiet.
Qed.

Lemma Quiet_runActions (acts : list Action) : Quiet (runActions digitizer acts).
Proof.
  induction acts as [|act acts IH]; cbn [runActions]; quiet.
  apply Quiet_runAction.
Qed.

Lemma Quiet_lock : Quiet (lock digitizer).
Proof. unfold lock. quiet. apply Quiet_runActions. Qed.

Lemma Quiet_unlock : Quiet (unlock : M A unit).
Proof. apply Quiet_observe. Qed.

Lemma Quiet_waitEvent get set :
  (forall b d, m_requested_rearm_state (set b d) = m_requested_rearm_state d /\
               m_arm_state (set b d) = m_arm_state d /\
               m_requested_arm_state (set b d) = m_requested_arm_state d) ->
  Quiet (waitEvent digitizer get set).
Proof.
  intros Hset. unfold waitEvent. quiet; [apply Quiet_runActions|].
  apply Quiet_modify. intros. apply Hset.
Qed.

Lemma Quiet_waitUntilDisarming : Quiet (waitUntilDisarming digitizer).
Proof.
  unfold waitUntilDisarming. quiet. apply Quiet_waitEvent.
  intros; repeat split; reflexivity.
Qed.

Lemma Quiet_checkDisarmRequestedUnlocked :
  Quiet (checkDisarmRequestedUnlocked digitizer).
Proof.
  unfold checkDisarmRequestedUnlocked. quiet; auto using Quiet_lock, Quiet_unlock.
Qed.

Lemma Quiet_maybeSleepForTesting : Quiet (maybeSleepForTesting digitizer).
Proof.
  unfold maybeSleepForTesting. quiet; auto using Quiet_lock, Quiet_unlock.
Qed.

End QuietCode.

Section TraceSteps.

Context {A : Type} (digitizer : DigitizerDriver A).

Lemma wp_gets {X} (f : TRBaseDriver -> X) (Q : X -> Sys A -> Prop) E s :
  Q (f (drv s)) s -> wp (gets f) Q E s.
Proof. auto. Qed.

Lemma wp_modify (f : TRBaseDriver -> TRBaseDriver) (Q : unit -> Sys A -> Prop) E s :
  Q () (mkSys (f (drv s)) (ext s) (log s) (observed s) (need_stop_acquisition s)) ->
  wp (modify f) Q E s.
Proof. auto. Qed.

Lemma wp_emit (e : Event) (Q : unit -> Sys A -> Prop) E s :
  Q () (mkSys (drv s) (ext s) (log s ++ [e]) (observed s) (need_stop_acquisition s)) ->
  wp (emit e) Q E s.
Proof. auto. Qed.

Lemma wp_observe (Q : unit -> Sys A -> Prop) E s :
  Q () (mkSys (drv s) (ext s) (log s) (observed s ++ [drv s])
          (need_stop_acquisition s)) ->
  wp observe Q E s.
Proof. auto. Qed.

Lemma wp_call {X} (f : TRBaseDriver -> A -> X * A) (Q : X -> Sys A -> Prop) E s :
  (forall x a, f (drv s) (ext s) = (x, a) ->
     Q x (mkSys (drv s) a (log s) (observed s) (need_stop_acquisition s))) ->
  wp (call f) Q E s.
Proof. intros H. unfold wp, call. destruct (f (drv s) (ext s)) eqn:Hf. auto. Qed.

Lemma wp_state {X} (f : TRBaseDriver -> X * TRBaseDriver) (Q : X -> Sys A -> Prop) E s :
  (forall x d, f (drv s) = (x, d) ->
     Q x (mkSys d (ext s) (log s) (observed s) (need_stop_acquisition s))) ->
  wp (state f) Q E s.
Proof. intros H. unfold wp, state. destruct (f (drv s)) eqn:Hf. auto. Qed.

Lemma wp_set_need_stop_acquisition b (Q : unit -> Sys A -> Prop) E s :
  Q () (mkSys (drv s) (ext s) (log s) (observed s) b) ->
  wp (set_need_stop_acquisition b) Q E s.
Proof. auto. Qed.

Lemma wp_get_need_stop_acquisition (Q : bool -> Sys A -> Prop) E s :
  Q (need_stop_acquisition s) s -> wp get_need_stop_acquisition Q E s.
Proof. auto. Qed.

(** A quiet piece of code in a run the automaton follows, during an
    arming. *)
Lemma wp_quiet {X} (c : M A X) (Q : X -> Sys A -> Prop) (E : Sys A -> Prop)
  s0 st sp pb fl dr lc pd s ns :
  Quiet c ->
  TrAt s0 (mkMon st sp pb fl dr lc pd) s ->
  need_stop_acquisition s = ns ->
  Armed s ->
  (forall x s' pd',
     TrAt s0 (mkMon st sp pb fl dr lc pd') s' ->
     need_stop_acquisition s' = ns -> Armed s' -> Q x s') ->
  (forall s' pd',
     TrAt s0 (mkMon st sp pb fl dr lc pd') s' ->
     need_stop_acquisition s' = ns -> Armed s' -> E s') ->
  wp c Q E s.
Proof.
  intros Hc H Hns Harm HQ HE.
  eapply wp_mono; [apply (Hc _ _ _ _ _ _ _ _ _ H)| |]; cbn beta.
  - intros x s' ([pd' H'] & Hn & Ha). apply (HQ x s' pd' H'); [congruence|auto].
  - intros s' ([pd' H'] & Hn & Ha). apply (HE s' pd' H'); [congruence|auto].
Qed.

(** The same before the arming is known to have started. *)
Lemma wp_quiet_idle {X} (c : M A X) (Q : X -> Sys A -> Prop) (E : Sys A -> Prop)
  s0 st sp pb fl dr lc pd s :
  Quiet c ->
  TrAt s0 (mkMon st sp pb fl dr lc pd) s ->
  (forall x s' pd', TrAt s0 (mkMon st sp pb fl dr lc pd') s' -> Q x s') ->
  (forall s' pd', TrAt s0 (mkMon st sp pb fl dr lc pd') s' -> E s') ->
  wp c Q E s.
Proof.
  intros Hc H HQ HE.
  eapply wp_mono; [apply (Hc _ _ _ _ _ _ _ _ _ H)| |]; cbn beta.
  - intros x s' ([pd' H'] & Hn & Ha). eauto.
  - intros s' ([pd' H'] & Hn & Ha). eauto.
Qed.

(** An event of the read thread the automaton accepts. *)
Lemma wp_emit_TrAt (e : Event) (Q : unit -> Sys A -> Prop) E s0 m m' s ns :
  TrAt s0 m s ->
  need_stop_acquisition s = ns ->
  Armed s ->
  mon_step m e = Some m' ->
  mon_pending m' = mon_pending m ->
  (forall s', TrAt s0 m' s' -> need_stop_acquisition s' = ns -> Armed s' ->
     Q () s') ->
  wp (emit e) Q E s.
Proof.
  intros H Hns Ha He Hp HQ. apply wp_emit. apply HQ; [|done|done].
  eapply (TrAt_events _ _ _ _ _ [e]); eauto; cbn.
  - by rewrite He.
  - rewrite Hp. by destruct H as (? & ? & ? & ? & ?).
  - by destruct H as (? & ? & ? & ? & ?).
Qed.

Lemma wp_set_need_stop_TrAt b (Q : unit -> Sys A -> Prop) E s0 m s :
  TrAt s0 m s ->
  Armed s ->
  (forall s', TrAt s0 m s' -> need_stop_acquisition s' = b -> Armed s' -> Q () s') ->
  wp (set_need_stop_acquisition b) Q E s.
Proof.
  intros H Ha HQ. apply wp_set_need_stop_acquisition. apply HQ; [|done|done].
  eapply TrAt_frame; eauto.
Qed.

(** [setArmState] with a state other than Disarm, during an arming. *)
Lemma wp_setArmState_TrAt armState (Q : unit -> Sys A -> Prop) E s0 m s ns :
  armState <> ArmStateDisarm ->
  TrAt s0 m s ->
  need_stop_acquisition s = ns ->
  Armed s ->
  (forall s', TrAt s0 m s' -> need_stop_acquisition s' = ns -> Armed s' ->
     Q () s') ->
  wp (setArmState armState) Q E s.
Proof.
  intros Hs H Hns Ha HQ. unfold wp, setArmState. run_monad.
  apply HQ; [|done|done].
  eapply (TrAt_events _ _ _ _ _ [EvSetArmState armState]); eauto; cbn.
  - by destruct armState.
  - by destruct H as (? & ? & ? & ? & ?).
  - destruct H as (? & ? & ? & ? & Hb). intros _. by apply Hb.
Qed.

End TraceSteps.

(** Steps over a quiet piece of code at the head of the code of the goal:
    the automaton follows the run by [H], [need_stop_acquisition] is known
    by [Hn] and the arming has started by [Ha]. *)
Ltac quiet_step H Hn Ha :=
  lazymatch goal with
  | |- wp (mbind _ _) _ _ _ => apply wp_bind
  | _ => idtac
  end;
  eapply wp_quiet;
  [ | exact H | exact Hn | exact Ha | cbn beta | cbn beta ].

(** Brings the state of the automaton in [H] to the form of a record. *)
Ltac mon_norm H :=
  cbv [mon_call mon_set_drain mon_fail mon_set_pending mon_init
       fmap option_fmap option_map] in H;
  cbn [mon_started mon_stopped mon_published mon_failed mon_drain
       mon_last_call mon_pending orb negb andb] in H.

(** Steps over an event of the read thread at the head of the code. *)
Ltac emit_step H Hn Ha :=
  lazymatch goal with
  | |- wp (mbind _ _) _ _ _ => apply wp_bind
  | _ => idtac
  end;
  eapply wp_emit_TrAt;
  [exact H | exact Hn | exact Ha | cbn; reflexivity | reflexivity | cbn beta].

Section ArmingTrace.

Context {A : Type} (digitizer : DigitizerDriver A).

(** Between two bursts of the burst loop.  Before an overflow is detected
    [currentRemBursts] and [remainingBursts] are equal.  After it the
    automaton allows at least the [currentRemBursts] further reads the loop
    will do, exactly that many unless the clamp kept [currentRemBursts],
    which is then still equal to [remainingBursts]; the last call was the
    processing of a burst. *)
Definition Draining (overflow : bool) (currentRemBursts remainingBursts : Z)
  (dr : option Z) (lc : option Event) : Prop :=
  if overflow
  then exists budget, dr = Some budget /\ (0 <= currentRemBursts <= budget)%Z /\
         lc = Some (EvProcessBurstData true) /\
         (currentRemBursts = budget \/ remainingBursts = currentRemBursts)
  else dr = None /\ currentRemBursts = remainingBursts /\
       from_option canRead false lc = true.

Lemma Draining_readGuard overflow cur rem dr lc st sp pb fl pd :
  Draining overflow cur rem dr lc -> cur <> 0%Z ->
  readGuard (mkMon st sp pb fl dr lc pd) = true.
Proof.
  unfold readGuard, lastIs. cbn. destruct overflow; cbn.
  - intros (budget & -> & Hb & -> & _) Hc. cbn. apply Z.ltb_lt. lia.
  - intros (-> & _ & ->) _. done.
Qed.

(** Where the block before the labels can be left: nothing was stopped and
    Disarm was not published, [need_stop_acquisition] tells whether
    [startAcquisition] was called, and the arm state is not Disarm. *)
Definition BodyExit (s0 s : Sys A) : Prop :=
  exists st fl dr lc pd,
    TrAt s0 (mkMon st false false fl dr lc pd) s /\
    need_stop_acquisition s = st /\
    Armed s.

Ltac body_exit :=
  intros; unfold BodyExit; do 5 eexists; split; [eassumption|split; assumption].

Lemma burstLoop_trace (fuel : nat) :
  forall overflow cur rem s0 dr lc pd s,
    TrAt s0 (mkMon true false false false dr lc pd) s ->
    need_stop_acquisition s = true ->
    Armed s ->
    Draining overflow cur rem dr lc ->
    wp (burstLoop digitizer fuel overflow cur rem)
      (fun r s' =>
         exists dr' lc' pd',
           TrAt s0 (mkMon true false false false dr' lc' pd') s' /\
           need_stop_acquisition s' = true /\
           Armed s' /\
           Draining r.1 0 r.2 dr' lc')
      (BodyExit s0) s.
Proof.
  induction fuel as [|fuel IH]; intros overflow cur rem s0 dr lc pd s H Hn Ha Hd;
    cbn [burstLoop]; destruct (Z.eqb_spec cur 0) as [->|Hcur].
  - apply wp_ret. cbn. eauto 10.
  - apply wp_halt. body_exit.
  - apply wp_ret. cbn. eauto 10.
  - (* readBurst *)
    quiet_step H Hn Ha; [quiet| |body_exit].
    intros ok s1 pd1 H1 Hn1 Ha1.
    apply wp_bind.
    eapply wp_emit_TrAt;
      [exact H1|exact Hn1|exact Ha1
      |cbn [mon_step mon_started mon_stopped negb orb];
       rewrite (Draining_readGuard _ _ _ _ _ true false false false pd1 Hd Hcur);
       cbn [negb]; reflexivity
      |reflexivity|cbn beta].
    intros s2 H2 Hn2 Ha2. mon_norm H2.
    destruct ok; cbn [negb]; [|apply wp_goto; body_exit].
    quiet_step H2 Hn2 Ha2; [apply Quiet_checkDisarmRequestedUnlocked| |body_exit].
    intros disarm_requested s3 pd3 H3 Hn3 Ha3.
    destruct disarm_requested; [apply wp_goto; body_exit|].
    apply wp_bind.
    destruct overflow; cbn [negb].
    + (* already draining: no check for overflow *)
      destruct Hd as (budget & -> & Hb & -> & Hrel).
      apply wp_ret. mon_norm H3.
      quiet_step H3 Hn3 Ha3; [quiet| |body_exit].
      intros ok s4 pd4 H4 Hn4 Ha4.
      emit_step H4 Hn4 Ha4. intros s5 H5 Hn5 Ha5. mon_norm H5.
      destruct ok; cbn [negb]; [|apply wp_goto; body_exit].
      quiet_step H5 Hn5 Ha5; [apply Quiet_maybeSleepForTesting| |body_exit].
      intros [] s6 pd6 H6 Hn6 Ha6.
      eapply IH; [exact H6|assumption|assumption|].
      cbn. exists (budget - 1)%Z.
      destruct (Z.ltb_spec 0 cur), (Z.ltb_spec 0 rem); repeat split; lia.
    + (* checkOverflow *)
      cbn in Hd. destruct Hd as (-> & <- & Hlc).
      quiet_step H3 Hn3 Ha3; [quiet| |body_exit].
      intros [[ok overflow_detected] num_buffer_bursts] s4 pd4 H4 Hn4 Ha4.
      emit_step H4 Hn4 Ha4. intros s5 H5 Hn5 Ha5. mon_norm H5.
      destruct ok; cbn [negb]; [|apply wp_goto; body_exit].
      destruct overflow_detected.
      * apply wp_bind. apply wp_assert; [body_exit|]. intros Hpos%Z.ltb_lt.
        apply wp_ret.
        quiet_step H5 Hn5 Ha5; [quiet| |body_exit].
        intros ok s6 pd6 H6 Hn6 Ha6.
        emit_step H6 Hn6 Ha6. intros s7 H7 Hn7 Ha7. mon_norm H7.
        destruct ok; cbn [negb]; [|apply wp_goto; body_exit].
        quiet_step H7 Hn7 Ha7; [apply Quiet_maybeSleepForTesting| |body_exit].
        intros [] s8 pd8 H8 Hn8 Ha8.
        eapply IH; [exact H8|assumption|assumption|].
        cbn. exists (num_buffer_bursts - 1)%Z.
        destruct (Z.ltb_spec cur 0);
          [destruct (Z.ltb_spec 0 num_buffer_bursts)
          |destruct (Z.ltb_spec 0 (Z.min cur num_buffer_bursts))];
          destruct (Z.ltb_spec 0 cur); repeat split; lia.
      * apply wp_ret.
        quiet_step H5 Hn5 Ha5; [quiet| |body_exit].
        intros ok s6 pd6 H6 Hn6 Ha6.
        emit_step H6 Hn6 Ha6. intros s7 H7 Hn7 Ha7. mon_norm H7.
        destruct ok; cbn [negb]; [|apply wp_goto; body_exit].
        quiet_step H7 Hn7 Ha7; [apply Quiet_maybeSleepForTesting| |body_exit].
        intros [] s8 pd8 H8 Hn8 Ha8.
        eapply IH; [exact H8|assumption|assumption|].
        cbn. by destruct (Z.ltb_spec 0 cur).
Qed.

(** What the overflow recovery loop needs of the automaton when it is
    entered: before the first acquisition nothing was started; at a restart
    an overflow was detected and the bursts it allowed were processed. *)
Definition Restart (overflow st : bool) (dr : option Z) (lc : option Event) : Prop :=
  if overflow
  then st = true /\ dr = Some 0%Z /\ lc = Some (EvProcessBurstData true)
  else st = false /\ dr = None.

Lemma overflowLoop_trace (fuel : nat) :
  forall burstFuel overflow rem s0 st dr lc pd s,
    TrAt s0 (mkMon st false false false dr lc pd) s ->
    need_stop_acquisition s = st ->
    Armed s ->
    Restart overflow st dr lc ->
    wp (overflowLoop digitizer fuel burstFuel overflow rem)
      (fun _ _ => False) (BodyExit s0) s.
Proof.
  induction fuel as [|fuel IH];
    intros burstFuel overflow rem s0 st dr lc pd s H Hn Ha Hr;
    cbn [overflowLoop]; [apply wp_halt; body_exit|].
  quiet_step H Hn Ha; [quiet| |body_exit].
  intros disarm_requested s1 pd1 H1 Hn1 Ha1.
  destruct disarm_requested.
  { quiet_step H1 Hn1 Ha1; [quiet| |body_exit]. intros. apply wp_goto. body_exit. }
  quiet_step H1 Hn1 Ha1; [quiet| |body_exit]. intros [] s2 pd2 H2 Hn2 Ha2.
  quiet_step H2 Hn2 Ha2; [quiet| |body_exit]. intros [] s3 pd3 H3 Hn3 Ha3.
  apply wp_bind. eapply wp_set_need_stop_TrAt; [exact H3|exact Ha3|]. cbn beta.
  intros s4 H4 Hn4 Ha4.
  set (lc' := Some (EvStartAcquisition overflow true)).
  assert (Hstart :
    mon_step (mkMon st false false false dr lc pd3)
      (EvStartAcquisition overflow true) =
      Some (mkMon true false false false None lc' pd3) /\
    mon_step (mkMon st false false false dr lc pd3)
      (EvStartAcquisition overflow false) =
      Some (mkMon true false false false None
              (Some (EvStartAcquisition overflow false)) pd3)).
  { destruct overflow; cbn in Hr.
    - destruct Hr as (-> & -> & ->). cbn. eauto.
    - destruct Hr as (-> & ->). cbn. eauto. }
  destruct Hstart as (Hok & Hfail).
  apply wp_bind. apply wp_call. intros ok a _. cbn beta.
  set (s5 := mkSys (drv s4) a (log s4) (observed s4) (need_stop_acquisition s4)).
  assert (H5 : TrAt s0 (mkMon st false false false dr lc pd3) s5)
    by (eapply TrAt_frame; eauto).
  assert (Hn5 : need_stop_acquisition s5 = true) by exact Hn4.
  assert (Ha5 : Armed s5) by exact Ha4.
  clearbody s5. set (pd5 := pd3) in *.
  destruct ok; cbn [negb].
  - apply wp_bind. eapply wp_emit_TrAt; [exact H5|exact Hn5|exact Ha5| | |].
    { instantiate (1 := mkMon true false false false None lc' pd5).
      revert Hok. clear. destruct overflow, st, dr as [b|]; cbn;
        repeat (match goal with |- context [if ?c then _ else _] => destruct c end;
                cbn); congruence. }
    { reflexivity. }
    cbn beta. intros s6 H6 Hn6 Ha6.
    quiet_step H6 Hn6 Ha6; [apply Quiet_lock| |body_exit].
    intros [] s7 pd7 H7 Hn7 Ha7.
    quiet_step H7 Hn7 Ha7; [quiet| |body_exit].
    intros disarm_requested s8 pd8 H8 Hn8 Ha8.
    destruct disarm_requested.
    { quiet_step H8 Hn8 Ha8; [quiet| |body_exit]. intros. apply wp_goto. body_exit. }
    apply wp_bind.
    assert (Hset :
      forall Q : unit -> Sys A -> Prop,
        (forall s' pd', TrAt s0 (mkMon true false false false None lc' pd') s' ->
           need_stop_acquisition s' = true -> Armed s' -> Q () s') ->
        wp (if negb overflow
            then requested_arm_state ← gets m_requested_arm_state;
                 setArmState requested_arm_state
            else mret ()) Q (BodyExit s0) s8).
    { intros Q HQ. destruct overflow; cbn [negb]; [apply wp_ret; eauto|].
      apply wp_bind. apply wp_gets.
      eapply wp_setArmState_TrAt; [|exact H8|exact Hn8|exact Ha8|eauto].
      destruct H8 as (? & ? & ? & ? & Hb). destruct (Hb Ha8) as [-> | ->]; done. }
    apply Hset. intros s9 pd9 H9 Hn9 Ha9.
    quiet_step H9 Hn9 Ha9; [quiet| |body_exit]. intros [] s10 pd10 H10 Hn10 Ha10.
    quiet_step H10 Hn10 Ha10; [quiet| |body_exit]. intros [] s11 pd11 H11 Hn11 Ha11.
    apply wp_bind.
    eapply wp_mono;
      [apply (burstLoop_trace burstFuel false rem rem _ _ _ _ _ H11 Hn11 Ha11);
       repeat split; reflexivity
      |cbn beta|auto].
    intros [overflow' rem'] s12 (dr' & lc'' & pd12 & H12 & Hn12 & Ha12 & Hd12).
    cbn [fst snd] in Hd12.
    destruct (Z.eqb_spec rem' 0) as [|Hrem']; [apply wp_goto; body_exit|].
    apply wp_bind. apply wp_assert; [body_exit|]. intros ->.
    quiet_step H12 Hn12 Ha12; [apply Quiet_lock| |body_exit].
    intros [] s13 pd13 H13 Hn13 Ha13.
    quiet_step H13 Hn13 Ha13; [quiet| |body_exit].
    intros [] s14 pd14 H14 Hn14 Ha14.
    eapply IH; [exact H14|exact Hn14|exact Ha14|].
    cbn in Hd12. destruct Hd12 as (budget & -> & Hb & -> & Hrel).
    cbn. split; [done|]. split; [|done]. f_equal. lia.
  - apply wp_bind. eapply wp_emit_TrAt; [exact H5|exact Hn5|exact Ha5| | |].
    { instantiate (1 := mkMon true false false false None
                          (Some (EvStartAcquisition overflow false)) pd5).
      revert Hfail. clear. destruct overflow, st, dr as [b|]; cbn;
        repeat (match goal with |- context [if ?c then _ else _] => destruct c end;
                cbn); congruence. }
    { reflexivity. }
    cbn beta. intros s6 H6 Hn6 Ha6. apply wp_goto. body_exit.
Qed.

Lemma prepareArming_trace s0 lc pd s :
  TrAt s0 (mkMon false false false false None lc pd) s ->
  need_stop_acquisition s = false ->
  Armed s ->
  wp (prepareArming digitizer)
    (fun _ s' =>
       exists lc' pd',
         TrAt s0 (mkMon false false false false None lc' pd') s' /\
         need_stop_acquisition s' = false /\
         Armed s')
    (BodyExit s0) s.
Proof.
  intros H Hn Ha. unfold prepareArming.
  quiet_step H Hn Ha; [apply Quiet_lock| |body_exit].
  intros [] s1 pd1 H1 Hn1 Ha1.
  quiet_step H1 Hn1 Ha1; [quiet| |body_exit].
  intros ok s2 pd2 H2 Hn2 Ha2.
  emit_step H2 Hn2 Ha2. intros s3 H3 Hn3 Ha3. mon_norm H3.
  quiet_step H3 Hn3 Ha3; [quiet| |body_exit]. intros [] s4 pd4 H4 Hn4 Ha4.
  quiet_step H4 Hn4 Ha4; [apply Quiet_lock| |body_exit].
  intros [] s5 pd5 H5 Hn5 Ha5.
  destruct ok; cbn [negb] in *;
    [|quiet_step H5 Hn5 Ha5; [quiet| |body_exit]; intros; apply wp_goto; body_exit].
  quiet_step H5 Hn5 Ha5; [quiet| |body_exit]. intros [] s6 pd6 H6 Hn6 Ha6.
  quiet_step H6 Hn6 Ha6;
    [apply Quiet_state; intros; apply checkBasicSettings_frame| |body_exit].
  intros ok s7 pd7 H7 Hn7 Ha7.
  emit_step H7 Hn7 Ha7. intros s8 H8 Hn8 Ha8. mon_norm H8.
  destruct ok; cbn [negb] in *;
    [|quiet_step H8 Hn8 Ha8; [quiet| |body_exit]; intros; apply wp_goto; body_exit].
  quiet_step H8 Hn8 Ha8; [quiet| |body_exit].
  intros [[ok arm_info] edits] s9 pd9 H9 Hn9 Ha9.
  emit_step H9 Hn9 Ha9. intros s10 H10 Hn10 Ha10. mon_norm H10.
  quiet_step H10 Hn10 Ha10;
    [apply Quiet_modify; intros; apply applySnapshotEdits_frame| |body_exit].
  intros [] s11 pd11 H11 Hn11 Ha11.
  destruct ok; cbn [negb] in *;
    [|quiet_step H11 Hn11 Ha11; [quiet| |body_exit]; intros; apply wp_goto;
      body_exit].
  destruct (PrimFloat.is_nan (rate_for_display arm_info));
    [quiet_step H11 Hn11 Ha11; [quiet| |body_exit]; intros; apply wp_goto;
     body_exit|].
  quiet_step H11 Hn11 Ha11; [quiet| |body_exit]. intros [] s12 pd12 H12 Hn12 Ha12.
  quiet_step H12 Hn12 Ha12; [quiet| |body_exit]. intros [] s13 pd13 H13 Hn13 Ha13.
  quiet_step H13 Hn13 Ha13; [quiet| |body_exit]. intros [] s14 pd14 H14 Hn14 Ha14.
  quiet_step H14 Hn14 Ha14; [quiet| |body_exit]. intros [] s15 pd15 H15 Hn15 Ha15.
  quiet_step H15 Hn15 Ha15; [quiet| |body_exit].
  intros remainingBursts s16 pd16 H16 Hn16 Ha16.
  apply wp_ret. eauto 10.
Qed.

Lemma armAndRead_trace fuel s0 lc pd s :
  TrAt s0 (mkMon false false false false None lc pd) s ->
  need_stop_acquisition s = false ->
  Armed s ->
  wp (armAndRead digitizer fuel) (fun _ _ => False) (BodyExit s0) s.
Proof.
  intros H Hn Ha. unfold armAndRead. apply wp_bind.
  eapply wp_mono; [apply (prepareArming_trace _ _ _ _ H Hn Ha)|cbn beta|auto].
  intros remainingBursts s1 (lc1 & pd1 & H1 & Hn1 & Ha1).
  eapply overflowLoop_trace; eauto. done.
Qed.

(** The events since [s0] are accepted. *)
Definition Accepted (s0 s : Sys A) : Prop := exists m, TrAt s0 m s.

(** How one arming ends: [stopAcquisition] was called if and only if
    [startAcquisition] was; then either Disarm is published, the pending
    re-arm target being Disarm, or, without Disarm being published, a new
    arming starts with the pending re-arm target as the requested state. *)
Definition Finished (s0 s : Sys A) : Prop :=
  exists evs m,
    log s = log s0 ++ evs /\
    mon_run (mon_init (m_requested_rearm_state (drv s0))) evs = Some m /\
    Basic (drv s) /\
    mon_started m = mon_stopped m /\
    ((exists evs',
        evs = evs' ++ [EvSetArmState ArmStateDisarm] /\
        pendingRearm (m_requested_rearm_state (drv s0)) evs' = ArmStateDisarm /\
        m_arm_state (drv s) = ArmStateDisarm) \/
     (exists evs' r,
        evs = evs' ++ [EvSetArmState ArmStateBusy; EvStartArming r] /\
        pendingRearm (m_requested_rearm_state (drv s0)) evs' = r /\
        validRequest r /\
        m_arm_state (drv s) = ArmStateBusy /\
        m_requested_arm_state (drv s) = r /\
        m_start_arming_event (drv s) = true /\
        m_disarm_requested (drv s) = false /\
        mon_published m = false)).

Lemma finishDisarming_trace s0 st fl dr lc s :
  TrAt s0 (mkMon st st false fl dr lc (m_requested_rearm_state (drv s))) s ->
  wp ((if negb (ArmState_eqb (m_requested_rearm_state (drv s)) ArmStateDisarm) then
         modify (set_m_arm_state ArmStateDisarm);;
         startArming (m_requested_rearm_state (drv s))
       else setArmState ArmStateDisarm);; unlock)
    (fun _ => Finished s0) (Accepted s0) s.
Proof.
  intros H. pose proof H as (evs' & Hlog & Hrun & _ & Hb).
  pose proof (mon_run_pending _ _ _ Hrun) as Hpend. cbn in Hpend.
  set (r := m_requested_rearm_state (drv s)) in *.
  unfold wp, startArming, setArmState, unlock. run_monad.
  destruct (ArmState_eqb r ArmStateDisarm) eqn:Hr; cbn.
  - apply ArmState_eqb_eq in Hr.
    exists (evs' ++ [EvSetArmState ArmStateDisarm]),
      (mkMon st st true fl dr lc r).
    rewrite Hlog, <- app_assoc. split; [done|]. split.
    { rewrite mon_run_app, Hrun. cbn. by destruct st. }
    split; [by intros ?|]. split; [done|].
    left. exists evs'. repeat split; congruence.
  - destruct (_ || _) eqn:Hv; cbn.
    + destruct (m_init_completed (drv s)); cbn.
      * exists (evs' ++ [EvSetArmState ArmStateBusy; EvStartArming r]),
          (mkMon st st false fl dr lc ArmStateDisarm).
        rewrite Hlog, <- !app_assoc. split; [done|]. split.
        { rewrite mon_run_app, Hrun. reflexivity. }
        apply validRequest_eqb in Hv.
        split; [by intros _|]. split; [done|].
        right. exists evs', r. repeat split; auto.
      * exists (mkMon st st false fl dr lc r).
        eapply (TrAt_events _ _ _ _ _ []); [exact H|by rewrite app_nil_r|
          reflexivity|reflexivity|by intros ?].
    + exists (mkMon st st false fl dr lc r).
      eapply (TrAt_events _ _ _ _ _ []); [exact H|by rewrite app_nil_r|
        reflexivity|reflexivity|by intros ?].
Qed.

Lemma disarm_trace had_error s0 s :
  BodyExit s0 s ->
  wp (disarm digitizer had_error) (fun _ => Finished s0) (Accepted s0) s.
Proof.
  intros (st & fl & dr & lc & pd & H & Hn & Ha). unfold disarm.
  assert (Hacc : forall m s', TrAt s0 m s' -> Accepted s0 s')
    by (intros; eexists; eauto).
  quiet_step H Hn Ha; [apply Quiet_lock| |eauto].
  intros [] s1 pd1 H1 Hn1 Ha1.
  quiet_step H1 Hn1 Ha1; [quiet| |eauto]. intros [] s2 pd2 H2 Hn2 Ha2.
  quiet_step H2 Hn2 Ha2; [quiet| |eauto].
  intros disarm_requested s3 pd3 H3 Hn3 Ha3.
  apply wp_bind.
  assert (Herr :
    forall Q : unit -> Sys A -> Prop,
      (forall s' pd', TrAt s0 (mkMon st false false fl dr lc pd') s' ->
         need_stop_acquisition s' = st -> Armed s' -> Q () s') ->
      wp (if had_error && negb disarm_requested then
            setArmState ArmStateError;; unlock;;
            waitUntilDisarming digitizer;; lock digitizer
          else mret ()) Q (Accepted s0) s3).
  { intros Q HQ. destruct (had_error && negb disarm_requested);
      [|apply wp_ret; eauto].
    apply wp_bind.
    eapply wp_setArmState_TrAt; [done|exact H3|exact Hn3|exact Ha3|]. cbn beta.
    intros s4 H4 Hn4 Ha4.
    quiet_step H4 Hn4 Ha4; [quiet| |eauto]. intros [] s5 pd5 H5 Hn5 Ha5.
    quiet_step H5 Hn5 Ha5; [apply Quiet_waitUntilDisarming| |eauto].
    intros [] s6 pd6 H6 Hn6 Ha6.
    eapply wp_quiet; [apply Quiet_lock|exact H6|exact Hn6|exact Ha6| |eauto].
    intros [] ? ? ? ? ?; eauto. }
  apply Herr. clear Herr. intros s4 pd4 H4 Hn4 Ha4.
  quiet_step H4 Hn4 Ha4; [quiet| |eauto]. intros [] s5 pd5 H5 Hn5 Ha5.
  apply wp_bind. apply wp_get_need_stop_acquisition. rewrite Hn5.
  apply wp_bind.
  assert (Hstop :
    forall Q : unit -> Sys A -> Prop,
      (forall s' pd' lc', TrAt s0 (mkMon st st false fl dr lc' pd') s' ->
         Armed s' -> Q () s') ->
      wp (if st then
            unlock;;
            call (fun d a => ((), stopAcquisition digitizer d a));;
            emit EvStopAcquisition;; lock digitizer
          else mret ()) Q (Accepted s0) s5).
  { intros Q HQ. destruct st; [|apply wp_ret; eauto].
    quiet_step H5 Hn5 Ha5; [quiet| |eauto]. intros [] s6 pd6 H6 Hn6 Ha6.
    quiet_step H6 Hn6 Ha6; [quiet| |eauto]. intros [] s7 pd7 H7 Hn7 Ha7.
    emit_step H7 Hn7 Ha7. intros s8 H8 Hn8 Ha8. mon_norm H8.
    eapply wp_quiet; [apply Quiet_lock|exact H8|exact Hn8|exact Ha8| |eauto].
    intros [] ? ? ? ? ?; eauto. }
  apply Hstop. clear Hstop. intros s6 pd6 lc6 H6 Ha6.
  eapply wp_bind, wp_quiet_idle; [quiet|exact H6|cbn beta|eauto].
  intros [] s7 pd7 H7.
  eapply wp_bind, wp_quiet_idle; [quiet|exact H7|cbn beta|eauto].
  intros [] s8 pd8 H8.
  apply wp_bind. apply wp_gets.
  assert (pd8 = m_requested_rearm_state (drv s8)) as ->
    by (by destruct H8 as (? & ? & ? & ? & ?)).
  by eapply finishDisarming_trace.
Qed.

(** One iteration of the read thread, from any state in which the
    requested arm state is sound: the automaton accepts its events, and
    when it ends it ends as [Finished] says. *)
Lemma readThreadIteration_trace fuel s0 :
  Basic (drv s0) ->
  wp (readThreadIteration digitizer fuel) (fun _ => Finished s0) (Accepted s0) s0.
Proof.
  intros Hb. unfold readThreadIteration.
  assert (Hacc : forall m s', TrAt s0 m s' -> Accepted s0 s')
    by (intros; eexists; eauto).
  eapply wp_bind, wp_quiet_idle;
    [apply Quiet_waitEvent; intros; repeat split; reflexivity
    |exact (TrAt_refl s0 Hb)|cbn beta|eauto].
  intros [] s1 pd1 H1.
  apply wp_bind, wp_gets. apply wp_bind, wp_assert; [eauto|].
  intros Harm%ArmState_eqb_eq.
  assert (Ha1 : Armed s1) by (unfold Armed; by rewrite Harm).
  apply wp_bind. eapply wp_set_need_stop_TrAt; [exact H1|exact Ha1|]. cbn beta.
  intros s2 H2 Hn2 Ha2.
  apply wp_bind, wp_catch.
  eapply wp_mono; [apply (armAndRead_trace fuel _ _ _ _ H2 Hn2 Ha2)|done|].
  intros s3 Hexit. split.
  - destruct Hexit as (? & ? & ? & ? & ? & ? & ?). eauto.
  - intros l. by apply disarm_trace.
Qed.

End ArmingTrace.

(** ** What the automaton accepts *)

Definition isStop (e : Event) : bool :=
  match e with EvStopAcquisition => true | _ => false end.

Definition isDisarmPublished (e : Event) : bool :=
  match e with EvSetArmState ArmStateDisarm => true | _ => false end.

Ltac mon_step_cases :=
  repeat (match goal with
          | |- context [if ?c then _ else _] => destruct c eqn:?
          | |- context [match mon_drain ?m with _ => _ end] =>
              destruct (mon_drain m) eqn:?
          end; cbn);
  try discriminate.

(** The flags of the automaton record the events. *)
Lemma mon_step_flags (m m' : Mon) (e : Event) :
  mon_step m e = Some m' ->
  mon_started m' = mon_started m || isStart e /\
  mon_stopped m' = mon_stopped m || isStop e /\
  mon_published m' = mon_published m || isDisarmPublished e /\
  mon_failed m' = mon_failed m || isPrecheckFailure e.
Proof.
  destruct e as [ok|ok|ok|overflow ok|ok|ok had n|ok| | |s|r|r]; cbn;
    mon_step_cases; intros [= <-]; cbn;
    rewrite ?orb_false_r, ?orb_true_r;
    try (destruct ok; cbn; rewrite ?orb_false_r, ?orb_true_r);
    try (destruct s; cbn in *; rewrite ?orb_false_r, ?orb_true_r);
    repeat split; try done;
    repeat match goal with
           | H : _ || _ = false |- _ => apply orb_false_elim in H; destruct H
           | H : negb _ = false |- _ => apply negb_false_iff in H
           end; congruence.
Qed.

(** What the automaton requires of the state before it accepts a call of
    [startAcquisition], a call of [stopAcquisition], a check before the
    acquisition, and the publication of Disarm. *)
Lemma mon_step_guard (m m' : Mon) (e : Event) :
  mon_step m e = Some m' ->
  (isStart e = true ->
     mon_stopped m = false /\ mon_failed m = false /\ mon_published m = false) /\
  (isStop e = true ->
     mon_started m = true /\ mon_stopped m = false /\ mon_published m = false) /\
  (isPrecheckFailure e = true -> mon_started m = false) /\
  (isDisarmPublished e = true -> mon_started m = true -> mon_stopped m = true).
Proof.
  destruct e as [ok|ok|ok|overflow ok|ok|ok had n|ok| | |s|r|r]; cbn;
    intros He; (split; [|split; [|split]]); intros Hx; try discriminate Hx;
    revert He; mon_step_cases; intros _;
    repeat match goal with
           | H : _ || _ = false |- _ => apply orb_false_elim in H; destruct H
           | H : negb _ = false |- _ => apply negb_false_iff in H
           | H : negb _ = true |- _ => apply negb_true_iff in H
           end; repeat split; try congruence.
  all: destruct s; try discriminate;
    destruct (mon_started m), (mon_stopped m); cbn in *; congruence.
Qed.

Lemma mon_run_flags (evs : list Event) :
  forall m m', mon_run m evs = Some m' ->
    mon_started m' = mon_started m || existsb isStart evs /\
    mon_stopped m' = mon_stopped m || existsb isStop evs /\
    mon_published m' = mon_published m || existsb isDisarmPublished evs /\
    mon_failed m' = mon_failed m || existsb isPrecheckFailure evs.
Proof.
  induction evs as [|e evs IH]; intros m m'; cbn.
  - intros [= <-]. by rewrite !orb_false_r.
  - destruct (mon_step m e) as [m1|] eqn:He; cbn; [|done]. intros Hrun.
    destruct (IH _ _ Hrun) as (-> & -> & -> & ->).
    destruct (mon_step_flags _ _ _ He) as (-> & -> & -> & ->).
    by rewrite !orb_assoc.
Qed.

(** Once [stopAcquisition] was called the automaton accepts neither call
    again. *)
Lemma mon_run_stopped (evs : list Event) :
  forall m m', mon_run m evs = Some m' -> mon_stopped m = true ->
    existsb isStart evs = false /\ existsb isStop evs = false.
Proof.
  induction evs as [|e evs IH]; intros m m'; cbn; [done|].
  destruct (mon_step m e) as [m1|] eqn:He; cbn; [|done]. intros Hrun Hs.
  destruct (mon_step_guard _ _ _ He) as (Hg1 & Hg2 & _).
  destruct (mon_step_flags _ _ _ He) as (_ & Hs1 & _). rewrite Hs in Hs1.
  destruct (IH _ _ Hrun Hs1) as [-> ->].
  destruct (isStart e); [destruct Hg1; [done|congruence]|].
  destruct (isStop e); [destruct Hg2 as (_ & ? & _); [done|congruence]|]. done.
Qed.

(** A failed check and a call of [startAcquisition] exclude one another,
    and [stopAcquisition] is only called after [startAcquisition]. *)
Lemma mon_run_failed (evs : list Event) :
  forall m m', mon_run m evs = Some m' ->
    mon_failed m && mon_started m = false ->
    (mon_stopped m = true -> mon_started m = true) ->
    mon_failed m' && mon_started m' = false /\
    (mon_stopped m' = true -> mon_started m' = true).
Proof.
  induction evs as [|e evs IH]; intros m m'; cbn; [by intros [= <-]|].
  destruct (mon_step m e) as [m1|] eqn:He; cbn; [|done]. intros Hrun Hf Hs.
  destruct (mon_step_guard _ _ _ He) as (Hg1 & Hg2 & Hg3 & _).
  destruct (mon_step_flags _ _ _ He) as (Hst & Hsp & _ & Hfl).
  apply (IH _ _ Hrun); rewrite ?Hst, ?Hsp, ?Hfl.
  - destruct (isStart e) eqn:H1; [destruct Hg1 as (_ & -> & _); [done|]|].
    + destruct e; try discriminate. done.
    + destruct (isPrecheckFailure e); [rewrite Hg3 by done|];
        rewrite ?orb_false_r, ?orb_true_r, ?andb_false_r; auto.
  - destruct (isStop e); [destruct Hg2 as (-> & _); done|].
    rewrite orb_false_r. intros H. rewrite (Hs H). done.
Qed.

Lemma existsb_isStart (evs : list Event) :
  existsb isStart evs = true <->
  exists overflow ok, EvStartAcquisition overflow ok ∈ evs.
Proof.
  rewrite existsb_exists. split.
  - intros (e & Hin & He). destruct e; try discriminate.
    eexists _, _. by apply list_elem_of_In.
  - intros (overflow & ok & Hin). eexists. split; [by apply list_elem_of_In|done].
Qed.

Lemma existsb_isStop (evs : list Event) :
  existsb isStop evs = true <-> EvStopAcquisition ∈ evs.
Proof.
  rewrite existsb_exists. split.
  - intros (e & Hin & He). destruct e; try discriminate. by apply list_elem_of_In.
  - intros Hin. eexists. split; [by apply list_elem_of_In|done].
Qed.

Lemma existsb_isDisarmPublished (evs : list Event) :
  existsb isDisarmPublished evs = true <-> EvSetArmState ArmStateDisarm ∈ evs.
Proof.
  rewrite existsb_exists. split.
  - intros (e & Hin & He). destruct e as [| | | | | | | | |s| |]; try discriminate.
    destruct s; try discriminate. by apply list_elem_of_In.
  - intros Hin. eexists. split; [by apply list_elem_of_In|done].
Qed.

Lemma existsb_isPrecheckFailure (evs : list Event) :
  existsb isPrecheckFailure evs = true <->
  (EvWaitForPreconditions false ∈ evs \/ EvCheckBasicSettings false ∈ evs \/
   EvCheckSettings false ∈ evs).
Proof.
  rewrite existsb_exists. split.
  - intros (e & Hin%list_elem_of_In & He).
    destruct e as [[]|[]|[]| | | | | | | | |]; try discriminate; auto.
  - intros [Hin|[Hin|Hin]]; eexists; (split; [by apply list_elem_of_In|done]).
Qed.

Lemma existsb_false_not {X} (f : X -> bool) (l : list X) (x : X) :
  existsb f l = false -> x ∈ l -> f x = false.
Proof.
  intros Hf Hin%list_elem_of_In. destruct (f x) eqn:Hx; [|done].
  assert (existsb f l = true) by (apply existsb_exists; eauto). congruence.
Qed.

(** The calls of [stopAcquisition] in a sequence of events that the
    automaton accepts from its initial state. *)
Lemma accepted_stopAcquisition (pending : ArmState) (evs : list Event) (m : Mon) :
  mon_run (mon_init pending) evs = Some m ->
  (forall pre post, evs = pre ++ EvStopAcquisition :: post ->
     (exists overflow ok, EvStartAcquisition overflow ok ∈ pre) /\
     (EvStopAcquisition ∉ pre) /\
     (EvStopAcquisition ∉ post) /\
     (forall overflow ok, EvStartAcquisition overflow ok ∉ post) /\
     (EvSetArmState ArmStateDisarm ∉ pre)) /\
  (EvWaitForPreconditions false ∈ evs \/ EvCheckBasicSettings false ∈ evs \/
   EvCheckSettings false ∈ evs ->
     (forall overflow ok, EvStartAcquisition overflow ok ∉ evs) /\
     (EvStopAcquisition ∉ evs)) /\
  (mon_started m = mon_stopped m ->
     (EvStopAcquisition ∈ evs <->
      exists overflow ok, EvStartAcquisition overflow ok ∈ evs)).
Proof.
  intros Hrun. split; [|split].
  - intros pre post ->. rewrite mon_run_app in Hrun.
    apply bind_Some in Hrun as (m1 & Hpre & Hrun).
    rewrite mon_run_cons in Hrun.
    apply bind_Some in Hrun as (m2 & Hstop & Hrun).
    destruct (mon_step_guard _ _ _ Hstop) as (_ & Hg & _).
    destruct (Hg eq_refl) as (Hst & Hsp & Hpb).
    destruct (mon_run_flags _ _ _ Hpre) as (Hst1 & Hsp1 & Hpb1 & _).
    unfold mon_init in Hst1, Hsp1, Hpb1.
    cbn in Hst1, Hsp1, Hpb1. rewrite Hst in Hst1. rewrite Hsp in Hsp1.
    rewrite Hpb in Hpb1.
    destruct (mon_step_flags _ _ _ Hstop) as (_ & Hsp2 & _).
    rewrite orb_true_r in Hsp2.
    destruct (mon_run_stopped _ _ _ Hrun Hsp2) as [Hns Hnp].
    repeat split.
    + by apply existsb_isStart.
    + intros Hin%existsb_isStop. congruence.
    + intros Hin%existsb_isStop. congruence.
    + intros overflow ok Hin.
      assert (existsb isStart post = true) by (apply existsb_isStart; eauto).
      congruence.
    + intros Hin%existsb_isDisarmPublished. congruence.
  - intros Hfail%existsb_isPrecheckFailure.
    destruct (mon_run_flags _ _ _ Hrun) as (Hst & Hsp & _ & Hfl).
    unfold mon_init in Hst, Hsp, Hfl. cbn in Hst, Hsp, Hfl. rewrite Hfail in Hfl.
    destruct (mon_run_failed _ _ _ Hrun) as [Hfs Hss]; [done|done|].
    rewrite Hfl in Hfs. cbn in Hfs. split.
    + intros overflow ok Hin.
      assert (existsb isStart evs = true) by (apply existsb_isStart; eauto).
      congruence.
    + intros Hin%existsb_isStop. rewrite Hin in Hsp.
      rewrite (Hss Hsp) in Hfs. done.
  - intros Heq. destruct (mon_run_flags _ _ _ Hrun) as (Hst & Hsp & _).
    unfold mon_init in Hst, Hsp. cbn in Hst, Hsp.
    rewrite <- existsb_isStop, <- existsb_isStart. split; congruence.
Qed.

Section StopAcquisition.

Context {A : Type} (digitizer : DigitizerDriver A).

(** The events of one iteration of the read thread are accepted by the
    automaton, and when the iteration ends [stopAcquisition] was called if
    and only if [startAcquisition] was. *)
Lemma readThreadIteration_accepted (fuel : nat) (s0 : Sys A) :
  Basic (drv s0) ->
  let r := readThreadIteration digitizer fuel s0 in
  exists evs m,
    log r.2 = log s0 ++ evs /\
    mon_run (mon_init (m_requested_rearm_state (drv s0))) evs = Some m /\
    (r.1 = Ok () -> mon_started m = mon_stopped m).
Proof.
  intros Hb r. pose proof (wp_run _ _ _ _ (readThreadIteration_trace digitizer fuel s0 Hb)) as H.
  fold r in H. destruct r.1 as [[]|l|h] eqn:Hr.
  - destruct H as (evs & m & Hlog & Hrun & _ & Heq & _). eauto 10.
  - destruct H as (m & evs & Hlog & Hrun & _). exists evs, m. repeat split; auto. done.
  - destruct H as (m & evs & Hlog & Hrun & _). exists evs, m. repeat split; auto. done.
Qed.

End StopAcquisition.

Lemma Basic_sampleDriver (pre_samples : bool) : Basic (sampleDriver pre_samples).
Proof. intros H. exfalso. apply H. by destruct pre_samples. Defined.

(** ** The restart after an overflow (C3) *)

Lemma countReads_cons (e : Event) (evs : list Event) :
  countReads (e :: evs) = ((if isRead e then 1 else 0) + countReads evs)%Z.
Proof.
  unfold countReads. rewrite filter_cons.
  destruct (isRead e) eqn:He; case_decide; try congruence; cbn [length]; lia.
Qed.





(** While the bursts an overflow left in the buffer are read, every read
    takes one from the number the automaton still allows. *)
Lemma mon_step_drain (m m' : Mon) (e : Event) (budget : Z) :
  mon_step m e = Some m' ->
  mon_drain m = Some budget ->
  isStart e = false ->
  mon_drain m' = Some (budget - (if isRead e then 1 else 0))%Z.
Proof.
  intros He Hd Hs. revert He.
  destruct e as [ok|ok|ok|overflow ok|ok|ok had n|ok| | |s|r|r]; try discriminate;
    cbn; rewrite ?Hd; cbn;
    repeat (match goal with
            | |- context [if ?c then _ else _] => destruct c eqn:?
            end; cbn);
    try discriminate; intros [= <-]; cbn; rewrite ?Hd; f_equal; lia.
Qed.

Lemma mon_run_drain (evs : list Event) :
  forall m m' budget, mon_run m evs = Some m' ->
    mon_drain m = Some budget ->
    existsb isStart evs = false ->
    mon_drain m' = Some (budget - countReads evs)%Z.
Proof.
  induction evs as [|e evs IH]; intros m m' budget.
  - intros [= <-] Hd _. rewrite Hd. unfold countReads. cbn. f_equal. lia.
  - rewrite mon_run_cons. intros (m1 & He & Hrun)%bind_Some Hd.
    cbn [existsb]. intros [Hs Hss]%orb_false_elim.
    rewrite (IH _ _ _ Hrun (mon_step_drain _ _ _ _ He Hd Hs) Hss).
    rewrite countReads_cons. f_equal. lia.
Qed.




(** ** Arm requests during an arming (C6) *)

Section Coalescing.

Context {A : Type} (digitizer : DigitizerDriver A).

(** C6.  While the arm state is not Disarm, a write of 0, 1 or 2 to
    ARM_REQUEST succeeds and makes the written state the pending re-arm
    target, by a call of [requestDisarming]; once disarming was requested
    it changes nothing else but the ARM_REQUEST parameter itself.  When an
    arming ends, the pending re-arm target is the argument of the last call
    of [requestDisarming] (the last such write, or Disarm from
    [requestDisarmingFromDriver]; Disarm when there was none): if it is
    Disarm, Disarm is published and the arm state is Disarm; otherwise
    Disarm is not published at all in the iteration, and a new arming has
    started with the target as its requested state: the arm state is Busy
    and the event that starts the arming is signaled. *)
Theorem arm_request_coalescing :
  (forall (s : Sys A) (value : Z),
     m_arm_state (drv s) <> ArmStateDisarm ->
     value = 0%Z \/ value = 1%Z \/ value = 2%Z ->
     let r := writeInt32 digitizer ARM_REQUEST value s in
     r.1 = Ok asynSuccess /\
     m_requested_rearm_state (drv r.2) = ArmState_of_int value /\
     m_arm_state (drv r.2) <> ArmStateDisarm /\
     (exists evs,
        log r.2 = log s ++ evs ++ [EvRequestDisarming (ArmState_of_int value)]) /\
     (m_disarm_requested (drv s) = true ->
        r.2 = mkSys
                (set_m_requested_rearm_state (ArmState_of_int value)
                   (set_params
                      (setIntegerParam ARM_REQUEST value (params (drv s))) (drv s)))
                (ext s) (log s ++ [EvRequestDisarming (ArmState_of_int value)])
                (observed s) (need_stop_acquisition s))) /\
  (forall (fuel : nat) (s0 : Sys A),
     Basic (drv s0) ->
     let r := readThreadIteration digitizer fuel s0 in
     r.1 = Ok () ->
     exists evs,
       log r.2 = log s0 ++ evs /\
       ((exists evs',
           evs = evs' ++ [EvSetArmState ArmStateDisarm] /\
           pendingRearm (m_requested_rearm_state (drv s0)) evs' = ArmStateDisarm /\
           m_arm_state (drv r.2) = ArmStateDisarm) \/
        (exists evs' target,
           evs = evs' ++ [EvSetArmState ArmStateBusy; EvStartArming target] /\
           pendingRearm (m_requested_rearm_state (drv s0)) evs' = target /\
           validRequest target /\
           (EvSetArmState ArmStateDisarm ∉ evs) /\
           m_arm_state (drv r.2) = ArmStateBusy /\
           m_requested_arm_state (drv r.2) = target /\
           m_start_arming_event (drv r.2) = true /\
           m_disarm_requested (drv r.2) = false))).
Proof.
  split.
  - intros s value Harm Hvalue. cbn zeta.
    unfold writeInt32, asynPortDriver_writeInt32, handleArmRequest,
      requestDisarming, setArmState.
    cbn [Nat.eqb ARM_REQUEST ArmState_to_int].
    assert (Hv : negb (value =? 0)%Z && negb (value =? 1)%Z
                 && negb (value =? 2)%Z = false)
      by (destruct Hvalue as [->|[->| ->]]; reflexivity).
    rewrite Hv. run_monad.
    apply ArmState_eqb_neq in Harm. destruct s as [d a l o n]. cbn in *.
    rewrite Harm. cbn. rewrite Harm. cbn.
    destruct (m_disarm_requested d) eqn:Hd; cbn.
    + repeat split; try done.
      * by apply ArmState_eqb_neq.
      * exists []. reflexivity.
    + destruct (m_in_read_loop d); cbn; repeat split; try done.
      * exists [EvSetArmState ArmStateBusy; EvInterruptReading].
        by rewrite <- !app_assoc.
      * exists [EvSetArmState ArmStateBusy]. by rewrite <- !app_assoc.
  - intros fuel s0 Hb r Hok.
    pose proof (wp_run _ _ _ _ (readThreadIteration_trace digitizer fuel s0 Hb)) as H.
    fold r in H. rewrite Hok in H.
    destruct H as (evs & m & Hlog & Hrun & _ & _ & Hend).
    exists evs. split; [done|].
    destruct Hend as [(evs' & -> & Hp & Ha)|(evs' & target & -> & Hp & Hv & Hend)].
    + left. eauto.
    + right. exists evs', target.
      destruct Hend as (Ha & Hr & He & Hd & Hpub).
      repeat split; auto.
      intros Hin%existsb_isDisarmPublished.
      destruct (mon_run_flags _ _ _ Hrun) as (_ & _ & Hpb & _).
      unfold mon_init in Hpb. cbn in Hpb. congruence.
Qed.

End Coalescing.

Lemma arm_request_coalescing_witness :
  (let s := startOfRun (set_m_arm_state ArmStatePostTrigger (sampleDriver true))
              (mkScript 0 []) in
   m_arm_state (drv s) <> ArmStateDisarm /\
   let r := writeInt32 rearmDigitizer ARM_REQUEST 2 s in
   r.1 = Ok asynSuccess /\
   m_requested_rearm_state (drv r.2) = ArmStatePrePostTrigger) /\
  Basic (drv rearmRun) /\
  let r := readThreadIteration rearmDigitizer 20 rearmRun in
  r.1 = Ok () /\
  exists evs,
    log r.2 = log rearmRun ++ evs /\
    ((exists evs',
        evs = evs' ++ [EvSetArmState ArmStateDisarm] /\
        pendingRearm (m_requested_rearm_state (drv rearmRun)) evs' = ArmStateDisarm /\
        m_arm_state (drv r.2) = ArmStateDisarm) \/
     (exists evs' target,
        evs = evs' ++ [EvSetArmState ArmStateBusy; EvStartArming target] /\
        pendingRearm (m_requested_rearm_state (drv rearmRun)) evs' = target /\
        validRequest target /\
        (EvSetArmState ArmStateDisarm ∉ evs) /\
        m_arm_state (drv r.2) = ArmStateBusy /\
        m_requested_arm_state (drv r.2) = target /\
        m_start_arming_event (drv r.2) = true /\
        m_disarm_requested (drv r.2) = false)).
Proof.
  split; [|split; [apply Basic_sampleDriver|]].
  - cbn zeta.
    assert (Harm : m_arm_state (drv (startOfRun
                     (set_m_arm_state ArmStatePostTrigger (sampleDriver true))
                     (mkScript 0 []))) <> ArmStateDisarm) by discriminate.
    split; [exact Harm|].
    destruct (proj1 (arm_request_coalescing rearmDigitizer) _ 2%Z Harm
                (or_intror (or_intror eq_refl))) as (Hok & Hrearm & _).
    split; [exact Hok|exact Hrearm].
  - cbn zeta. split; [by vm_compute|].
    apply (proj2 (arm_request_coalescing rearmDigitizer) 20%nat rearmRun).
    + apply Basic_sampleDriver.
    + by vm_compute.
Defined.

(** In the run that is re-armed, the last of the three requests wins: the
    new arming is started with PrePostTrigger. *)
Lemma rearmRun_last_request_wins :
  let r := readThreadIteration rearmDigitizer 20 rearmRun in
  exists evs,
    log r.2 = evs ++ [EvRequestDisarming ArmStatePrePostTrigger;
                      EvRequestDisarming ArmStateDisarm;
                      EvRequestDisarming ArmStatePrePostTrigger;
                      EvStopAcquisition;
                      EvSetArmState ArmStateBusy;
                      EvStartArming ArmStatePrePostTrigger] /\
    m_requested_arm_state (drv r.2) = ArmStatePrePostTrigger.
Proof.
  cbn zeta.
  exists (take 10 (log (readThreadIteration rearmDigitizer 20 rearmRun).2)).
  split; by vm_compute.
Qed.

(** ** Submitting channel data (C7, C10) *)

Lemma submitArray_calls (array : nat) (channel : Z) (sample_rate : float)
  (compl_cb : option TRArrayCompletionCallback) (c c' : TRChannelsDriver) :
  submitArray array channel sample_rate compl_cb c = Some c' ->
  submitArrayCalls c' = submitArrayCalls c ++ [(array, channel, sample_rate)].
Proof.
  unfold submitArray. destruct (negb (channel <? maxAddr c)%Z); [done|].
  cbn zeta.
  destruct compl_cb as [cb|];
    [destruct (pNDArrayPool _ !! array) as [a|]; [destruct (cb a) as [submit a']|]|];
    repeat match goal with
           | |- context [match ?x with _ => _ end] => destruct x
           end; intros [= <-]; reflexivity.
Qed.

Lemma allocateArray_calls (data_type num_samples : Z) (c : TRChannelsDriver) :
  submitArrayCalls (allocateArray data_type num_samples c).2 = submitArrayCalls c.
Proof.
  unfold allocateArray.
  repeat match goal with
         | |- context [match ?x with _ => _ end] => destruct x
         end; reflexivity.
Qed.

(** The calls of [submitArray] so far, as the main driver sees them. *)
Definition submitted (driver : TRBaseDriver) : list (nat * Z * float) :=
  submitArrayCalls (m_channels_driver driver).

Lemma submit_cases (channel unique_id : Z) (timestamp : float) (epics_ts : Z * Z)
  (compl_cb : option TRArrayCompletionCallback) (o o' : TRChannelDataSubmit)
  (driver driver' : TRBaseDriver) :
  TRChannelDataSubmit_submit channel unique_id timestamp epics_ts compl_cb o driver
    = Some (o', driver') ->
  m_array o' = None /\
  m_allowing_data driver' = m_allowing_data driver /\
  ((submitted driver' = submitted driver /\
    (m_array o = None \/ m_allowing_data driver = false)) \/
   (exists array,
      m_array o = Some array /\ m_allowing_data driver = true /\
      submitted driver' =
        submitted driver ++ [(array, channel, m_rate_for_display driver)])).
Proof.
  unfold TRChannelDataSubmit_submit, submitted.
  destruct (negb _); [done|].
  destruct (m_array o) as [array|] eqn:Harray.
  - cbn zeta. destruct (negb _); [done|].
    destruct (m_allowing_data driver) eqn:Hallow.
    + destruct (submitArray _ _ _ _ _) as [c'|] eqn:Hsubmit; [|done].
      cbn. intros [= <- <-]. cbn. split; [done|]. split; [done|].
      right. exists array. apply submitArray_calls in Hsubmit. by rewrite Hsubmit.
    + intros [= <- <-]. cbn. rewrite Hallow. auto 6.
  - intros [= <- <-]. auto 6.
Qed.

(** The number of arrays the object holds. *)
Definition holding (o : TRChannelDataSubmit) : nat :=
  match m_array o with
  | Some _ => 1
  | None => 0
  end.

Lemma runSubmitOps_submitted (ops : list SubmitOp) (o o' : TRChannelDataSubmit)
  (driver driver' : TRBaseDriver) (allocated allocated' : nat) :
  runSubmitOps ops o driver allocated = Some (o', driver', allocated') ->
  (length (submitted driver') + holding o' + allocated <=
   length (submitted driver) + holding o + allocated')%nat.
Proof.
  unfold holding. revert o driver allocated.
  induction ops as [|op ops IH]; intros o driver allocated; cbn [runSubmitOps].
  - intros [= <- <- <-]. lia.
  - destruct op as [channel_num data_type num_samples
                   |channel unique_id timestamp epics_ts compl_cb| |allowing_data].
    + destruct (TRChannelDataSubmit_allocateArray _ _ _ _ _)
        as [[[ok o1] driver1]|] eqn:Halloc; [|done].
      cbn. intros Hrun%IH. revert Halloc. unfold TRChannelDataSubmit_allocateArray.
      case_bool_decide as Hnone; [|done]. cbn [negb].
      destruct (negb _); [done|].
      pose proof (allocateArray_calls data_type num_samples (m_channels_driver driver))
        as Hcalls.
      destruct (allocateArray _ _ _) as [[array|] c1]; intros [= <- <- <-];
        unfold submitted in *; cbn in *; rewrite Hnone, ?Hcalls in *; cbn in *; lia.
    + destruct (TRChannelDataSubmit_submit _ _ _ _ _ _ _) as [[o1 driver1]|] eqn:Hsubmit;
        [|done].
      cbn. intros Hrun%IH.
      destruct (submit_cases _ _ _ _ _ _ _ _ _ Hsubmit)
        as (Hnone & _ & [(Hsame & _)|(array & Harray & _ & Hmore)]).
      * rewrite Hnone, Hsame in Hrun. destruct (m_array o); cbn in *; lia.
      * rewrite Hnone, Hmore, length_app in Hrun. rewrite Harray. cbn in *. lia.
    + unfold TRChannelDataSubmit_releaseArray.
      destruct (m_array o) as [array|] eqn:Harray; intros Hrun%IH.
      * unfold submitted in *. cbn in *. lia.
      * rewrite Harray in Hrun. lia.
    + intros Hrun%IH. unfold submitted in *. cbn in *. lia.
Qed.

(** C10.  For a channel in range (the function asserts it), [submit] on an
    object that holds no array returns with the object and the driver, and
    so its channels driver, as they were; every [submit] that returns
    leaves the object without an array; and over any sequence of calls on
    an object that starts without an array, the number of calls of
    [submitArray] is at most the number of successful [allocateArray]. *)
Theorem submit_without_array :
  (forall channel unique_id timestamp epics_ts compl_cb o driver,
     m_array o = None ->
     (0 <= channel < m_num_channels driver)%Z ->
     TRChannelDataSubmit_submit channel unique_id timestamp epics_ts compl_cb o driver
       = Some (o, driver)) /\
  (forall channel unique_id timestamp epics_ts compl_cb o driver o' driver',
     TRChannelDataSubmit_submit channel unique_id timestamp epics_ts compl_cb o driver
       = Some (o', driver') ->
     m_array o' = None) /\
  (forall ops o driver allocated o' driver' allocated',
     m_array o = None ->
     runSubmitOps ops o driver allocated = Some (o', driver', allocated') ->
     (allocated <= allocated')%nat /\
     (length (submitted driver') - length (submitted driver)
        <= allocated' - allocated)%nat).
Proof.
  split; [|split].
  - intros channel unique_id timestamp epics_ts compl_cb o driver Hnone Hchannel.
    unfold TRChannelDataSubmit_submit. rewrite Hnone.
    replace ((0 <=? channel)%Z && (channel <? m_num_channels driver)%Z) with true
      by (symmetry; apply andb_true_iff; lia).
    reflexivity.
  - intros channel unique_id timestamp epics_ts compl_cb o driver o' driver' Hsubmit.
    by destruct (submit_cases _ _ _ _ _ _ _ _ _ Hsubmit).
  - intros ops o driver allocated o' driver' allocated' Hnone Hrun.
    pose proof (runSubmitOps_submitted _ _ _ _ _ _ _ Hrun) as Hle.
    unfold holding in Hle. rewrite Hnone in Hle.
    assert (allocated <= allocated')%nat; [|destruct (m_array o'); lia].
    clear Hle Hnone. revert o driver allocated Hrun.
    induction ops as [|op ops IH]; intros o driver allocated; cbn [runSubmitOps].
    + intros [= <- <- <-]. lia.
    + destruct op as [channel_num data_type num_samples
                     |channel unique_id timestamp epics_ts compl_cb| |allowing_data].
      * destruct (TRChannelDataSubmit_allocateArray _ _ _ _ _)
          as [[[ok o1] driver1]|]; [|done].
        cbn. intros Hrun%IH. destruct ok; lia.
      * destruct (TRChannelDataSubmit_submit _ _ _ _ _ _ _) as [[o1 driver1]|]; [|done].
        cbn. by intros Hrun%IH.
      * destruct (TRChannelDataSubmit_releaseArray o driver). by intros Hrun%IH.
      * by intros Hrun%IH.
Qed.

Lemma submit_without_array_witness :
  (m_array TRChannelDataSubmit_new = None /\
   (0 <= 0 < m_num_channels (sampleDriver false))%Z /\
   TRChannelDataSubmit_submit 0 1 0%float (0, 0)%Z None TRChannelDataSubmit_new
     (sampleDriver false) = Some (TRChannelDataSubmit_new, sampleDriver false)) /\
  (exists o' driver' allocated',
     runSubmitOps sampleSubmitOps TRChannelDataSubmit_new (sampleDriver false) 0
       = Some (o', driver', allocated') /\
     (length (submitted driver') - length (submitted (sampleDriver false))
        <= allocated' - 0)%nat).
Proof.
  destruct submit_without_array as (Hnoop & _ & Hcount).
  assert (Hnone : m_array TRChannelDataSubmit_new = None) by reflexivity.
  assert (Hchannel : (0 <= 0 < m_num_channels (sampleDriver false))%Z)
    by (change (m_num_channels (sampleDriver false)) with 2%Z; lia).
  split.
  - split; [exact Hnone|]. split; [exact Hchannel|].
    exact (Hnoop 0%Z 1%Z 0%float (0, 0)%Z None _ _ Hnone Hchannel).
  - destruct (runSubmitOps sampleSubmitOps TRChannelDataSubmit_new (sampleDriver false) 0)
      as [[[o' driver'] allocated']|] eqn:Hrun; [|by vm_compute in Hrun].
    exists o', driver', allocated'. split; [reflexivity|].
    exact (proj2 (Hcount _ _ _ _ _ _ _ Hnone Hrun)).
Defined.

(** In the sample sequence of calls two arrays are allocated and one is
    submitted: the second is released because data is not allowed. *)
Lemma sampleSubmitOps_run :
  exists o' driver',
    runSubmitOps sampleSubmitOps TRChannelDataSubmit_new (sampleDriver false) 0
      = Some (o', driver', 2%nat) /\
    m_array o' = None /\
    length (submitted driver') = 1%nat.
Proof.
  destruct (runSubmitOps sampleSubmitOps TRChannelDataSubmit_new (sampleDriver false) 0)
    as [[[o' driver'] allocated']|] eqn:Hrun; [|by vm_compute in Hrun].
  vm_compute in Hrun. injection Hrun as <- <- <-.
  eexists _, _. split; [reflexivity|]. split; reflexivity.
Qed.

(** ** The number of bursts of an arming with overflows (C1) *)

Definition isProcessed (e : Event) : bool :=
  match e with
  | EvProcessBurstData true => true
  | _ => false
  end.

Definition countProcessed (evs : list Event) : Z :=
  Z.of_nat (length (filter (fun e => isProcessed e = true) evs)).

Lemma countProcessed_app (evs1 evs2 : list Event) :
  countProcessed (evs1 ++ evs2) = (countProcessed evs1 + countProcessed evs2)%Z.
Proof. unfold countProcessed. rewrite filter_app, length_app. lia. Qed.

Lemma countProcessed_nonneg (evs : list Event) : (0 <= countProcessed evs)%Z.
Proof. unfold countProcessed. lia. Qed.

Lemma countReads_app (evs1 evs2 : list Event) :
  countReads (evs1 ++ evs2) = (countReads evs1 + countReads evs2)%Z.
Proof. unfold countReads. rewrite filter_app, length_app. lia. Qed.

(** A handler call that is no arm request. *)
Definition benign (act : Action) : Prop :=
  match act with
  | WriteInt32 reason _ => reason <> ARM_REQUEST
  | RequestDisarmingFromDriver => False
  | _ => True
  end.

(** The hardware cooperates and nobody asks to disarm: the four calls of
    the claim succeed, an overflow is reported with a positive number of
    buffered bursts, as [checkOverflow] must, and the other threads make no
    arm request. *)
Record Cooperative {A} (digitizer : DigitizerDriver A) : Prop := mkCooperative {
  coop_startAcquisition : forall overflow d a,
    (startAcquisition digitizer overflow d a).1 = true;
  coop_readBurst : forall d a, (readBurst digitizer d a).1 = true;
  coop_checkOverflow : forall d a,
    (checkOverflow digitizer d a).1.1.1 = true /\
    ((checkOverflow digitizer d a).1.1.2 = true ->
     (0 < (checkOverflow digitizer d a).1.2)%Z);
  coop_processBurstData : forall d a, (processBurstData digitizer d a).1 = true;
  coop_otherThreads : forall d a, Forall benign (otherThreads digitizer d a).1;
}.

Section BurstCount.

Context {A : Type} (digitizer : DigitizerDriver A).
Hypothesis Hcoop : Cooperative digitizer.

(** [ends m Q s]: the result and the final state of the run of [m] from
    [s] satisfy [Q]. *)
Definition ends {X} (m : M A X) (Q : Res X -> Sys A -> Prop) (s : Sys A) : Prop :=
  Q (m s).1 (m s).2.

Lemma ends_bind {X Y} (m : M A X) (k : X -> M A Y) Q s :
  ends m (fun r s' => exists x, r = Ok x /\ ends (k x) Q s') s ->
  ends (m ≫= k) Q s.
Proof.
  unfold ends, mbind, M_bind. destruct (m s) as [r s']. cbn.
  by intros (x & -> & H).
Qed.

(** Nothing that matters here has changed: no event, and no request to
    disarm. *)
Definition Calm (s s' : Sys A) : Prop :=
  log s' = log s /\
  m_disarm_requested (drv s') = m_disarm_requested (drv s).

Lemma Calm_refl s : Calm s s.
Proof. done. Qed.

Lemma Calm_trans s1 s2 s3 : Calm s1 s2 -> Calm s2 s3 -> Calm s1 s3.
Proof. intros [? ?] [? ?]. split; congruence. Qed.

Lemma runAction_benign (act : Action) (s : Sys A) :
  benign act ->
  exists s', runAction digitizer act s = (Ok (), s') /\ Calm s s'.
Proof.
  destruct act as [reason value|reason value| |value|info]; cbn [benign];
    unfold runAction.
  - intros Hne%Nat.eqb_neq. unfold writeInt32. rewrite Hne.
    unfold asynPortDriver_writeInt32. run_monad.
    destruct (negb (checkProtectedParamWrite reason (drv s))); eexists; split;
      try reflexivity; done.
  - intros _. unfold writeFloat64, asynPortDriver_writeFloat64. run_monad.
    destruct (Nat.eqb _ _).
    + cbn. destruct (requestedSampleRateChanged _ _ _) as [[rate|] a'];
        eexists; (split; [reflexivity|done]).
    + destruct (negb (checkProtectedParamWrite reason (drv s))); eexists; split;
        try reflexivity; done.
  - done.
  - intros _. run_monad. eexists; split; [reflexivity|done].
  - intros _. run_monad. eexists; split; [reflexivity|done].
Qed.

Lemma runActions_benign (acts : list Action) (s : Sys A) :
  Forall benign acts ->
  exists s', runActions digitizer acts s = (Ok (), s') /\ Calm s s'.
Proof.
  intros Hacts. revert s.
  induction Hacts as [|act acts Hact _ IH]; intros s; cbn [runActions].
  - exists s. split; [reflexivity|apply Calm_refl].
  - destruct (runAction_benign act s Hact) as (s1 & Hrun & Hcalm).
    destruct (IH s1) as (s2 & Hrun2 & Hcalm2).
    exists s2. split; [|by eapply Calm_trans].
    unfold mbind, M_bind. by rewrite Hrun.
Qed.

Lemma lock_benign (s : Sys A) :
  exists s', lock digitizer s = (Ok (), s') /\ Calm s s'.
Proof using Hcoop.
  unfold lock. run_monad.
  pose proof (coop_otherThreads _ Hcoop (drv s) (ext s)) as Hacts.
  destruct (otherThreads digitizer (drv s) (ext s)) as [acts a']. cbn in Hacts.
  destruct (runActions_benign acts
              (mkSys (drv s) a' (log s) (observed s) (need_stop_acquisition s)) Hacts)
    as (s' & Hrun & Hcalm).
  exists s'. split; [|exact Hcalm]. by rewrite Hrun.
Qed.

Lemma ends_lock {Y} (k : unit -> M A Y) Q s :
  (forall s', Calm s s' -> ends (k ()) Q s') ->
  ends (lock digitizer ≫= k) Q s.
Proof using Hcoop.
  intros Hk. destruct (lock_benign s) as (s' & Hlock & Hcalm).
  unfold ends, mbind, M_bind. rewrite Hlock. by apply Hk.
Qed.

Lemma ends_mono {X} (m : M A X) (Q Q' : Res X -> Sys A -> Prop) s :
  ends m Q s -> (forall r s', Q r s' -> Q' r s') -> ends m Q' s.
Proof. unfold ends. auto. Qed.

Lemma ends_call {X Y} (f : TRBaseDriver -> A -> X * A) (k : X -> M A Y) Q s :
  ends (k (f (drv s) (ext s)).1) Q
    (mkSys (drv s) (f (drv s) (ext s)).2 (log s) (observed s)
       (need_stop_acquisition s)) ->
  ends (call f ≫= k) Q s.
Proof. unfold ends, mbind, M_bind, call. by destruct (f (drv s) (ext s)). Qed.

Lemma ends_emit {Y} (e : Event) (k : unit -> M A Y) Q s :
  ends (k ()) Q
    (mkSys (drv s) (ext s) (log s ++ [e]) (observed s) (need_stop_acquisition s)) ->
  ends (emit e ≫= k) Q s.
Proof. done. Qed.

Lemma ends_gets {X Y} (f : TRBaseDriver -> X) (k : X -> M A Y) Q s :
  ends (k (f (drv s))) Q s -> ends (gets f ≫= k) Q s.
Proof. done. Qed.

Lemma ends_modify {Y} (f : TRBaseDriver -> TRBaseDriver) (k : unit -> M A Y) Q s :
  ends (k ()) Q
    (mkSys (f (drv s)) (ext s) (log s) (observed s) (need_stop_acquisition s)) ->
  ends (modify f ≫= k) Q s.
Proof. done. Qed.

Lemma ends_unlock {Y} (k : unit -> M A Y) Q s :
  ends (k ()) Q
    (mkSys (drv s) (ext s) (log s) (observed s ++ [drv s]) (need_stop_acquisition s)) ->
  ends (unlock ≫= k) Q s.
Proof. done. Qed.

Lemma ends_set_need_stop_acquisition {Y} (b : bool) (k : unit -> M A Y) Q s :
  ends (k ()) Q (mkSys (drv s) (ext s) (log s) (observed s) b) ->
  ends (set_need_stop_acquisition b ≫= k) Q s.
Proof. done. Qed.

Lemma ends_ret {X} (x : X) (Q : Res X -> Sys A -> Prop) s :
  Q (Ok x) s -> ends (mret x) Q s.
Proof. done. Qed.

Lemma ends_ret_bind {X Y} (x : X) (k : X -> M A Y) Q s :
  ends (k x) Q s -> ends (mret x ≫= k) Q s.
Proof. done. Qed.

Lemma ends_goto {X} (l : Label) (Q : Res X -> Sys A -> Prop) s :
  Q (Goto l) s -> ends (goto l) Q s.
Proof. done. Qed.

Lemma ends_checkDisarmRequestedUnlocked {Y} (k : bool -> M A Y) Q s :
  m_disarm_requested (drv s) = false ->
  (forall s', Calm s s' -> ends (k false) Q s') ->
  ends (checkDisarmRequestedUnlocked digitizer ≫= k) Q s.
Proof using Hcoop.
  intros Hd Hk. apply ends_bind. unfold checkDisarmRequestedUnlocked.
  apply ends_lock. intros s1 [Hlog Hd1].
  apply ends_gets, ends_unlock, ends_ret.
  eexists. split; [reflexivity|]. rewrite Hd1, Hd. apply Hk. by split.
Qed.

Lemma ends_maybeSleepForTesting {Y} (k : unit -> M A Y) Q s :
  (forall s', Calm s s' -> ends (k ()) Q s') ->
  ends (maybeSleepForTesting digitizer ≫= k) Q s.
Proof using Hcoop.
  intros Hk. apply ends_bind. unfold maybeSleepForTesting.
  apply ends_lock. intros s1 [Hlog Hd1].
  unfold ends. cbn. eexists. split; [reflexivity|]. apply Hk. by split.
Qed.

(** What a run of the burst loop has done when it ends. *)
Definition BurstsRead (s : Sys A) (overflow : bool) (cur rem : Z)
  (r : Res (bool * Z)) (s' : Sys A) : Prop :=
  exists overflow' evs,
    r = Ok (overflow', (rem - countProcessed evs)%Z) /\
    log s' = log s ++ evs /\
    m_disarm_requested (drv s') = false /\
    (countProcessed evs <= cur)%Z /\
    (0 < cur -> 0 < countProcessed evs)%Z /\
    (overflow' = false -> countProcessed evs = cur) /\
    (overflow = true -> overflow' = true) /\
    countReads evs = countProcessed evs /\
    (forall o k, EvStartAcquisition o k ∉ evs).

Lemma burstLoop_count (fuel : nat) :
  forall overflow cur rem s,
    m_disarm_requested (drv s) = false ->
    (0 <= cur <= rem)%Z ->
    (Z.to_nat cur <= fuel)%nat ->
    ends (burstLoop digitizer fuel overflow cur rem) (BurstsRead s overflow cur rem) s.
Proof using Hcoop.
  induction fuel as [|fuel IH]; intros overflow cur rem s Hd Hcur Hfuel.
  - assert (cur = 0%Z) as -> by lia. cbn. apply ends_ret.
    exists overflow, []. rewrite app_nil_r. cbn.
    repeat split; try done; try lia. f_equal. f_equal. unfold countProcessed. cbn. lia.
    intros o k Hin. by apply elem_of_nil in Hin.
  - cbn [burstLoop]. destruct (cur =? 0)%Z eqn:Hzero.
    + apply Z.eqb_eq in Hzero as ->. apply ends_ret.
      exists overflow, []. rewrite app_nil_r. cbn.
      repeat split; try done; try lia. f_equal. f_equal. unfold countProcessed. cbn. lia.
      intros o k Hin. by apply elem_of_nil in Hin.
    + apply Z.eqb_neq in Hzero.
      apply ends_call. rewrite (coop_readBurst _ Hcoop). apply ends_emit. cbn [negb].
      apply ends_checkDisarmRequestedUnlocked; [done|].
      intros s1 [Hlog1 Hd1]. cbn in Hlog1, Hd1.
      match goal with
      | |- ends (_ ≫= ?cont) _ _ =>
          assert (Hrest : forall overflow1 cur1 evs1 s2,
                    log s2 = log s1 ++ evs1 ->
                    m_disarm_requested (drv s2) = false ->
                    (1 <= cur1 <= cur)%Z ->
                    (overflow1 = false -> cur1 = cur) ->
                    (overflow = true -> overflow1 = true) ->
                    countProcessed evs1 = 0%Z -> countReads evs1 = 0%Z ->
                    (forall o k, EvStartAcquisition o k ∉ evs1) ->
                    ends (cont (overflow1, cur1)) (BurstsRead s overflow cur rem) s2)
      end.
      { intros overflow1 cur1 evs1 s2 Hlog2 Hd2 Hcur1 Hov1 Hmono1 Hp1 Hr1 Hns1.
        cbn beta iota.
        apply ends_call. rewrite (coop_processBurstData _ Hcoop).
        apply ends_emit. cbn [negb].
        apply ends_maybeSleepForTesting. intros s3 [Hlog3 Hd3]. cbn in Hlog3, Hd3.
        replace (0 <? cur1)%Z with true by (symmetry; apply Z.ltb_lt; lia).
        replace (0 <? rem)%Z with true by (symmetry; apply Z.ltb_lt; lia).
        eapply ends_mono; [apply IH; [congruence|lia|lia]|].
        intros r s' (overflow' & evs' & -> & Hlog' & Hd' & Hle & Hpos & Hov & Hmono
                     & Hreads & Hns).
        exists overflow',
          ([EvReadBurst true] ++ evs1 ++ [EvProcessBurstData true] ++ evs').
        pose proof (countProcessed_nonneg evs') as Hnonneg.
        rewrite !countProcessed_app, !countReads_app, Hp1, Hr1, Hreads.
        change (countProcessed [EvReadBurst true]) with 0%Z.
        change (countProcessed [EvProcessBurstData true]) with 1%Z.
        change (countReads [EvReadBurst true]) with 1%Z.
        change (countReads [EvProcessBurstData true]) with 0%Z.
        split; [do 2 f_equal; lia|].
        split; [rewrite Hlog', Hlog3, Hlog2, Hlog1; by rewrite <- !app_assoc|].
        split; [done|]. split; [lia|]. split; [lia|].
        split; [intros ->; destruct overflow1; [by discriminate (Hmono eq_refl)|];
                specialize (Hov eq_refl); specialize (Hov1 eq_refl); lia|].
        split; [auto|]. split; [lia|].
        intros o k Hin. rewrite !elem_of_app in Hin.
        destruct Hin as [Hin|[Hin|[Hin|Hin]]].
        - apply list_elem_of_singleton in Hin. discriminate.
        - by apply Hns1 in Hin.
        - apply list_elem_of_singleton in Hin. discriminate.
        - by apply Hns in Hin. }
      apply ends_bind. destruct overflow; cbn [negb].
      * apply ends_ret. eexists. split; [reflexivity|].
        apply (Hrest true cur []); try done; try lia; try (cbn; congruence).
        -- by rewrite app_nil_r.
        -- intros o k Hin. by apply elem_of_nil in Hin.
      * apply ends_call.
        destruct (coop_checkOverflow _ Hcoop (drv s1) (ext s1)) as [Hok Hnbb].
        destruct (checkOverflow digitizer (drv s1) (ext s1)) as [[[ok had] nbb] a1].
        cbn in Hok, Hnbb. subst ok. cbn [fst snd]. apply ends_emit. cbn [negb].
        destruct had.
        -- specialize (Hnbb eq_refl).
           replace (0 <? nbb)%Z with true by (symmetry; apply Z.ltb_lt; lia).
           cbn [assert]. apply ends_bind, ends_ret. eexists. split; [reflexivity|].
           apply ends_ret. eexists. split; [reflexivity|].
           replace (cur <? 0)%Z with false by (symmetry; apply Z.ltb_ge; lia).
           apply (Hrest true (cur `min` nbb)%Z [EvCheckOverflow true true nbb]);
             try done; try lia; try (cbn; congruence).
           intros o k Hin. apply list_elem_of_singleton in Hin. discriminate.
        -- apply ends_ret. eexists. split; [reflexivity|].
           apply (Hrest false cur [EvCheckOverflow true false nbb]);
             try done; try lia; try (cbn; congruence).
           intros o k Hin. apply list_elem_of_singleton in Hin. discriminate.
Qed.

(** What a run of the overflow recovery loop has done when it ends. *)
Definition AllRead (s : Sys A) (rem : Z) (r : Res Empty_set) (s' : Sys A) : Prop :=
  r = Goto stopped /\
  exists evs,
    log s' = log s ++ evs /\
    countProcessed evs = rem /\
    countReads evs = rem /\
    m_disarm_requested (drv s') = false.

Lemma overflowLoop_count (fuel burstFuel : nat) :
  forall overflow rem s,
    m_disarm_requested (drv s) = false ->
    (0 < rem)%Z ->
    (Z.to_nat rem <= fuel)%nat ->
    (Z.to_nat rem <= burstFuel)%nat ->
    ends (overflowLoop digitizer fuel burstFuel overflow rem) (AllRead s rem) s.
Proof using Hcoop.
  induction fuel as [|fuel IH]; intros overflow rem s Hd Hrem Hfuel Hburst; [lia|].
  cbn [overflowLoop].
  apply ends_gets. rewrite Hd.
  apply ends_modify, ends_unlock, ends_set_need_stop_acquisition, ends_call.
  rewrite (coop_startAcquisition _ Hcoop). apply ends_emit. cbn [negb].
  apply ends_lock. intros s1 [Hlog1 Hd1]. cbn in Hlog1, Hd1.
  apply ends_gets. rewrite Hd1, Hd.
  apply ends_bind.
  assert (Harm : exists evs1 s2,
            (if negb overflow
             then requested_arm_state ← gets m_requested_arm_state;
                  setArmState requested_arm_state
             else mret ()) s1 = (Ok (), s2) /\
            log s2 = log s1 ++ evs1 /\
            m_disarm_requested (drv s2) = false /\
            countProcessed evs1 = 0%Z /\ countReads evs1 = 0%Z).
  { destruct overflow; cbn [negb].
    - exists [], s1. rewrite app_nil_r. repeat split; try done. congruence.
    - eexists [_], _. unfold setArmState. run_monad.
      repeat split; try done. cbn. congruence. }
  destruct Harm as (evs1 & s2 & Harm & Hlog2 & Hd2 & Hp2 & Hr2).
  unfold ends at 1. rewrite Harm. cbn [fst snd].
  eexists. split; [reflexivity|].
  apply ends_modify, ends_unlock, ends_bind.
  eapply ends_mono; [apply burstLoop_count; [exact Hd2|lia|lia]|].
  intros r s3 (overflow' & evs3 & -> & Hlog3 & Hd3 & Hle & Hpos & Hov & _ & Hreads & _).
  cbn in Hlog3. eexists. split; [reflexivity|].
  specialize (Hpos Hrem). cbn beta iota.
  destruct (rem - countProcessed evs3 =? 0)%Z eqn:Hzero.
  - apply Z.eqb_eq in Hzero. apply ends_goto. split; [done|].
    exists ([EvStartAcquisition overflow true] ++ evs1 ++ evs3).
    rewrite !countProcessed_app, !countReads_app, Hp2, Hr2, Hreads.
    change (countProcessed [EvStartAcquisition overflow true]) with 0%Z.
    change (countReads [EvStartAcquisition overflow true]) with 0%Z.
    split; [rewrite Hlog3, Hlog2, Hlog1; by rewrite <- !app_assoc|].
    split; [lia|]. split; [lia|done].
  - apply Z.eqb_neq in Hzero.
    destruct overflow'; [|specialize (Hov eq_refl); lia].
    cbn [assert]. apply ends_bind, ends_ret. eexists. split; [reflexivity|].
    apply ends_lock. intros s4 [Hlog4 Hd4].
    apply ends_modify.
    eapply ends_mono; [apply IH; [cbn; congruence|lia|lia|lia]|].
    intros r s5 (-> & evs5 & Hlog5 & Hp5 & Hr5 & Hd5). cbn in Hlog5.
    split; [done|].
    exists ([EvStartAcquisition overflow true] ++ evs1 ++ evs3 ++ evs5).
    rewrite !countProcessed_app, !countReads_app, Hp2, Hr2, Hreads, Hp5, Hr5.
    change (countProcessed [EvStartAcquisition overflow true]) with 0%Z.
    change (countReads [EvStartAcquisition overflow true]) with 0%Z.
    split; [rewrite Hlog5, Hlog4, Hlog3, Hlog2, Hlog1; by rewrite <- !app_assoc|].
    split; [lia|]. split; [lia|done].
Qed.

Lemma wp_bind_any {X Y} (m : M A X) (k : X -> M A Y) (Q : Y -> Sys A -> Prop) s :
  (forall x s', wp (k x) Q (fun _ => True) s') ->
  wp (m ≫= k) Q (fun _ => True) s.
Proof.
  intros Hk. apply wp_bind. unfold wp at 1.
  destruct (m s) as [[x|l|h] s']; auto.
Qed.

(** [remainingBursts] starts as the snapshot of NUM_BURSTS, or as -1 when
    that is 0. *)
Lemma prepareArming_remainingBursts (s : Sys A) :
  wp (prepareArming digitizer)
    (fun remainingBursts s' =>
       remainingBursts =
         let num_bursts := getSnapshot (m_param_num_bursts (drv s')) in
         if (num_bursts =? 0)%Z then (-1)%Z else num_bursts)
    (fun _ => True) s.
Proof.
  unfold prepareArming.
  repeat first
    [ match goal with
      | |- wp (gets _ ≫= _) _ _ _ => exact eq_refl
      end
    | apply wp_bind_any; intros ? ?
    | match goal with
      | |- wp (let '(_, _) := ?x in _) _ _ _ => destruct x
      | |- wp (if ?b then _ else _) _ _ _ => destruct b
      end ];
    try done.
Qed.

(** C1.  The loop over the acquisitions of an arming starts with the
    snapshot of NUM_BURSTS as [remainingBursts].  When that is K > 0, every
    call of [startAcquisition], [readBurst], [checkOverflow] and
    [processBurstData] succeeds, overflows are reported with a positive
    number of buffered bursts and nobody requests disarming, the loop ends,
    however often a buffer overflow makes it start acquisition again, by
    the jump to [stopped], and has then read and processed exactly K
    bursts. *)
Theorem overflow_preserves_burst_count (fuel burstFuel : nat) (K : Z) (s : Sys A) :
  (forall s0 remainingBursts,
     (prepareArming digitizer s0).1 = Ok remainingBursts ->
     remainingBursts =
       let num_bursts :=
         getSnapshot (m_param_num_bursts (drv (prepareArming digitizer s0).2)) in
       if (num_bursts =? 0)%Z then (-1)%Z else num_bursts) /\
  ((0 < K)%Z ->
   (Z.to_nat K <= fuel)%nat ->
   (Z.to_nat K <= burstFuel)%nat ->
   m_disarm_requested (drv s) = false ->
   let r := overflowLoop digitizer fuel burstFuel false K s in
   r.1 = Goto stopped /\
   exists evs,
     log r.2 = log s ++ evs /\
     countProcessed evs = K /\
     countReads evs = K).
Proof using Hcoop.
  split.
  - intros s0 remainingBursts Hok.
    pose proof (wp_run _ _ _ _ (prepareArming_remainingBursts s0)) as H.
    by rewrite Hok in H.
  - intros HK Hfuel Hburst Hd r.
    destruct (overflowLoop_count fuel burstFuel false K s Hd HK Hfuel Hburst)
      as (Hstopped & evs & Hlog & Hp & Hr & _).
    split; [exact Hstopped|]. exists evs. auto.
Qed.

End BurstCount.

Lemma Cooperative_unattended (rate : float) (overflow_at : nat)
  (num_buffer_bursts : Z) :
  (0 < num_buffer_bursts)%Z ->
  Cooperative (unattended rate overflow_at num_buffer_bursts).
Proof. intros Hpos. split; cbn; auto. Defined.

Lemma overflow_preserves_burst_count_witness :
  Cooperative (unattended 1000 4 2) /\
  (0 < 10)%Z /\ (Z.to_nat 10 <= 10)%nat /\
  m_disarm_requested (drv armedRun) = false /\
  let r := overflowLoop (unattended 1000 4 2) 10 10 false 10 armedRun in
  r.1 = Goto stopped /\
  exists evs,
    log r.2 = log armedRun ++ evs /\
    countProcessed evs = 10%Z /\
    countReads evs = 10%Z.
Proof.
  assert (Hcoop : Cooperative (unattended 1000 4 2))
    by (apply Cooperative_unattended; lia).
  assert (HK : (0 < 10)%Z) by lia.
  assert (Hfuel : (Z.to_nat 10 <= 10)%nat) by (vm_compute; lia).
  assert (Hd : m_disarm_requested (drv armedRun) = false) by reflexivity.
  split; [exact Hcoop|]. split; [exact HK|]. split; [exact Hfuel|].
  split; [exact Hd|].
  exact (proj2 (overflow_preserves_burst_count _ Hcoop 10 10 10%Z armedRun)
           HK Hfuel Hfuel Hd).
Defined.

(** In that run acquisition is started twice: the digitizer reports an
    overflow at the fourth burst. *)
Lemma armedRun_restarts :
  let r := overflowLoop (unattended 1000 4 2) 10 10 false 10 armedRun in
  length (filter (fun e => isStart e = true) (log r.2)) = 2%nat /\
  countProcessed (log r.2) = 10%Z.
Proof. by vm_compute. Qed.

(** ** The bursts read before the restart (C3) *)








Section Restart.

Context {A : Type} (digitizer : DigitizerDriver A).


End Restart.




(** ** The end of an arming (C2) *)

(** The pending re-arm target is Disarm or one of the two armed states. *)
Definition rearmOK (r : ArmState) : Prop := r = ArmStateDisarm \/ validRequest r.

(** A handler call that asks for disarming when the arm state is not
    Disarm: a write of Disarm, PostTrigger or PrePostTrigger to ARM_REQUEST,
    or [requestDisarmingFromDriver]. *)
Definition disarms (act : Action) : Prop :=
  match act with
  | WriteInt32 reason value =>
      reason = ARM_REQUEST /\ (value = 0 \/ value = 1 \/ value = 2)%Z
  | RequestDisarmingFromDriver => True
  | _ => False
  end.

(** The digitizer and the clients let an arming end.  While the arm state
    is Error the handler calls that get the lock next include a request to
    disarm.  [checkOverflow] reports an overflow with a positive number of
    buffered bursts, as its contract says.  And the digitizer delivers
    finitely many bursts: every successful [readBurst] makes [measure]
    smaller and no other call makes it greater. *)
Record Attended {A} (digitizer : DigitizerDriver A) (measure : A -> nat) : Prop :=
  mkAttended {
  att_disarms : forall d a,
    m_arm_state d = ArmStateError -> Exists disarms (otherThreads digitizer d a).1;
  att_overflow : forall d a,
    (checkOverflow digitizer d a).1.1.1 = true ->
    (checkOverflow digitizer d a).1.1.2 = true ->
    (0 < (checkOverflow digitizer d a).1.2)%Z;
  att_readBurst : forall d a,
    measure (readBurst digitizer d a).2 <= measure a /\
    ((readBurst digitizer d a).1 = true ->
     measure (readBurst digitizer d a).2 < measure a);
  att_requestedSampleRateChanged : forall d a,
    measure (requestedSampleRateChanged digitizer d a).2 <= measure a;
  att_waitForPreconditions : forall d a,
    measure (waitForPreconditions digitizer d a).2 <= measure a;
  att_checkSettings : forall d a,
    measure (checkSettings digitizer d a).2 <= measure a;
  att_startAcquisition : forall overflow d a,
    measure (startAcquisition digitizer overflow d a).2 <= measure a;
  att_checkOverflow : forall d a,
    measure (checkOverflow digitizer d a).2 <= measure a;
  att_processBurstData : forall d a,
    measure (processBurstData digitizer d a).2 <= measure a;
  att_interruptReading : forall d a,
    measure (interruptReading digitizer d a) <= measure a;
  att_stopAcquisition : forall d a,
    measure (stopAcquisition digitizer d a) <= measure a;
  att_otherThreads : forall d a,
    measure (otherThreads digitizer d a).2 <= measure a;
}.

Section Progress.

Context {A : Type} (digitizer : DigitizerDriver A) (measure : A -> nat).
Hypothesis Hatt : Attended digitizer measure.

(** During an arming: [completeInit] was called, the arm state is not
    Disarm, the pending re-arm target is sound, the target of the arming is
    not Disarm and the digitizer delivers at most [bound] more bursts. *)
Definition Going (bound : nat) (s : Sys A) : Prop :=
  m_init_completed (drv s) = true /\
  m_arm_state (drv s) <> ArmStateDisarm /\
  rearmOK (m_requested_rearm_state (drv s)) /\
  m_requested_arm_state (drv s) <> ArmStateDisarm /\
  measure (ext s) <= bound.

(** The disarm event is signaled when disarming is requested. *)
Definition Signaled (s : Sys A) : Prop :=
  m_disarm_requested (drv s) = true -> m_disarm_requested_event (drv s) = true.

(** What the handlers keep during an arming. *)
Definition Flags (s s' : Sys A) : Prop :=
  (m_arm_state (drv s) = ArmStateBusy -> m_arm_state (drv s') = ArmStateBusy) /\
  (m_start_arming_event (drv s) = true -> m_start_arming_event (drv s') = true) /\
  (m_disarm_requested (drv s) = true -> m_disarm_requested (drv s') = true) /\
  (Signaled s -> Signaled s') /\
  need_stop_acquisition s' = need_stop_acquisition s.

Lemma Flags_refl s : Flags s s.
Proof. unfold Flags. auto. Qed.

Lemma Flags_trans s1 s2 s3 : Flags s1 s2 -> Flags s2 s3 -> Flags s1 s3.
Proof. unfold Flags. intros (?&?&?&?&?) (?&?&?&?&?). repeat split; auto. congruence. Qed.

Lemma rearmOK_of_int (value : Z) :
  (value = 0 \/ value = 1 \/ value = 2)%Z -> rearmOK (ArmState_of_int value).
Proof.
  unfold rearmOK, validRequest. intros [->|[->| ->]]; cbn; auto.
Qed.

Lemma requestDisarming_going (r : ArmState) (b : nat) (s : Sys A) :
  rearmOK r -> Going b s ->
  exists s', requestDisarming digitizer r s = (Ok (), s') /\
    Going b s' /\ Flags s s' /\ m_disarm_requested (drv s') = true.
Proof using Hatt.
  intros Hr (Hinit & Harm & Hrearm & Hreq & Hm).
  assert (Heqb : ArmState_eqb (m_arm_state (drv s)) ArmStateDisarm = false)
    by (by apply ArmState_eqb_neq).
  unfold requestDisarming, setArmState. run_monad. rewrite Heqb. cbn.
  destruct (m_disarm_requested (drv s)) eqn:Hd; cbn.
  - eexists. split; [reflexivity|]. unfold Going, Flags, Signaled. cbn.
    repeat split; auto.
  - destruct (m_in_read_loop (drv s)); cbn.
    + eexists. split; [reflexivity|]. unfold Going, Flags, Signaled. cbn.
      repeat split; auto; try done.
      pose proof (att_interruptReading _ _ Hatt
                    (set_m_disarm_requested_event true
                       (set_params
                          (setIntegerParam ARM_STATE (ArmState_to_int ArmStateBusy)
                             (params (drv s)))
                          (set_m_arm_state ArmStateBusy
                             (set_m_allowing_data false
                                (set_m_disarm_requested true (drv s))))))
                    (ext s)). cbn in *. lia.
    + eexists. split; [reflexivity|]. unfold Going, Flags, Signaled. cbn.
      repeat split; auto; done.
Qed.

Lemma Going_same (b : nat) (s s' : Sys A) :
  drv s' = drv s -> ext s' = ext s -> Going b s -> Going b s'.
Proof. unfold Going. by intros -> ->. Qed.

Lemma Flags_same (s0 s s' : Sys A) :
  drv s' = drv s -> need_stop_acquisition s' = need_stop_acquisition s ->
  Flags s0 s -> Flags s0 s'.
Proof. unfold Flags, Signaled. by intros -> ->. Qed.

Lemma runAction_going (act : Action) (b : nat) (s : Sys A) :
  Going b s ->
  exists s', runAction digitizer act s = (Ok (), s') /\
    Going b s' /\ Flags s s' /\
    (disarms act -> m_disarm_requested (drv s') = true).
Proof using Hatt.
  intros HG. pose proof HG as (Hinit & Harm & Hrearm & Hreq & Hm).
  assert (Heqb : ArmState_eqb (m_arm_state (drv s)) ArmStateDisarm = false)
    by (by apply ArmState_eqb_neq).
  assert (Hobs : forall s1 : Sys A,
            Going b s1 -> Flags s s1 ->
            exists s', observe s1 = (Ok (), s') /\ Going b s' /\ Flags s s' /\
              m_disarm_requested (drv s') = m_disarm_requested (drv s1)).
  { intros s1 H1 H2. eexists. split; [reflexivity|].
    split; [by apply (Going_same b s1)|]. split; [by apply (Flags_same s s1)|done]. }
  assert (Hstore : forall (f : TRBaseDriver -> TRBaseDriver) (a : A),
            (forall d, m_init_completed (f d) = m_init_completed d /\
                       m_arm_state (f d) = m_arm_state d /\
                       m_requested_rearm_state (f d) = m_requested_rearm_state d /\
                       m_requested_arm_state (f d) = m_requested_arm_state d /\
                       m_start_arming_event (f d) = m_start_arming_event d /\
                       m_disarm_requested (f d) = m_disarm_requested d /\
                       m_disarm_requested_event (f d) = m_disarm_requested_event d) ->
            measure a <= measure (ext s) ->
            let s1 := mkSys (f (drv s)) a (log s) (observed s)
                        (need_stop_acquisition s) in
            Going b s1 /\ Flags s s1).
  { intros f a Hf Ha. destruct (Hf (drv s)) as (H1 & H2 & H3 & H3' & H4 & H5 & H6).
    unfold Going, Flags, Signaled. cbn. rewrite H1, H2, H3, H3', H4, H5, H6.
    repeat split; auto. lia. }
  destruct act as [reason value|reason value| |value|info]; unfold runAction.
  - (* writeInt32 *)
    unfold writeInt32, asynPortDriver_writeInt32.
    destruct (Nat.eqb_spec reason ARM_REQUEST) as [->|Hne].
    + unfold handleArmRequest. cbn [ArmState_to_int].
      destruct (negb (value =? 0)%Z && negb (value =? 1)%Z && negb (value =? 2)%Z)
        eqn:Hinvalid.
      * run_monad.
        destruct (Hstore (fun d => set_params
                            (setIntegerParam ARM_REQUEST value (params d)) d)
                    (ext s)) as [H1 H2]; [by intros d|lia|].
        eexists. split; [reflexivity|]. split; [|split].
        -- destruct H1 as (? & ? & ? & ? & ?). by repeat split.
        -- destruct H2 as (? & ? & ? & ? & ?). by repeat split.
        -- cbn. intros [_ Hv]. exfalso.
           destruct Hv as [->|[->| ->]]; discriminate.
      * assert (Hv : (value = 0 \/ value = 1 \/ value = 2)%Z).
        { destruct (Z.eqb_spec value 0); [auto|].
          destruct (Z.eqb_spec value 1); [auto|].
          destruct (Z.eqb_spec value 2); [auto|]. discriminate. }
        destruct (Hstore (fun d => set_params
                            (setIntegerParam ARM_REQUEST value (params d)) d)
                    (ext s)) as [H1 H2]; [by intros d|lia|].
        cbn zeta in H1, H2.
        destruct (requestDisarming_going (ArmState_of_int value) b _
                    (rearmOK_of_int value Hv) H1) as (s2 & Hrun & H3 & H4 & H5).
        destruct (Hobs s2 H3 (Flags_trans _ _ _ H2 H4)) as (s3 & Hrun3 & H6 & H7 & H8).
        exists s3. split; [|split; [done|split; [done|intros _; congruence]]].
        unfold mbind, M_bind, modify, gets, mret, M_ret in *. cbn [fst snd drv].
        change (m_arm_state (set_params _ (drv s))) with (m_arm_state (drv s)).
        rewrite Heqb. cbn [ArmState_eqb].
        rewrite Hrun. exact Hrun3.
    + run_monad.
      destruct (Hstore (fun d => set_params
                          (setIntegerParam reason value (params d)) d)
                  (ext s)) as [H1 H2]; [by intros d|lia|].
      destruct (negb (checkProtectedParamWrite reason (drv s))); cbn.
      * eexists. split; [reflexivity|]. split; [by apply (Going_same b s)|].
        split; [by apply (Flags_same s s), Flags_refl|].
        cbn. by intros [? _].
      * eexists. split; [reflexivity|]. split; [|split].
        -- destruct H1 as (? & ? & ? & ? & ?). by repeat split.
        -- destruct H2 as (? & ? & ? & ? & ?). by repeat split.
        -- cbn. by intros [? _].
  - (* writeFloat64 *)
    unfold writeFloat64, asynPortDriver_writeFloat64. run_monad.
    destruct (Nat.eqb _ _).
    + cbn.
      pose proof (att_requestedSampleRateChanged _ _ Hatt
                    (set_params (setDoubleParam reason value (params (drv s))) (drv s))
                    (ext s)) as Ha.
      destruct (requestedSampleRateChanged _ _ _) as [[rate|] a']; cbn in Ha |- *.
      * destruct (Hstore (fun d => setAchievableSampleRate rate
                            (set_params (setDoubleParam reason value (params d)) d)) a')
          as [H1 H2]; [by intros d|lia|].
        eexists. split; [reflexivity|]. split; [|split; [|done]].
        -- destruct H1 as (? & ? & ? & ? & ?). by repeat split.
        -- destruct H2 as (? & ? & ? & ? & ?). by repeat split.
      * destruct (Hstore (fun d => set_params
                            (setDoubleParam reason value (params d)) d) a')
          as [H1 H2]; [by intros d|lia|].
        eexists. split; [reflexivity|]. split; [|split; [|done]].
        -- destruct H1 as (? & ? & ? & ? & ?). by repeat split.
        -- destruct H2 as (? & ? & ? & ? & ?). by repeat split.
    + destruct (Hstore (fun d => set_params
                          (setDoubleParam reason value (params d)) d) (ext s))
        as [H1 H2]; [by intros d|lia|].
      destruct (negb (checkProtectedParamWrite reason (drv s))); cbn.
      * eexists. split; [reflexivity|]. split; [by apply (Going_same b s)|].
        split; [by apply (Flags_same s s), Flags_refl|done].
      * eexists. split; [reflexivity|]. split; [|split; [|done]].
        -- destruct H1 as (? & ? & ? & ? & ?). by repeat split.
        -- destruct H2 as (? & ? & ? & ? & ?). by repeat split.
  - (* requestDisarmingFromDriver *)
    unfold requestDisarmingFromDriver.
    destruct (requestDisarming_going ArmStateDisarm b s (or_introl eq_refl) HG)
      as (s2 & Hrun & H3 & H4 & H5).
    destruct (Hobs s2 H3 H4) as (s3 & Hrun3 & H6 & H7 & H8).
    exists s3. split; [|split; [done|split; [done|intros _; congruence]]].
    unfold mbind, M_bind, gets. cbn [fst snd]. rewrite Heqb. cbn [negb].
    rewrite Hrun. exact Hrun3.
  - run_monad.
    destruct (Hstore (setAchievableSampleRate value) (ext s))
      as [H1 H2]; [by intros d|lia|].
    eexists. split; [reflexivity|]. split; [|split; [|done]].
    + destruct H1 as (? & ? & ? & ? & ?). by repeat split.
    + destruct H2 as (? & ? & ? & ? & ?). by repeat split.
  - run_monad.
    destruct (Hstore (publishBurstMetaInfo info) (ext s))
      as [H1 H2]; [by intros d|lia|].
    eexists. split; [reflexivity|]. split; [|split; [|done]].
    + destruct H1 as (? & ? & ? & ? & ?). by repeat split.
    + destruct H2 as (? & ? & ? & ? & ?). by repeat split.
Qed.

Lemma runActions_going (acts : list Action) (b : nat) (s : Sys A) :
  Going b s ->
  exists s', runActions digitizer acts s = (Ok (), s') /\
    Going b s' /\ Flags s s' /\
    (Exists disarms acts -> m_disarm_requested (drv s') = true).
Proof using Hatt.
  revert s. induction acts as [|act acts IH]; intros s HG; cbn [runActions].
  - exists s. split; [reflexivity|]. split; [done|]. split; [apply Flags_refl|].
    intros H. by apply Exists_nil in H.
  - destruct (runAction_going act b s HG) as (s1 & Hrun1 & HG1 & HF1 & Hd1).
    destruct (IH s1 HG1) as (s2 & Hrun2 & HG2 & HF2 & Hd2).
    exists s2. split; [|split; [done|split; [by eapply Flags_trans|]]].
    + unfold mbind, M_bind. by rewrite Hrun1.
    + intros [Hact|Hacts]%Exists_cons; [|auto].
      destruct HF2 as (_ & _ & Hmono & _). auto.
Qed.

Lemma lock_going (b : nat) (s : Sys A) :
  Going b s ->
  exists s', lock digitizer s = (Ok (), s') /\ Going b s' /\ Flags s s'.
Proof using Hatt.
  intros HG. unfold lock. run_monad.
  pose proof (att_otherThreads _ _ Hatt (drv s) (ext s)) as Ha.
  destruct (otherThreads digitizer (drv s) (ext s)) as [acts a']. cbn in Ha.
  set (s1 := mkSys (drv s) a' (log s) (observed s) (need_stop_acquisition s)).
  assert (HG1 : Going b s1).
  { destruct HG as (? & ? & ? & ? & ?). repeat split; auto. cbn. lia. }
  destruct (runActions_going acts b s1 HG1) as (s' & Hrun & HG' & HF & _).
  exists s'. split; [by rewrite Hrun|]. split; [done|].
  eapply Flags_trans; [|exact HF]. by apply (Flags_same s s), Flags_refl.
Qed.

(** Code that goes on, whatever the state of the arming. *)
Definition Fine {X} (c : M A X) : Prop :=
  forall b s, Going b s -> exists x s', c s = (Ok x, s') /\ Going b s'.

(** A change of the driver object that keeps what [Going] is about. *)
Definition Frame (f : TRBaseDriver -> TRBaseDriver) : Prop :=
  forall d, m_init_completed (f d) = m_init_completed d /\
            m_arm_state (f d) = m_arm_state d /\
            m_requested_rearm_state (f d) = m_requested_rearm_state d /\
            m_requested_arm_state (f d) = m_requested_arm_state d.

Lemma Fine_ret {X} (x : X) : Fine (mret x : M A X).
Proof. intros b s HG. by exists x, s. Qed.

Lemma Fine_bind {X Y} (c : M A X) (k : X -> M A Y) :
  Fine c -> (forall x, Fine (k x)) -> Fine (c ≫= k).
Proof.
  intros Hc Hk b s HG. destruct (Hc b s HG) as (x & s1 & Hrun & HG1).
  destruct (Hk x b s1 HG1) as (y & s2 & Hrun2 & HG2).
  exists y, s2. split; [|done]. unfold mbind, M_bind. by rewrite Hrun.
Qed.

Lemma Fine_gets {X} (f : TRBaseDriver -> X) : Fine (gets f : M A X).
Proof. intros b s HG. by eexists _, s. Qed.

Lemma Fine_emit (e : Event) : Fine (emit e : M A unit).
Proof.
  intros b s HG. eexists _, _. split; [reflexivity|]. by apply (Going_same b s).
Qed.

Lemma Fine_observe : Fine (observe : M A unit).
Proof.
  intros b s HG. eexists _, _. split; [reflexivity|]. by apply (Going_same b s).
Qed.

Lemma Fine_set_need_stop_acquisition (v : bool) :
  Fine (set_need_stop_acquisition v : M A unit).
Proof.
  intros b s HG. eexists _, _. split; [reflexivity|]. by apply (Going_same b s).
Qed.

Lemma Fine_get_need_stop_acquisition : Fine (get_need_stop_acquisition : M A bool).
Proof. intros b s HG. by eexists _, s. Qed.

Lemma Fine_modify (f : TRBaseDriver -> TRBaseDriver) :
  Frame f -> Fine (modify f : M A unit).
Proof.
  intros Hf b s (H1 & H2 & H3 & H4 & H5). destruct (Hf (drv s)) as (F1 & F2 & F3 & F4).
  eexists _, _. split; [reflexivity|]. unfold Going. cbn.
  by rewrite F1, F2, F3, F4.
Qed.

Lemma Fine_state {X} (f : TRBaseDriver -> X * TRBaseDriver) :
  Frame (fun d => (f d).2) -> Fine (state f : M A X).
Proof.
  intros Hf b s (H1 & H2 & H3 & H4 & H5). destruct (Hf (drv s)) as (F1 & F2 & F3 & F4).
  unfold state. destruct (f (drv s)) as [x d'] eqn:Hfd. cbn in F1, F2, F3, F4.
  eexists _, _. split; [reflexivity|]. unfold Going. cbn.
  by rewrite F1, F2, F3, F4.
Qed.

Lemma Fine_call {X} (f : TRBaseDriver -> A -> X * A) :
  (forall d a, measure (f d a).2 <= measure a) -> Fine (call f).
Proof.
  intros Hf b s (H1 & H2 & H3 & H4 & H5). unfold call.
  pose proof (Hf (drv s) (ext s)) as Ha.
  destruct (f (drv s) (ext s)) as [x a']. cbn in Ha.
  eexists _, _. split; [reflexivity|]. unfold Going. cbn. repeat split; auto. lia.
Qed.

Lemma Fine_lock : Fine (lock digitizer).
Proof using Hatt.
  intros b s HG. destruct (lock_going b s HG) as (s' & Hrun & HG' & _).
  by exists (), s'.
Qed.

Lemma Fine_setArmState (st : ArmState) :
  st <> ArmStateDisarm -> Fine (setArmState st : M A unit).
Proof.
  intros Hst b s (H1 & H2 & H3 & H4 & H5). unfold setArmState. run_monad.
  eexists _, _. split; [reflexivity|]. by repeat split.
Qed.

(** A step over code that goes on. *)
Lemma ends_fine {X Y} (c : M A X) (k : X -> M A Y)
    (Q : Res Y -> Sys A -> Prop) (b : nat) (s : Sys A) :
  Fine c -> Going b s ->
  (forall x s', Going b s' -> ends (k x) Q s') ->
  ends (c ≫= k) Q s.
Proof.
  intros Hc HG Hk. destruct (Hc b s HG) as (x & s' & Hrun & HG').
  unfold ends, mbind, M_bind. rewrite Hrun. by apply Hk.
Qed.

Lemma Frame_checkBasicSettings : Frame (fun d => (checkBasicSettings d).2).
Proof.
  intros d. unfold checkBasicSettings.
  repeat match goal with |- context [if ?c then _ else _] => destruct c end;
    repeat split; reflexivity.
Qed.

Lemma Frame_applySnapshotEdits (edits : list SnapshotEdit) :
  Frame (fun d => foldl applySnapshotEdit d edits).
Proof.
  intros d. revert d. induction edits as [|e edits IH]; intros d; cbn [foldl]; [done|].
  destruct (IH (applySnapshotEdit d e)) as (-> & -> & -> & ->). by destruct e.
Qed.

Lemma Going_le (b b' : nat) (s : Sys A) : b <= b' -> Going b s -> Going b' s.
Proof. intros Hle (? & ? & ? & ? & ?). repeat split; auto. lia. Qed.

Lemma Going_lt (b : nat) (s : Sys A) :
  Going (S b) s -> measure (ext s) < S b -> Going b s.
Proof. intros (? & ? & ? & ? & ?) Hlt. repeat split; auto. lia. Qed.

(** Code that goes on or jumps, and does not stop. *)
Definition Goes {X} (c : M A X) (P : X -> Prop) : Prop :=
  forall b s, Going b s ->
    ends c (fun r s' => Going b s' /\
              match r with Ok x => P x | Goto _ => True | Stop _ => False end) s.

Lemma Goes_fine {X} (c : M A X) : Fine c -> Goes c (fun _ => True).
Proof.
  intros Hc b s HG. destruct (Hc b s HG) as (x & s' & Hrun & HG').
  unfold ends. by rewrite Hrun.
Qed.

Lemma Goes_bind {X Y} (c : M A X) (k : X -> M A Y) (P : Y -> Prop) :
  Goes c (fun _ => True) -> (forall x, Goes (k x) P) -> Goes (c ≫= k) P.
Proof.
  intros Hc Hk b s HG. specialize (Hc b s HG). unfold ends, mbind, M_bind in *.
  destruct (c s) as [[x|l|h] s1]; cbn in Hc |- *; [|done|by destruct Hc].
  destruct Hc as [HG1 _]. apply (Hk x b s1 HG1).
Qed.

Lemma Goes_goto {X} (l : Label) (P : X -> Prop) : Goes (goto l) P.
Proof. intros b s HG. by split. Qed.

Lemma Goes_ret {X} (x : X) (P : X -> Prop) : P x -> Goes (mret x) P.
Proof. intros HP b s HG. by split. Qed.

(** A step over code that may jump or stop. *)
Lemma ends_bind_res {X Y} (m : M A X) (k : X -> M A Y) Q s :
  ends m (fun r s' => match r with
                      | Ok x => ends (k x) Q s'
                      | Goto l => Q (Goto l) s'
                      | Stop h => Q (Stop h) s'
                      end) s ->
  ends (m ≫= k) Q s.
Proof. unfold ends, mbind, M_bind. by destruct (m s) as [[x|l|h] s']. Qed.

Ltac fine :=
  repeat first
    [ assumption
    | progress unfold checkDisarmRequestedUnlocked, maybeSleepForTesting
    | lazymatch goal with
      | |- Fine (mbind _ _) => apply Fine_bind; [|intros]
      | |- Fine (mret _) => apply Fine_ret
      | |- Fine (gets _) => apply Fine_gets
      | |- Fine (lock _) => apply Fine_lock
      | |- Fine observe => apply Fine_observe
      | |- Fine unlock => apply Fine_observe
      | |- Fine (emit _) => apply Fine_emit
      | |- Fine (set_need_stop_acquisition _) => apply Fine_set_need_stop_acquisition
      | |- Fine get_need_stop_acquisition => apply Fine_get_need_stop_acquisition
      | |- Fine (state checkBasicSettings) => apply Fine_state, Frame_checkBasicSettings
      | |- Fine (modify (fun d => foldl applySnapshotEdit d _)) =>
          apply Fine_modify, Frame_applySnapshotEdits
      | |- Fine (modify _) => apply Fine_modify; intros ?; repeat split; reflexivity
      | |- Fine (call _) =>
          apply Fine_call; intros; cbn [snd];
          first [ apply (att_waitForPreconditions _ _ Hatt)
                | apply (att_checkSettings _ _ Hatt)
                | apply (att_startAcquisition _ _ Hatt)
                | apply (att_checkOverflow _ _ Hatt)
                | apply (att_processBurstData _ _ Hatt)
                | apply (att_stopAcquisition _ _ Hatt)
                | apply (att_interruptReading _ _ Hatt)
                | apply (att_otherThreads _ _ Hatt)
                | apply (att_readBurst _ _ Hatt) ]
      | |- Fine (if ?b then _ else _) => destruct b
      | |- Fine (match ?x with _ => _ end) => destruct x
      end ].

Ltac goes :=
  repeat first
    [ apply Goes_goto
    | lazymatch goal with
      | |- Goes (mbind _ _) _ => apply Goes_bind; [apply Goes_fine; fine|intros]
      | |- Goes (if ?b then _ else _) _ => destruct b
      | |- Goes (match ?x with _ => _ end) _ => destruct x
      end ].

Lemma prepareArming_goes : Goes (prepareArming digitizer) (fun K => K <> 0%Z).
Proof using Hatt.
  unfold prepareArming. goes. apply Goes_ret.
  match goal with |- (if (?K =? 0)%Z then _ else _) <> _ =>
    by destruct (Z.eqb_spec K 0) end.
Qed.

Lemma burstLoop_going (fuel : nat) :
  forall (overflow : bool) (currentRemBursts remainingBursts : Z) (b : nat) (s : Sys A),
    Going b s -> b < fuel ->
    (overflow = false -> currentRemBursts = remainingBursts) ->
    ends (burstLoop digitizer fuel overflow currentRemBursts remainingBursts)
      (fun r s' =>
         Going b s' /\
         match r with
         | Ok (overflow', remainingBursts') =>
             (remainingBursts' <> 0%Z -> overflow' = true) /\
             (currentRemBursts <> 0%Z -> measure (ext s') < b)
         | Goto _ => True
         | Stop _ => False
         end) s.
Proof using Hatt.
  induction fuel as [|fuel IH]; intros overflow cur rem b s HG Hfuel Hinv; [lia|].
  cbn [burstLoop]. destruct (Z.eqb_spec cur 0) as [->|Hcur].
  { apply ends_ret. split; [done|]. split; [|done].
    destruct overflow; [done|]. intros Hrem. by rewrite Hinv in Hrem. }
  apply ends_call.
  destruct (att_readBurst _ _ Hatt (drv s) (ext s)) as [Hle Hlt].
  destruct (readBurst digitizer (drv s) (ext s)) as [ok a']. cbn [fst snd] in *.
  apply ends_emit. destruct ok; cbn [negb].
  2:{ apply ends_goto. split; [|done].
      destruct HG as (? & ? & ? & ? & ?). repeat split; auto. cbn. lia. }
  specialize (Hlt eq_refl).
  destruct b as [|b']; [destruct HG as (_ & _ & _ & _ & ?); lia|].
  assert (Hpost : forall (r : Res (bool * Z)) (s' : Sys A),
            Going b' s' /\
            match r with
            | Ok (overflow', remainingBursts') =>
                (remainingBursts' <> 0%Z -> overflow' = true) /\ True
            | Goto _ => True
            | Stop _ => False
            end ->
            Going (S b') s' /\
            match r with
            | Ok (overflow', remainingBursts') =>
                (remainingBursts' <> 0%Z -> overflow' = true) /\
                (cur <> 0%Z -> measure (ext s') < S b')
            | Goto _ => True
            | Stop _ => False
            end).
  { intros r s' [HG' Hr]. split; [apply (Going_le b'); [lia|done]|].
    destruct r as [[ov rem']|l|h]; [|done|done].
    destruct Hr as [Hov _]. split; [done|]. intros _.
    destruct HG' as (_ & _ & _ & _ & ?). lia. }
  match goal with |- ends _ _ ?s1 => assert (HG1 : Going b' s1) end.
  { destruct HG as (? & ? & ? & ? & ?). repeat split; auto. cbn. lia. }
  eapply (ends_fine _ _ _ b'); [fine|exact HG1|]. clear HG1.
  intros disarm_requested s2 HG2. destruct disarm_requested.
  { apply ends_goto. split; [|done]. apply (Going_le b'); [lia|done]. }
  assert (Hrest : forall (overflow' : bool) (cur' : Z) (s3 : Sys A),
            Going b' s3 ->
            (overflow' = false -> cur' = rem) ->
            ends
              (ok ← call (processBurstData digitizer);
               emit (EvProcessBurstData ok);;
               if negb ok then goto error else
               maybeSleepForTesting digitizer;;
               burstLoop digitizer fuel overflow'
                 (if (0 <? cur')%Z then (cur' - 1)%Z else cur')
                 (if (0 <? rem)%Z then (rem - 1)%Z else rem))
              (fun r s' =>
                 Going (S b') s' /\
                 match r with
                 | Ok (overflow', remainingBursts') =>
                     (remainingBursts' <> 0%Z -> overflow' = true) /\
                     (cur <> 0%Z -> measure (ext s') < S b')
                 | Goto _ => True
                 | Stop _ => False
                 end) s3).
  { intros overflow' cur' s3 HG3 Hinv'.
    eapply (ends_fine _ _ _ b'); [fine|exact HG3|]. intros ok s4 HG4.
    eapply (ends_fine _ _ _ b'); [fine|exact HG4|]. intros _ s5 HG5.
    destruct ok; cbn [negb].
    2:{ apply ends_goto. split; [|done]. apply (Going_le b'); [lia|done]. }
    eapply (ends_fine _ _ _ b'); [fine|exact HG5|]. intros _ s6 HG6.
    eapply ends_mono.
    - apply (IH overflow' _ _ b' s6 HG6); [lia|].
      intros Hov. by rewrite (Hinv' Hov).
    - intros r s' [HG' Hr]. apply Hpost. split; [done|].
      destruct r as [[ov rem']|l|h]; [|done|done]. by destruct Hr. }
  destruct overflow; cbn [negb].
  { apply ends_ret_bind. by apply Hrest. }
  apply ends_bind_res. apply ends_call.
  pose proof (att_overflow _ _ Hatt (drv s2) (ext s2)) as Hcontract.
  pose proof (att_checkOverflow _ _ Hatt (drv s2) (ext s2)) as Hmeasure.
  destruct (checkOverflow digitizer (drv s2) (ext s2)) as [[[ok had] n] a2].
  cbn [fst snd] in *. apply ends_emit.
  match goal with |- ends _ _ ?s3 => assert (HG3 : Going b' s3) end.
  { destruct HG2 as (? & ? & ? & ? & ?). repeat split; auto. cbn. lia. }
  destruct ok; cbn [negb].
  2:{ apply ends_goto. split; [|done]. apply (Going_le b'); [lia|done]. }
  destruct had.
  - specialize (Hcontract eq_refl eq_refl).
    apply Z.ltb_lt in Hcontract. rewrite Hcontract. cbn [assert].
    apply ends_ret_bind. apply ends_ret. by apply Hrest.
  - apply ends_ret. apply Hrest; [done|]. intros _. by apply Hinv.
Qed.

Lemma overflowLoop_going (fuel burstFuel : nat) :
  forall (overflow : bool) (remainingBursts : Z) (b : nat) (s : Sys A),
    Going b s -> b < fuel -> b < burstFuel -> remainingBursts <> 0%Z ->
    ends (overflowLoop digitizer fuel burstFuel overflow remainingBursts)
      (fun r s' => Going b s' /\ exists l, r = Goto l) s.
Proof using Hatt.
  induction fuel as [|fuel IH]; intros overflow rem b s HG Hfuel Hburst Hrem; [lia|].
  cbn [overflowLoop]. apply ends_gets.
  destruct (m_disarm_requested (drv s)).
  { apply ends_unlock, ends_goto. split; [by apply (Going_same b s)|eauto]. }
  eapply (ends_fine _ _ _ b); [fine|exact HG|]. intros _ s1 HG1.
  eapply (ends_fine _ _ _ b); [fine|exact HG1|]. intros _ s2 HG2.
  eapply (ends_fine _ _ _ b); [fine|exact HG2|]. intros _ s3 HG3.
  eapply (ends_fine _ _ _ b); [fine|exact HG3|]. intros ok s4 HG4.
  eapply (ends_fine _ _ _ b); [fine|exact HG4|]. intros _ s5 HG5.
  destruct ok; cbn [negb]; [|apply ends_goto; eauto].
  eapply (ends_fine _ _ _ b); [fine|exact HG5|]. intros _ s6 HG6.
  apply ends_gets. destruct (m_disarm_requested (drv s6)).
  { apply ends_unlock, ends_goto. split; [by apply (Going_same b s6)|eauto]. }
  assert (Hset : Fine (if negb overflow
                       then requested_arm_state ← gets m_requested_arm_state;
                            setArmState requested_arm_state
                       else mret ())).
  { destruct overflow; cbn [negb]; [apply Fine_ret|].
    intros b0 s0 HG0. unfold Going in HG0. unfold setArmState. run_monad.
    eexists _, _. split; [reflexivity|]. unfold Going. cbn. tauto. }
  eapply (ends_fine _ _ _ b); [exact Hset|exact HG6|]. intros _ s7 HG7.
  eapply (ends_fine _ _ _ b); [fine|exact HG7|]. intros _ s8 HG8.
  eapply (ends_fine _ _ _ b); [fine|exact HG8|]. intros _ s9 HG9.
  apply ends_bind_res. eapply ends_mono.
  { apply (burstLoop_going burstFuel false rem rem b s9 HG9); [lia|done]. }
  intros r s' [HG' Hr]. destruct r as [[ov rem']|l|h]; [|eauto|done].
  destruct Hr as [Hov Hlt]. specialize (Hlt Hrem).
  destruct (Z.eqb_spec rem' 0) as [->|Hrem']; [apply ends_goto; eauto|].
  rewrite (Hov Hrem'). cbn [assert]. apply ends_ret_bind.
  destruct b as [|b']; [lia|].
  assert (HGlt : Going b' s') by (by apply Going_lt).
  eapply (ends_fine _ _ _ b'); [fine|exact HGlt|]. intros _ s10 HG10.
  eapply (ends_fine _ _ _ b'); [fine|exact HG10|]. intros _ s11 HG11.
  eapply ends_mono.
  { apply (IH true rem' b' s11 HG11); [lia|lia|done]. }
  intros r s12 [HG12 Hr]. split; [|done]. apply (Going_le b'); [lia|done].
Qed.

Lemma armAndRead_going (fuel b : nat) (s : Sys A) :
  Going b s -> b < fuel ->
  exists l s', catch (armAndRead digitizer fuel) s = (Ok l, s') /\ Going b s'.
Proof using Hatt.
  intros HG Hfuel.
  assert (H : ends (armAndRead digitizer fuel)
                (fun r s' => Going b s' /\ exists l, r = Goto l) s).
  { unfold armAndRead. apply ends_bind_res. eapply ends_mono.
    { apply (prepareArming_goes b s HG). }
    intros r s' [HG' Hr]. destruct r as [K|l|h]; [|eauto|done].
    by apply overflowLoop_going. }
  unfold ends in H. unfold catch.
  destruct (armAndRead digitizer fuel s) as [r s']. cbn in H.
  destruct H as (HG' & l & ->). by exists l, s'.
Qed.

(** The wait in the arm state Error ends: a client asks for disarming. *)
Lemma waitUntilDisarming_going (b : nat) (s : Sys A) :
  Going b s -> m_disarm_requested (drv s) = false ->
  exists s',
    (setArmState ArmStateError;; unlock;; waitUntilDisarming digitizer;;
     lock digitizer) s = (Ok (), s') /\ Going b s'.
Proof using Hatt.
  intros (Hinit & Harm & Hrearm & Hreq & Hm) Hd.
  unfold setArmState, unlock, waitUntilDisarming, waitEvent. run_monad.
  set (d1 := set_params _ _).
  pose proof (att_disarms _ _ Hatt d1 (ext s) eq_refl) as Hacts.
  pose proof (att_otherThreads _ _ Hatt d1 (ext s)) as Ha.
  destruct (otherThreads digitizer d1 (ext s)) as [acts a']. cbn [fst snd] in *.
  set (s1 := mkSys d1 a' _ _ _).
  assert (HG1 : Going b s1).
  { unfold Going. cbn. repeat split; auto; try done. lia. }
  destruct (runActions_going acts b s1 HG1) as (s2 & Hrun & HG2 & HF & Hdis).
  rewrite Hrun. cbn.
  destruct HF as (_ & _ & _ & Hsig & _).
  assert (Hs1 : Signaled s1).
  { unfold Signaled, s1, d1. cbn. congruence. }
  rewrite (Hsig Hs1 (Hdis Hacts)).
  match goal with |- context [lock digitizer ?s3] =>
    assert (HG3 : Going b s3) by (by destruct HG2 as (? & ? & ? & ? & ?));
    destruct (lock_going b s3 HG3) as (s4 & Hlock & HG4 & _)
  end.
  rewrite Hlock. by exists s4.
Qed.

Lemma ends_run {X Y} (c : M A X) (k : X -> M A Y) Q (s : Sys A) (x : X) (s' : Sys A) :
  c s = (Ok x, s') -> ends (k x) Q s' -> ends (c ≫= k) Q s.
Proof. intros Hrun. unfold ends, mbind, M_bind. by rewrite Hrun. Qed.

Lemma startArming_returns (requested_arm_state : ArmState) (s : Sys A) :
  validRequest requested_arm_state ->
  m_arm_state (drv s) = ArmStateDisarm -> m_init_completed (drv s) = true ->
  (startArming requested_arm_state s).1 = Ok ().
Proof.
  intros Hvalid Harm Hinit.
  change (ends (startArming requested_arm_state) (fun r _ => r = Ok ()) s).
  unfold startArming.
  assert (Hv : ArmState_eqb requested_arm_state ArmStatePostTrigger
               || ArmState_eqb requested_arm_state ArmStatePrePostTrigger = true)
    by (by destruct Hvalid as [-> | ->]).
  rewrite Hv. cbn [assert]. apply ends_ret_bind, ends_gets.
  rewrite Harm. cbn [ArmState_eqb assert]. apply ends_ret_bind, ends_gets.
  rewrite Hinit. cbn [assert]. apply ends_ret_bind. reflexivity.
Qed.

Lemma ends_then_unlock (c : M A unit) (s : Sys A) :
  (c s).1 = Ok () -> ends (c;; unlock) (fun r _ => r = Ok ()) s.
Proof.
  unfold ends, mbind, M_bind. by destruct (c s) as [[[]|l|h] s'].
Qed.

Lemma disarm_going (had_error : bool) (b : nat) (s : Sys A) :
  Going b s -> (disarm digitizer had_error s).1 = Ok ().
Proof using Hatt.
  intros HG.
  change (ends (disarm digitizer had_error) (fun r _ => r = Ok ()) s).
  unfold disarm.
  eapply (ends_fine _ _ _ b); [fine|exact HG|]. intros _ s1 HG1.
  eapply (ends_fine _ _ _ b); [fine|exact HG1|]. intros _ s2 HG2.
  apply ends_gets.
  assert (Hwait : exists s3,
            (if had_error && negb (m_disarm_requested (drv s2))
             then setArmState ArmStateError;; unlock;;
                  waitUntilDisarming digitizer;; lock digitizer
             else mret ()) s2 = (Ok (), s3) /\ Going b s3).
  { destruct (had_error && negb (m_disarm_requested (drv s2))) eqn:Hc.
    - apply andb_true_iff in Hc as [_ Hd]. apply negb_true_iff in Hd.
      by apply waitUntilDisarming_going.
    - by exists s2. }
  destruct Hwait as (s3 & Hrun & HG3).
  eapply ends_run; [exact Hrun|]. clear Hrun.
  eapply (ends_fine _ _ _ b); [fine|exact HG3|]. intros _ s4 HG4.
  eapply (ends_fine _ _ _ b); [fine|exact HG4|]. intros need_stop s5 HG5.
  eapply (ends_fine _ _ _ b); [fine|exact HG5|]. intros _ s6 HG6.
  eapply (ends_fine _ _ _ b); [fine|exact HG6|]. intros _ s7 HG7.
  eapply (ends_fine _ _ _ b); [fine|exact HG7|]. intros _ s8 HG8.
  apply ends_gets. destruct HG8 as (Hinit & _ & Hrearm & _).
  destruct (ArmState_eqb (m_requested_rearm_state (drv s8)) ArmStateDisarm) eqn:Heqb;
    cbn [negb].
  - by apply ends_then_unlock.
  - assert (Hvalid : validRequest (m_requested_rearm_state (drv s8))).
    { destruct Hrearm as [Hr|Hr]; [|done]. by rewrite Hr in Heqb. }
    apply ends_then_unlock.
    change (ends (modify (set_m_arm_state ArmStateDisarm);;
                  startArming (m_requested_rearm_state (drv s8)))
              (fun r _ => r = Ok ()) s8).
    apply ends_modify. by apply startArming_returns.
Qed.

(** The state in which [startArming] leaves the driver object for the read
    thread. *)
Definition Ready (s : Sys A) : Prop :=
  m_init_completed (drv s) = true /\
  m_arm_state (drv s) = ArmStateBusy /\
  m_start_arming_event (drv s) = true /\
  rearmOK (m_requested_rearm_state (drv s)) /\
  m_requested_arm_state (drv s) <> ArmStateDisarm.

(** An arming ends: [readThreadIteration] returns, when the fuel of the
    model exceeds the number of bursts that the digitizer can deliver. *)
Lemma readThreadIteration_returns (fuel : nat) (s0 : Sys A) :
  Ready s0 -> measure (ext s0) < fuel ->
  (readThreadIteration digitizer fuel s0).1 = Ok ().
Proof using Hatt.
  intros (Hinit & Hbusy & Hstart & Hrearm & Hreq) Hfuel.
  assert (HG0 : Going (measure (ext s0)) s0).
  { repeat split; auto. by rewrite Hbusy. }
  destruct (lock_going _ _ HG0) as (s1 & Hlock & HG1 & HF).
  destruct HF as (Hbusy1 & Hstart1 & _).
  specialize (Hbusy1 Hbusy). specialize (Hstart1 Hstart).
  unfold lock in Hlock. unfold readThreadIteration, waitEvent.
  unfold mbind, M_bind in Hlock |- *.
  destruct (call (otherThreads digitizer) s0) as [[acts|l|h] s'];
    [|discriminate|discriminate].
  rewrite Hlock. unfold gets at 1. cbn [fst snd]. rewrite Hstart1.
  unfold modify at 1, gets at 1. cbn [fst snd drv].
  change (m_arm_state (set_m_start_arming_event false (drv s1)))
    with (m_arm_state (drv s1)).
  rewrite Hbusy1. cbn [ArmState_eqb assert]. unfold mret at 1, M_ret at 1.
  unfold set_need_stop_acquisition at 1.
  match goal with |- context [catch _ ?s2] =>
    assert (HG2 : Going (measure (ext s0)) s2)
      by (by destruct HG1 as (? & ? & ? & ? & ?));
    destruct (armAndRead_going fuel _ s2 HG2 Hfuel) as (l & s3 & Hcatch & HG3)
  end.
  rewrite Hcatch. by apply (disarm_going _ (measure (ext s0))).
Qed.

End Progress.

(** When the automaton has accepted the publication of Disarm, both
    [startAcquisition] and [stopAcquisition] were called, or neither. *)
Lemma mon_step_published (m m' : Mon) (e : Event) :
  mon_step m e = Some m' ->
  (mon_stopped m = true -> mon_started m = true) ->
  (mon_published m = true -> mon_started m = mon_stopped m) ->
  (mon_stopped m' = true -> mon_started m' = true) /\
  (mon_published m' = true -> mon_started m' = mon_stopped m') /\
  mon_published m' = mon_published m || isDisarmPublished e.
Proof.
  intros Hstep H1 H2.
  destruct (mon_step_flags _ _ _ Hstep) as (-> & -> & -> & _).
  destruct (mon_step_guard _ _ _ Hstep) as (G1 & G2 & _ & G4).
  assert (Hcases : (isStart e = true /\ isStop e = false /\ isDisarmPublished e = false) \/
                   (isStart e = false /\ isStop e = true /\ isDisarmPublished e = false) \/
                   (isStart e = false /\ isStop e = false)).
  { destruct e; cbn; auto. }
  destruct Hcases as [(E1 & E2 & E3)|[(E1 & E2 & E3)|(E1 & E2)]];
    rewrite E1, E2, ?E3, ?orb_false_r, ?orb_true_r.
  - destruct (G1 E1) as (_ & _ & ->). cbn. repeat split; auto; discriminate.
  - destruct (G2 E2) as (-> & _ & ->). cbn. repeat split; auto; discriminate.
  - split; [done|]. split; [|done].
    destruct (isDisarmPublished e) eqn:E3; rewrite ?orb_false_r; [|done].
    intros _. specialize (G4 eq_refl).
    destruct (mon_started m); [by rewrite G4|].
    destruct (mon_stopped m); [|done]. by specialize (H1 eq_refl).
Qed.

Lemma mon_run_published (evs : list Event) :
  forall m m',
    mon_run m evs = Some m' ->
    (mon_stopped m = true -> mon_started m = true) ->
    (mon_published m = true -> mon_started m = mon_stopped m) ->
    mon_published m = true \/ EvSetArmState ArmStateDisarm ∈ evs ->
    mon_started m' = mon_stopped m'.
Proof.
  induction evs as [|e evs IH]; intros m m' Hrun H1 H2 Hpub; cbn in Hrun.
  - injection Hrun as <-. destruct Hpub as [Hpub|Hin]; [auto|].
    by apply elem_of_nil in Hin.
  - apply bind_Some in Hrun as (m1 & Hstep & Hrun).
    destruct (mon_step_published _ _ _ Hstep H1 H2) as (H1' & H2' & Hp).
    apply (IH m1 m' Hrun H1' H2'). rewrite Hp.
    destruct Hpub as [->|[Heq|Hin]%elem_of_cons]; [by left| |by right].
    left. subst e. by destruct (mon_published m).
Qed.

Lemma accepted_published (pending : ArmState) (evs : list Event) (m : Mon) :
  mon_run (mon_init pending) evs = Some m ->
  EvSetArmState ArmStateDisarm ∈ evs ->
  mon_started m = mon_stopped m.
Proof.
  intros Hrun Hin. apply (mon_run_published evs _ _ Hrun); cbn; auto; discriminate.
Qed.

(** C2.  In every arming (one iteration of the read thread, however it
    goes on), [stopAcquisition] is only called after a call of
    [startAcquisition], at most once, not before the last call of
    [startAcquisition], and before Disarm is published; an arming in which
    [waitForPreconditions], [checkBasicSettings] or [checkSettings] fails
    calls neither.  An arming that ends, or that publishes Disarm, has
    called [stopAcquisition] if and only if it has called
    [startAcquisition], with whatever result.  And the arming does end, so
    that [stopAcquisition] is called when [startAcquisition] was: when the
    digitizer delivers finitely many bursts, the clients request disarming
    while the arm state is Error, and the arming starts in the state in
    which [startArming] leaves the driver object. *)
Theorem stopAcquisition_iff_startAcquisition {A : Type}
    (digitizer : DigitizerDriver A) (fuel : nat) (s0 : Sys A) :
  Basic (drv s0) ->
  let r := readThreadIteration digitizer fuel s0 in
  exists evs,
    log r.2 = log s0 ++ evs /\
    (forall pre post, evs = pre ++ EvStopAcquisition :: post ->
       (exists overflow ok, EvStartAcquisition overflow ok ∈ pre) /\
       (EvStopAcquisition ∉ pre) /\
       (EvStopAcquisition ∉ post) /\
       (forall overflow ok, EvStartAcquisition overflow ok ∉ post) /\
       (EvSetArmState ArmStateDisarm ∉ pre)) /\
    (EvWaitForPreconditions false ∈ evs \/ EvCheckBasicSettings false ∈ evs \/
     EvCheckSettings false ∈ evs ->
       (forall overflow ok, EvStartAcquisition overflow ok ∉ evs) /\
       (EvStopAcquisition ∉ evs)) /\
    (r.1 = Ok () \/ EvSetArmState ArmStateDisarm ∈ evs ->
       (EvStopAcquisition ∈ evs <->
        exists overflow ok, EvStartAcquisition overflow ok ∈ evs)) /\
    (forall measure : A -> nat,
       Attended digitizer measure -> Ready s0 -> measure (ext s0) < fuel ->
       r.1 = Ok () /\
       (EvStopAcquisition ∈ evs <->
        exists overflow ok, EvStartAcquisition overflow ok ∈ evs)).
Proof.
  intros Hb r.
  destruct (readThreadIteration_accepted digitizer fuel s0 Hb)
    as (evs & m & Hlog & Hrun & Hfin).
  destruct (accepted_stopAcquisition _ _ _ Hrun) as (H1 & H2 & H3).
  exists evs. split; [done|]. split; [done|]. split; [done|]. split.
  - intros [Hok|Hpub]; apply H3; [by apply Hfin|].
    by apply (accepted_published _ _ _ Hrun).
  - intros measure Hatt Hready Hfuel.
    assert (Hok : r.1 = Ok ())
      by (by apply (readThreadIteration_returns digitizer measure Hatt)).
    split; [exact Hok|]. apply H3. by apply Hfin.
Qed.

(** The scripted digitizer when it delivers [total] bursts and then fails
    to read, and a client writes Disarm to ARM_REQUEST whenever the arm
    state is Error. *)
Definition attended (rate : float) (overflow_at : nat) (num_buffer_bursts : Z)
    (total : nat) : DigitizerDriver Script :=
  let d := scripted rate overflow_at num_buffer_bursts in
  mkDigitizerDriver Script
    (requestedSampleRateChanged d) (waitForPreconditions d) (checkSettings d)
    (startAcquisition d)
    (fun d' a => if (reads a <? total)%nat then readBurst d d' a else (false, a))
    (checkOverflow d) (processBurstData d)
    (interruptReading d) (stopAcquisition d)
    (fun d' a =>
       if ArmState_eqb (m_arm_state d') ArmStateError
       then ([WriteInt32 ARM_REQUEST 0], a)
       else otherThreads d d' a).

Definition burstsLeft (total : nat) (a : Script) : nat := total - reads a.

(** An arming of the driver object for an unlimited number of bursts of
    100 samples; the digitizer reports an overflow at the fourth burst and
    fails to read the eighth. *)
Definition failingRun : Sys Script :=
  (runActions (attended 1000 4 2 7)
     [WriteInt32 DESIRED_NUM_POST_SAMPLES 100; WriteInt32 ARM_REQUEST 1]
     (startOfRun (sampleDriver false) (mkScript 0 []))).2.

Lemma Attended_attended (rate : float) (overflow_at : nat)
    (num_buffer_bursts : Z) (total : nat) :
  (0 < num_buffer_bursts)%Z ->
  Attended (attended rate overflow_at num_buffer_bursts total) (burstsLeft total).
Proof.
  intros Hpos. split; cbn -[Nat.ltb Nat.sub]; unfold burstsLeft; intros; auto.
  - rewrite H. apply Exists_cons_hd. cbn. auto.
  - destruct (Nat.ltb_spec (reads a) total); cbn -[Nat.sub];
      [|split; [lia|discriminate]].
    split; [lia|]. intros _. lia.
  - destruct (ArmState_eqb (m_arm_state d) ArmStateError); [done|].
    by destruct (calls a).
Defined.

Lemma Ready_failingRun : Ready failingRun.
Proof.
  unfold Ready. split; [vm_compute; reflexivity|]. split; [vm_compute; reflexivity|].
  split; [vm_compute; reflexivity|].
  split; [left; vm_compute; reflexivity|vm_compute; discriminate].
Defined.

Lemma Ready_armedRun : Ready armedRun.
Proof.
  unfold Ready. split; [vm_compute; reflexivity|]. split; [vm_compute; reflexivity|].
  split; [vm_compute; reflexivity|].
  split; [left; vm_compute; reflexivity|vm_compute; discriminate].
Defined.

(** The events of the two armings: the first starts the acquisition twice
    and stops it once, after the failed read and the request to disarm; the
    second fails in [checkBasicSettings], as no number of samples was set,
    and calls neither [startAcquisition] nor [stopAcquisition]. *)
Lemma failingRun_events :
  let r := readThreadIteration (attended 1000 4 2 7) 20 failingRun in
  r.1 = Ok () /\
  log r.2 = log failingRun ++
    [EvWaitForPreconditions true; EvCheckBasicSettings true;
     EvCheckSettings true; EvStartAcquisition false true;
     EvSetArmState ArmStatePostTrigger; EvReadBurst true;
     EvCheckOverflow true false 2; EvProcessBurstData true;
     EvReadBurst true; EvCheckOverflow true false 2;
     EvProcessBurstData true; EvReadBurst true;
     EvCheckOverflow true false 2; EvProcessBurstData true;
     EvReadBurst true; EvCheckOverflow true true 2;
     EvProcessBurstData true; EvReadBurst true;
     EvProcessBurstData true; EvStartAcquisition true true;
     EvReadBurst true; EvCheckOverflow true false 2;
     EvProcessBurstData true; EvReadBurst true;
     EvCheckOverflow true false 2; EvProcessBurstData true;
     EvReadBurst false; EvSetArmState ArmStateError;
     EvSetArmState ArmStateBusy; EvRequestDisarming ArmStateDisarm;
     EvStopAcquisition; EvSetArmState ArmStateDisarm].
Proof. by vm_compute. Qed.

Lemma armedRun_precheck_events :
  let r := readThreadIteration (attended 1000 4 2 7) 20 armedRun in
  r.1 = Ok () /\
  log r.2 = log armedRun ++
    [EvWaitForPreconditions true; EvCheckBasicSettings false;
     EvSetArmState ArmStateError; EvSetArmState ArmStateBusy;
     EvRequestDisarming ArmStateDisarm; EvSetArmState ArmStateDisarm].
Proof. by vm_compute. Qed.

Lemma stopAcquisition_iff_startAcquisition_witness :
  (Basic (drv failingRun) /\
   Attended (attended 1000 4 2 7) (burstsLeft 7) /\
   Ready failingRun /\
   burstsLeft 7 (ext failingRun) < 20 /\
   let r := readThreadIteration (attended 1000 4 2 7) 20 failingRun in
   r.1 = Ok () /\
   exists evs,
     log r.2 = log failingRun ++ evs /\
     (exists pre post, evs = pre ++ EvStopAcquisition :: post /\
        EvStartAcquisition false true ∈ pre /\
        (EvStopAcquisition ∉ pre) /\
        (EvStopAcquisition ∉ post) /\
        (forall overflow ok, EvStartAcquisition overflow ok ∉ post) /\
        (EvSetArmState ArmStateDisarm ∉ pre)) /\
     (EvStopAcquisition ∈ evs <->
      exists overflow ok, EvStartAcquisition overflow ok ∈ evs)) /\
  (Basic (drv armedRun) /\
   Ready armedRun /\
   burstsLeft 7 (ext armedRun) < 20 /\
   let r := readThreadIteration (attended 1000 4 2 7) 20 armedRun in
   r.1 = Ok () /\
   exists evs,
     log r.2 = log armedRun ++ evs /\
     EvCheckBasicSettings false ∈ evs /\
     (forall overflow ok, EvStartAcquisition overflow ok ∉ evs) /\
     (EvStopAcquisition ∉ evs) /\
     (EvStopAcquisition ∈ evs <->
      exists overflow ok, EvStartAcquisition overflow ok ∈ evs)).
Proof.
  assert (Hatt : Attended (attended 1000 4 2 7) (burstsLeft 7))
    by (apply Attended_attended; lia).
  assert (Hb1 : Basic (drv failingRun)) by (intros _; left; vm_compute; reflexivity).
  assert (Hb2 : Basic (drv armedRun)) by (intros _; left; vm_compute; reflexivity).
  assert (Hm1 : burstsLeft 7 (ext failingRun) < 20) by (vm_compute; lia).
  assert (Hm2 : burstsLeft 7 (ext armedRun) < 20) by (vm_compute; lia).
  split.
  - split; [exact Hb1|]. split; [exact Hatt|]. split; [exact Ready_failingRun|].
    split; [exact Hm1|].
    destruct (stopAcquisition_iff_startAcquisition
                (attended 1000 4 2 7) 20 failingRun Hb1)
      as (evs & Hlog & H1 & _ & _ & H4).
    destruct (H4 (burstsLeft 7) Hatt Ready_failingRun Hm1) as [Hok Hiff].
    split; [exact Hok|]. exists evs. split; [exact Hlog|]. split; [|exact Hiff].
    destruct failingRun_events as [_ Hevs].
    pose proof (eq_trans (eq_sym Hlog) Hevs) as Heq. apply app_inv_head in Heq.
    eexists (take 30 evs), (drop 31 evs).
    assert (Hsplit : evs = take 30 evs ++ EvStopAcquisition :: drop 31 evs)
      by (rewrite Heq; reflexivity).
    split; [exact Hsplit|].
    split; [rewrite Heq; apply list_elem_of_In; cbn; tauto|].
    destruct (H1 _ _ Hsplit) as (_ & G2 & G3 & G4 & G5). auto.
  - split; [exact Hb2|]. split; [exact Ready_armedRun|]. split; [exact Hm2|].
    destruct (stopAcquisition_iff_startAcquisition
                (attended 1000 4 2 7) 20 armedRun Hb2)
      as (evs & Hlog & _ & H2 & _ & H4).
    destruct (H4 (burstsLeft 7) Hatt Ready_armedRun Hm2) as [Hok Hiff].
    split; [exact Hok|]. exists evs. split; [exact Hlog|].
    destruct armedRun_precheck_events as [_ Hevs].
    pose proof (eq_trans (eq_sym Hlog) Hevs) as Heq. apply app_inv_head in Heq.
    assert (Hin : EvCheckBasicSettings false ∈ evs)
      by (rewrite Heq; apply list_elem_of_In; cbn; tauto).
    split; [exact Hin|]. destruct (H2 (or_intror (or_introl Hin))) as [G1 G2].
    auto.
Defined.

(** ** Effective values and the arm state (C4, C7) *)

(** A write to the parameter library: it changes the parameter at the index
    when there is one of the type of the value. *)
Definition writeParam (index : nat) (v : paramVal) (l : paramList) : paramList :=
  match l !! index with
  | Some p => if asynParamType_eqb (paramType p) (paramType v) then <[index := v]> l else l
  | None => l
  end.

Lemma setIntegerParam_writeParam (index : nat) (v : Z) (l : paramList) :
  setIntegerParam index v l = writeParam index (ParamInt32 v) l.
Proof. reflexivity. Qed.

Lemma setDoubleParam_writeParam (index : nat) (v : float) (l : paramList) :
  setDoubleParam index v l = writeParam index (ParamFloat64 v) l.
Proof. reflexivity. Qed.

Lemma asynParamType_eqb_eq (a b : asynParamType) :
  asynParamType_eqb a b = true <-> a = b.
Proof. destruct a, b; cbn; split; congruence. Qed.

Lemma writeParam_types (index : nat) (v : paramVal) (l : paramList) :
  paramType <$> writeParam index v l = paramType <$> l.
Proof.
  unfold writeParam. destruct (l !! index) as [p|] eqn:Hp; [|done].
  destruct (asynParamType_eqb _ _) eqn:Ht; [|done].
  apply asynParamType_eqb_eq in Ht.
  rewrite list_fmap_insert, <- Ht. apply list_insert_id.
  by rewrite list_lookup_fmap, Hp.
Qed.

Lemma writeParam_lookup_ne (index i : nat) (v : paramVal) (l : paramList) :
  index <> i -> writeParam index v l !! i = l !! i.
Proof.
  intros Hne. unfold writeParam. destruct (l !! index) as [p|]; [|done].
  destruct (asynParamType_eqb _ _); [|done]. by apply list_lookup_insert_ne.
Qed.

Lemma writeParam_lookup_eq (index : nat) (v : paramVal) (l : paramList) :
  paramType <$> l !! index = Some (paramType v) ->
  writeParam index v l !! index = Some v.
Proof.
  unfold writeParam. destruct (l !! index) as [p|] eqn:Hp; [|done].
  cbn. intros [= Ht]. rewrite Ht.
  replace (asynParamType_eqb (paramType v) (paramType v)) with true
    by (symmetry; by apply asynParamType_eqb_eq).
  apply list_lookup_insert_eq. by eapply lookup_lt_Some.
Qed.

(** The effective-value parameters with their invalid values:
    EFFECTIVE_SAMPLE_RATE, whose invalid value is NaN, and the effective
    parameter of every configuration parameter. *)
Definition shape (c : TRConfigParamBase) : nat * paramVal :=
  (base_effective_param c, base_invalidValue c).

Definition effectiveTable (d : TRBaseDriver) : list (nat * paramVal) :=
  (EFFECTIVE_SAMPLE_RATE, ParamFloat64 NAN) :: (shape <$> m_config_params d).

(** Every effective value is the invalid value. *)
Definition Cleared (d : TRBaseDriver) : Prop :=
  Forall (fun iv => params d !! iv.1 = Some iv.2) (effectiveTable d).

(** The parameters the handlers write whatever the list of protected
    parameters says. *)
Definition writable (d : TRBaseDriver) : list nat :=
  [ARM_REQUEST; ARM_STATE; BURST_ID; BURST_TIME_BURST; BURST_TIME_READ;
   BURST_TIME_PROCESS;
   m_desired_param (m_param_requested_sample_rate d);
   m_desired_param (m_param_achievable_sample_rate d)].

(** What the constructors establish and nothing changes afterwards: the
    effective-value parameters exist with the type of their invalid value,
    are distinct from one another and from the parameters of [writable], and
    are write-protected. *)
Record WellFormed (d : TRBaseDriver) : Prop := mkWellFormed {
  wf_types :
    Forall (fun iv => (paramType <$> params d) !! iv.1 = Some (paramType iv.2))
      (effectiveTable d);
  wf_nodup : NoDup (fst <$> effectiveTable d);
  wf_writable : Forall (fun i => i ∉ fst <$> effectiveTable d) (writable d);
  wf_protected : Forall (fun iv => iv.1 ∈ m_protected_params d) (effectiveTable d);
}.

(** The invariant of the driver object: while the arm state is Disarm the
    effective values are invalid, and once disarming is requested data is
    not allowed. *)
Record Invariant (d : TRBaseDriver) : Prop := mkInvariant {
  inv_wf : WellFormed d;
  inv_cleared : m_arm_state d = ArmStateDisarm -> Cleared d;
  inv_allowing : m_disarm_requested d = true -> m_allowing_data d = false;
}.

Lemma writeTable_lookup (t : list (nat * paramVal)) :
  forall l : paramList,
    NoDup (fst <$> t) ->
    Forall (fun iv => (paramType <$> l) !! iv.1 = Some (paramType iv.2)) t ->
    Forall (fun iv => foldl (fun l iv => writeParam iv.1 iv.2 l) l t !! iv.1 = Some iv.2) t.
Proof.
  induction t as [|[i v] t IH]; intros l Hnodup Htypes; [constructor|].
  cbn [fmap list_fmap fst] in Hnodup. apply NoDup_cons in Hnodup as [Hnotin Hnodup].
  apply Forall_cons in Htypes as [Htype Htypes]. cbn [foldl fst snd] in *.
  constructor.
  - cbn [fst snd].
    assert (Hkeep : forall (t' : list (nat * paramVal)) (l' : paramList),
              i ∉ fst <$> t' ->
              foldl (fun l iv => writeParam iv.1 iv.2 l) l' t' !! i = l' !! i).
    { induction t' as [|[j w] t' IH']; intros l' Hj; [done|].
      cbn [foldl fst snd]. cbn [fmap list_fmap fst] in Hj.
      apply not_elem_of_cons in Hj as [Hne Hj].
      rewrite IH' by done. apply writeParam_lookup_ne. congruence. }
    rewrite Hkeep by done. apply writeParam_lookup_eq.
    by rewrite <- list_lookup_fmap.
  - apply IH; [done|]. by rewrite writeParam_types.
Qed.

Lemma writeTable_types (t : list (nat * paramVal)) (l : paramList) :
  paramType <$> foldl (fun l iv => writeParam iv.1 iv.2 l) l t = paramType <$> l.
Proof.
  revert l. induction t as [|[i v] t IH]; intros l; [done|].
  cbn [foldl]. by rewrite IH, writeParam_types.
Qed.

(** The part of the driver object that [WellFormed] is about. *)
Definition Static (d : TRBaseDriver)
  : list (nat * paramVal) * list asynParamType * list nat * list nat :=
  (effectiveTable d, paramType <$> params d, writable d, m_protected_params d).

Lemma WellFormed_Static (d d' : TRBaseDriver) :
  Static d' = Static d -> WellFormed d -> WellFormed d'.
Proof.
  intros Hstatic [Hw1 Hw2 Hw3 Hw4].
  pose proof (f_equal (fun x => x.1.1.1) Hstatic) as Htable.
  pose proof (f_equal (fun x => x.1.1.2) Hstatic) as Htypes.
  pose proof (f_equal (fun x => x.1.2) Hstatic) as Hwritable.
  pose proof (f_equal snd Hstatic) as Hprotected.
  cbn in Htable, Htypes, Hwritable, Hprotected.
  split; rewrite ?Htable, ?Htypes, ?Hwritable, ?Hprotected; done.
Qed.

Lemma Cleared_frame (d d' : TRBaseDriver) :
  effectiveTable d' = effectiveTable d ->
  (forall i, i ∈ fst <$> effectiveTable d -> params d' !! i = params d !! i) ->
  Cleared d -> Cleared d'.
Proof.
  unfold Cleared. intros -> Hsame Hcleared.
  apply Forall_forall. intros iv Hin. rewrite Hsame.
  - by eapply Forall_forall in Hcleared.
  - apply list_elem_of_fmap. eauto.
Qed.

(** [Dprop armed d]: the invariant, the validity of the requested arm state
    while the arm state is not Disarm, and, in the part of the read thread
    between the wait for an arming and the end of the cleanup, that the arm
    state is not Disarm. *)
Definition Dprop (armed : bool) (d : TRBaseDriver) : Prop :=
  Invariant d /\ Basic d /\ (armed = true -> m_arm_state d <> ArmStateDisarm).

Lemma Dprop_frame (armed : bool) (d d' : TRBaseDriver) :
  Static d' = Static d ->
  (m_arm_state d' = ArmStateDisarm ->
   m_arm_state d = ArmStateDisarm /\
   forall i, i ∈ fst <$> effectiveTable d -> params d' !! i = params d !! i) ->
  (m_disarm_requested d' = true -> m_allowing_data d' = false) ->
  (m_arm_state d' <> ArmStateDisarm -> validRequest (m_requested_arm_state d')) ->
  (armed = true -> m_arm_state d' <> ArmStateDisarm) ->
  Dprop armed d -> Dprop armed d'.
Proof.
  intros Hstatic Hcleared Hallowing Hbasic Harmed ([Hwf Hc Ha] & Hb & Harm).
  split; [split|split]; auto.
  - by eapply WellFormed_Static.
  - intros Hdisarm. destruct (Hcleared Hdisarm) as [Hd Hsame].
    eapply Cleared_frame; [|exact Hsame|by apply Hc].
    exact (f_equal (fun x => x.1.1.1) Hstatic).
Qed.

Lemma Static_write (i : nat) (v : paramVal) (d : TRBaseDriver) :
  Static (set_params (writeParam i v (params d)) d) = Static d.
Proof. unfold Static. cbn. by rewrite writeParam_types. Qed.

Lemma shape_setSnapshotToDesired (port : paramList) (c : TRConfigParamBase) :
  shape (base_setSnapshotToDesired port c) = shape c.
Proof. by destruct c. Qed.

Lemma Static_snapshotConfigParams (d : TRBaseDriver) :
  Static (snapshotConfigParams d) = Static d.
Proof.
  unfold Static, effectiveTable, m_config_params, writable. cbn.
  replace (shape <$> (base_setSnapshotToDesired (params d) <$> m_derived_config_params d))
    with (shape <$> m_derived_config_params d); [reflexivity|].
  rewrite <- list_fmap_compose. apply list_fmap_ext. intros ? c _. cbn.
  symmetry. apply shape_setSnapshotToDesired.
Qed.

Lemma Static_checkBasicSettings (d : TRBaseDriver) :
  Static (checkBasicSettings d).2 = Static d.
Proof.
  unfold checkBasicSettings.
  repeat match goal with |- context [if ?b then _ else _] => destruct b end;
    reflexivity.
Qed.

Lemma shape_alter (f : TRConfigParamBase -> TRConfigParamBase) (i : nat)
  (l : list TRConfigParamBase) :
  (forall c, shape (f c) = shape c) ->
  shape <$> alter f i l = shape <$> l.
Proof.
  intros Hf. apply list_eq. intros j. rewrite !list_lookup_fmap.
  destruct (decide (i = j)) as [->|Hne].
  - rewrite list_lookup_alter_eq.
    destruct (l !! j); cbn; [|done]. by rewrite Hf.
  - by rewrite list_lookup_alter_ne.
Qed.

Lemma Static_applySnapshotEdit (d : TRBaseDriver) (e : SnapshotEdit) :
  Static (applySnapshotEdit d e) = Static d.
Proof.
  unfold Static, effectiveTable, m_config_params, writable, applySnapshotEdit. cbn.
  match goal with
  | |- context [shape <$> ?l] =>
      replace (shape <$> l) with (shape <$> m_derived_config_params d); [reflexivity|]
  end.
  symmetry. destruct e; apply shape_alter; intros c; by destruct c.
Qed.

Lemma Static_applySnapshotEdits (edits : list SnapshotEdit) (d : TRBaseDriver) :
  Static (foldl applySnapshotEdit d edits) = Static d.
Proof.
  revert d. induction edits as [|e edits IH]; intros d; cbn [foldl]; [done|].
  by rewrite IH, Static_applySnapshotEdit.
Qed.

Section Keeping.

Context {A : Type}.

(** A property of the driver object that holds now, with the invariant at
    every moment the lock was free. *)
Definition Lift (D : TRBaseDriver -> Prop) (s : Sys A) : Prop :=
  D (drv s) /\ Forall Invariant (observed s).

(** The code keeps the property, however it ends. *)
Definition Keeps (D : TRBaseDriver -> Prop) {X} (m : M A X) : Prop :=
  forall s, Lift D s -> wp m (fun _ => Lift D) (Lift D) s.

Variable D : TRBaseDriver -> Prop.

Lemma Keeps_bind {X Y} (m : M A X) (k : X -> M A Y) :
  Keeps D m -> (forall x, Keeps D (k x)) -> Keeps D (m ≫= k).
Proof.
  intros Hm Hk s Hs. apply wp_bind. eapply wp_mono; [by apply Hm| |done].
  intros x s' Hs'. by apply Hk.
Qed.

Lemma Keeps_ret {X} (x : X) : Keeps D (mret x : M A X).
Proof. by intros s Hs. Qed.

Lemma Keeps_goto {X} (l : Label) : Keeps D (goto l : M A X).
Proof. by intros s Hs. Qed.

Lemma Keeps_halt {X} (h : Halt) : Keeps D (halt h : M A X).
Proof. by intros s Hs. Qed.

Lemma Keeps_assert (b : bool) : Keeps D (assert b : M A unit).
Proof. intros s Hs. by destruct b. Qed.

Lemma Keeps_gets {X} (f : TRBaseDriver -> X) : Keeps D (gets f : M A X).
Proof. by intros s Hs. Qed.

Lemma Keeps_call {X} (f : TRBaseDriver -> A -> X * A) : Keeps D (call f).
Proof. intros s Hs. apply wp_call. by intros x a _. Qed.

Lemma Keeps_emit (e : Event) : Keeps D (emit e : M A unit).
Proof. by intros s Hs. Qed.

Lemma Keeps_set_need_stop_acquisition (b : bool) :
  Keeps D (set_need_stop_acquisition b : M A unit).
Proof. by intros s Hs. Qed.

Lemma Keeps_get_need_stop_acquisition :
  Keeps D (get_need_stop_acquisition : M A bool).
Proof. by intros s Hs. Qed.

Lemma Keeps_modify (f : TRBaseDriver -> TRBaseDriver) :
  (forall d, D d -> D (f d)) -> Keeps D (modify f : M A unit).
Proof. intros Hf s [Hd Ho]. split; [by apply Hf|done]. Qed.

Lemma Keeps_state {X} (f : TRBaseDriver -> X * TRBaseDriver) :
  (forall d, D d -> D (f d).2) -> Keeps D (state f : M A X).
Proof.
  intros Hf s [Hd Ho]. apply wp_state. intros x d Hx.
  split; [|done]. cbn. specialize (Hf _ Hd). by rewrite Hx in Hf.
Qed.

Lemma Keeps_observe :
  (forall d, D d -> Invariant d) -> Keeps D (observe : M A unit).
Proof.
  intros HD s [Hd Ho]. split; [done|]. cbn.
  apply Forall_app. split; [done|]. constructor; [by apply HD|constructor].
Qed.

Lemma Keeps_assert_bind {Y} (b : bool) (k : M A Y) :
  (b = true -> Keeps D k) -> Keeps D (assert b;; k).
Proof.
  intros Hk s Hs. destruct b; [|done]. by apply (Hk eq_refl).
Qed.

Lemma Keeps_gets_bind {X Y} (g : TRBaseDriver -> X) (k : X -> M A Y) :
  (forall s, Lift D s -> wp (k (g (drv s))) (fun _ => Lift D) (Lift D) s) ->
  Keeps D (gets g ≫= k).
Proof. intros Hk s Hs. by apply Hk. Qed.

Lemma Keeps_modify2 {Y} (f g : TRBaseDriver -> TRBaseDriver) (k : M A Y) :
  Keeps D (modify (fun d => g (f d));; k) ->
  Keeps D (modify f;; modify g;; k).
Proof. intros Hk s Hs. exact (Hk s Hs). Qed.

Lemma Keeps_catch (m : M A Empty_set) : Keeps D m -> Keeps D (catch m).
Proof.
  intros Hm s Hs. apply wp_catch. eapply wp_mono; [by apply Hm|done|]. auto.
Qed.

End Keeping.

(** Decomposes a proof that a piece of code keeps a property. *)
Ltac keeps :=
  repeat first
    [ assumption
    | lazymatch goal with
      | |- Keeps _ (mbind _ _) => apply Keeps_bind; [|intros]
      | |- Keeps _ (mret _) => apply Keeps_ret
      | |- Keeps _ (goto _) => apply Keeps_goto
      | |- Keeps _ (halt _) => apply Keeps_halt
      | |- Keeps _ (assert _) => apply Keeps_assert
      | |- Keeps _ (gets _) => apply Keeps_gets
      | |- Keeps _ (call _) => apply Keeps_call
      | |- Keeps _ (emit _) => apply Keeps_emit
      | |- Keeps _ (set_need_stop_acquisition _) =>
          apply Keeps_set_need_stop_acquisition
      | |- Keeps _ get_need_stop_acquisition =>
          apply Keeps_get_need_stop_acquisition
      | |- Keeps _ (modify _) => apply Keeps_modify
      | |- Keeps _ (state _) => apply Keeps_state
      | |- Keeps _ observe => apply Keeps_observe
      | |- Keeps _ unlock => apply Keeps_observe
      | |- Keeps _ (if ?b then _ else _) => destruct b
      | |- Keeps _ (match ?x with _ => _ end) => destruct x
      | |- Keeps _ (pair (Ok _)) => apply Keeps_ret
      end ].

(** *** What the assignments of the code do to the invariant *)

Lemma Dprop_Invariant (armed : bool) (d : TRBaseDriver) : Dprop armed d -> Invariant d.
Proof. by intros [? _]. Qed.

Lemma Dprop_weaken (armed : bool) (d : TRBaseDriver) : Dprop armed d -> Dprop false d.
Proof. intros (? & ? & _). split; [done|]. split; [done|]. discriminate. Qed.

Lemma Dprop_write (armed : bool) (i : nat) (v : paramVal) (d : TRBaseDriver) :
  i ∉ fst <$> effectiveTable d ->
  Dprop armed d -> Dprop armed (set_params (writeParam i v (params d)) d).
Proof.
  intros Hi HD. pose proof HD as ([Hwf Hc Ha] & Hb & Harm).
  eapply (Dprop_frame _ d); [apply Static_write| | | | |exact HD]; try done.
  intros Hdisarm. split; [done|]. intros j Hj. cbn.
  apply writeParam_lookup_ne. by intros ->.
Qed.

Lemma Dprop_write_writable (armed : bool) (i : nat) (v : paramVal) (d : TRBaseDriver) :
  i ∈ writable d ->
  Dprop armed d -> Dprop armed (set_params (writeParam i v (params d)) d).
Proof.
  intros Hi HD. apply Dprop_write; [|done].
  destruct HD as ([Hwf _ _] & _). destruct Hwf as [_ _ Hw _].
  by eapply Forall_forall in Hw.
Qed.

Lemma Dprop_write_unprotected (armed : bool) (i : nat) (v : paramVal)
  (d : TRBaseDriver) :
  checkProtectedParamWrite i d = true ->
  Dprop armed d -> Dprop armed (set_params (writeParam i v (params d)) d).
Proof.
  intros Hi HD. apply Dprop_write; [|done].
  destruct HD as ([Hwf _ _] & _). destruct Hwf as [_ _ _ Hp].
  unfold checkProtectedParamWrite in Hi. apply negb_true_iff in Hi.
  apply bool_decide_eq_false in Hi. intros Hin. apply Hi.
  apply list_elem_of_fmap in Hin as (iv & -> & Hin).
  by eapply Forall_forall in Hp.
Qed.

Lemma Dprop_arm_state (st : ArmState) (d : TRBaseDriver) :
  st <> ArmStateDisarm ->
  Dprop true d -> Dprop true (set_m_arm_state st d).
Proof.
  intros Hst HD. pose proof HD as ([Hwf Hc Ha] & Hb & Harm).
  eapply (Dprop_frame _ d); [reflexivity| | | | |exact HD]; try done.
  intros _. apply Hb. by apply Harm.
Qed.

Lemma Dprop_disarm_requested (armed : bool) (d : TRBaseDriver) :
  Dprop armed d ->
  Dprop armed (set_m_allowing_data false (set_m_disarm_requested true d)).
Proof.
  intros HD. pose proof HD as ([Hwf Hc Ha] & Hb & Harm).
  eapply (Dprop_frame _ d); [reflexivity| | | | |exact HD]; done.
Qed.

Lemma Dprop_allowing_data (armed b : bool) (d : TRBaseDriver) :
  (b = true -> m_disarm_requested d = false) ->
  Dprop armed d -> Dprop armed (set_m_allowing_data b d).
Proof.
  intros Hd HD. pose proof HD as ([Hwf Hc Ha] & Hb & Harm).
  eapply (Dprop_frame _ d); [reflexivity| | | | |exact HD]; try done.
  cbn. intros Hreq. destruct b; [|done]. rewrite Hd in Hreq; done.
Qed.

Lemma Dprop_snapshotConfigParams (armed : bool) (d : TRBaseDriver) :
  Dprop armed d -> Dprop armed (snapshotConfigParams d).
Proof.
  intros HD. pose proof HD as ([Hwf Hc Ha] & Hb & Harm).
  eapply (Dprop_frame _ d); [apply Static_snapshotConfigParams| | | | |exact HD]; done.
Qed.

Lemma Dprop_checkBasicSettings (armed : bool) (d : TRBaseDriver) :
  Dprop armed d -> Dprop armed (checkBasicSettings d).2.
Proof.
  intros HD. pose proof HD as ([Hwf Hc Ha] & Hb & Harm).
  pose proof (checkBasicSettings_frame d) as (_ & Harm' & Hreq').
  assert (Hparams : params (checkBasicSettings d).2 = params d
                    /\ m_disarm_requested (checkBasicSettings d).2 = m_disarm_requested d
                    /\ m_allowing_data (checkBasicSettings d).2 = m_allowing_data d).
  { unfold checkBasicSettings.
    repeat match goal with |- context [if ?b then _ else _] => destruct b end;
      done. }
  destruct Hparams as (Hparams & Hdr & Had).
  eapply (Dprop_frame _ d); [apply Static_checkBasicSettings| | | | |exact HD].
  - rewrite Harm'. intros Hdis. split; [done|]. intros i _. by rewrite Hparams.
  - by rewrite Hdr, Had.
  - by rewrite Harm', Hreq'.
  - by rewrite Harm'.
Qed.

Lemma Dprop_applySnapshotEdits (armed : bool) (edits : list SnapshotEdit)
  (d : TRBaseDriver) :
  Dprop armed d -> Dprop armed (foldl applySnapshotEdit d edits).
Proof.
  revert d. induction edits as [|e edits IH]; intros d HD; cbn [foldl]; [done|].
  apply IH. pose proof HD as ([Hwf Hc Ha] & Hb & Harm).
  eapply (Dprop_frame _ d); [apply Static_applySnapshotEdit| | | | |exact HD]; done.
Qed.

Lemma setEffectiveToSnapshot_types (c : TRConfigParamBase) (port : paramList) :
  paramType <$> base_setEffectiveToSnapshot c port = paramType <$> port.
Proof.
  destruct c as [p|p|p].
  - exact (writeParam_types (m_effective_param p)
             (ParamInt32 (if m_irrelevant p then m_invalid_value p
                          else convert (m_snapshot_value p))) port).
  - exact (writeParam_types (m_effective_param p)
             (ParamFloat64 (if m_irrelevant p then m_invalid_value p
                            else convert (m_snapshot_value p))) port).
  - exact (writeParam_types (m_effective_param p)
             (ParamFloat64 (if m_irrelevant p then m_invalid_value p
                            else convert (m_snapshot_value p))) port).
Qed.

Lemma processConfigParams_types (func : TRConfigParamBase -> paramList -> paramList)
  (cs : list TRConfigParamBase) (port : paramList) :
  (forall c port, paramType <$> func c port = paramType <$> port) ->
  paramType <$> foldl (fun port c => func c port) port cs = paramType <$> port.
Proof.
  intros Hfunc. revert port.
  induction cs as [|c cs IH]; intros port; cbn [foldl]; [done|].
  by rewrite IH, Hfunc.
Qed.

Lemma Static_setEffectiveParams (d : TRBaseDriver) :
  Static (setEffectiveParams d) = Static d.
Proof.
  assert (Htypes : paramType <$> params (setEffectiveParams d) = paramType <$> params d).
  { unfold setEffectiveParams, processConfigParams. cbn [params set_params].
    rewrite processConfigParams_types by apply setEffectiveToSnapshot_types.
    exact (writeParam_types _ (ParamFloat64 _) _). }
  unfold Static. rewrite Htypes. reflexivity.
Qed.

Lemma Dprop_setEffectiveParams (d : TRBaseDriver) :
  Dprop true d -> Dprop true (setEffectiveParams d).
Proof.
  intros HD. pose proof HD as ([Hwf Hc Ha] & Hb & Harm).
  eapply (Dprop_frame _ d); [apply Static_setEffectiveParams| | | | |exact HD];
    try done.
  intros Hdisarm. by destruct (Harm eq_refl).
Qed.

Lemma setEffectiveToInvalid_writeParam (c : TRConfigParamBase) (port : paramList) :
  base_setEffectiveToInvalid c port = writeParam (shape c).1 (shape c).2 port.
Proof. by destruct c. Qed.

Lemma clearEffectiveParams_table (d : TRBaseDriver) :
  params (clearEffectiveParams d) =
    foldl (fun l iv => writeParam iv.1 iv.2 l) (params d) (effectiveTable d).
Proof.
  unfold clearEffectiveParams, processConfigParams, effectiveTable. cbn [params set_params].
  cbn [foldl fst snd]. rewrite foldl_fmap.
  change (m_config_params (set_params _ d)) with (m_config_params d).
  rewrite setDoubleParam_writeParam.
  generalize (writeParam EFFECTIVE_SAMPLE_RATE (ParamFloat64 NAN) (params d)).
  induction (m_config_params d) as [|c cs IH]; intros port; cbn [foldl]; [done|].
  by rewrite IH, setEffectiveToInvalid_writeParam.
Qed.

Lemma Static_clearEffectiveParams (d : TRBaseDriver) :
  Static (clearEffectiveParams d) = Static d.
Proof.
  unfold Static. rewrite clearEffectiveParams_table, writeTable_types. reflexivity.
Qed.

(** After [clearEffectiveParams] the invariant holds whatever the arm state
    is set to. *)
Lemma Dprop_clearEffectiveParams (armed : bool) (st : ArmState) (d : TRBaseDriver) :
  (st <> ArmStateDisarm -> m_arm_state d <> ArmStateDisarm) ->
  Dprop armed d ->
  Dprop false (set_m_arm_state st (clearEffectiveParams d)).
Proof.
  intros Hst ([Hwf Hc Ha] & Hb & Harm).
  assert (Hwf' : WellFormed (clearEffectiveParams d))
    by (eapply WellFormed_Static; [apply Static_clearEffectiveParams|done]).
  split; [split|split]; try done.
  - eapply WellFormed_Static; [|exact Hwf']. reflexivity.
  - intros _. unfold Cleared. cbn [params set_m_arm_state].
    change (effectiveTable (set_m_arm_state st (clearEffectiveParams d)))
      with (effectiveTable d).
    rewrite clearEffectiveParams_table. destruct Hwf as [Ht Hn _ _].
    by apply writeTable_lookup.
  - intros Harm'. apply Hb. apply Hst. exact Harm'.
Qed.

Lemma Dprop_setIntegerParam (armed : bool) (i : nat) (v : Z) (d : TRBaseDriver) :
  i ∈ writable d \/ checkProtectedParamWrite i d = true ->
  Dprop armed d -> Dprop armed (set_params (setIntegerParam i v (params d)) d).
Proof.
  intros [Hi|Hi] HD.
  - exact (Dprop_write_writable armed i (ParamInt32 v) d Hi HD).
  - exact (Dprop_write_unprotected armed i (ParamInt32 v) d Hi HD).
Qed.

Lemma Dprop_setDoubleParam (armed : bool) (i : nat) (v : float) (d : TRBaseDriver) :
  i ∈ writable d \/ checkProtectedParamWrite i d = true ->
  Dprop armed d -> Dprop armed (set_params (setDoubleParam i v (params d)) d).
Proof.
  intros [Hi|Hi] HD.
  - exact (Dprop_write_writable armed i (ParamFloat64 v) d Hi HD).
  - exact (Dprop_write_unprotected armed i (ParamFloat64 v) d Hi HD).
Qed.

(** Membership in a list that is written out. *)
Ltac elem :=
  unfold writable;
  repeat first [ apply list_elem_of_here | apply list_elem_of_further ].

Lemma Dprop_setAchievableSampleRate (armed : bool) (value : float) (d : TRBaseDriver) :
  Dprop armed d -> Dprop armed (setAchievableSampleRate value d).
Proof.
  intros HD.
  refine (Dprop_setDoubleParam armed
            (m_desired_param (m_param_achievable_sample_rate d)) value d _ HD).
  left. elem.
Qed.

Lemma Dprop_publishBurstMetaInfo (armed : bool) (info : TRBurstMetaInfo)
  (d : TRBaseDriver) :
  Dprop armed d -> Dprop armed (publishBurstMetaInfo info d).
Proof.
  intros HD.
  assert (H1 := Dprop_setIntegerParam armed BURST_ID (burst_id info) d
                  ltac:(left; elem) HD).
  assert (H2 := Dprop_setDoubleParam armed BURST_TIME_BURST (time_burst info) _
                  ltac:(left; elem) H1).
  assert (H3 := Dprop_setDoubleParam armed BURST_TIME_READ (time_read info) _
                  ltac:(left; elem) H2).
  assert (H4 := Dprop_setDoubleParam armed BURST_TIME_PROCESS (time_process info) _
                  ltac:(left; elem) H3).
  exact H4.
Qed.

Lemma Dprop_setArmState (st : ArmState) (d : TRBaseDriver) :
  st <> ArmStateDisarm ->
  Dprop true d ->
  Dprop true
    (set_params (setIntegerParam ARM_STATE (ArmState_to_int st)
                   (params (set_m_arm_state st d))) (set_m_arm_state st d)).
Proof.
  intros Hst HD. apply Dprop_setIntegerParam; [left; elem|].
  by apply Dprop_arm_state.
Qed.

Lemma Dprop_same (armed : bool) (d d' : TRBaseDriver) :
  Static d' = Static d ->
  params d' = params d ->
  m_arm_state d' = m_arm_state d ->
  m_disarm_requested d' = m_disarm_requested d ->
  m_allowing_data d' = m_allowing_data d ->
  m_requested_arm_state d' = m_requested_arm_state d ->
  Dprop armed d -> Dprop armed d'.
Proof.
  intros Hstatic Hparams Harm Hdr Had Hreq HD.
  pose proof HD as ([Hwf Hc Ha] & Hb & Harmed).
  apply (Dprop_frame armed d); try done.
  - rewrite Harm. intros Hdisarm. split; [done|]. intros i _. by rewrite Hparams.
  - by rewrite Hdr, Had.
  - unfold Basic in Hb. by rewrite Harm, Hreq.
  - by rewrite Harm.
Qed.

(** What [startArming] has assigned when it returns. *)
Lemma Dprop_startArming (armed armed' : bool) (r : ArmState) (d d' : TRBaseDriver) :
  validRequest r ->
  Static d' = Static (set_params (writeParam ARM_STATE
                                    (ParamInt32 (ArmState_to_int ArmStateBusy))
                                    (params d)) d) ->
  m_arm_state d' = ArmStateBusy ->
  m_disarm_requested d' = false ->
  m_requested_arm_state d' = r ->
  Dprop armed d ->
  Dprop armed' d'.
Proof.
  intros Hr Hstatic Harm Hdr Hreq ([Hwf Hc Ha] & Hb & Harmed).
  split; [split|split].
  - eapply WellFormed_Static; [|exact Hwf]. rewrite Hstatic. apply Static_write.
  - by rewrite Harm.
  - by rewrite Hdr.
  - intros _. by rewrite Hreq.
  - by rewrite Harm.
Qed.

(** Assignments that leave alone what the invariant is about, and the
    others. *)
Ltac dprop :=
  let d := fresh "d" in
  let HD := fresh "HD" in
  intros d HD;
  first
    [ apply (Dprop_same _ d); [reflexivity..|exact HD]
    | apply Dprop_setIntegerParam; [left; elem|exact HD]
    | apply Dprop_setDoubleParam; [left; elem|exact HD]
    | apply Dprop_arm_state; [discriminate|exact HD]
    | apply Dprop_setArmState; [discriminate|exact HD]
    | apply Dprop_setAchievableSampleRate; exact HD
    | apply Dprop_publishBurstMetaInfo; exact HD
    | apply Dprop_snapshotConfigParams; exact HD
    | apply Dprop_checkBasicSettings; exact HD
    | apply Dprop_applySnapshotEdits; exact HD
    | apply Dprop_setEffectiveParams; exact HD
    | apply Dprop_allowing_data; [discriminate|exact HD]
    | apply (Dprop_Invariant _ _ HD) ].

Section KeptCode.

Context {A : Type} (digitizer : DigitizerDriver A).

Lemma Keeps_armed {X} (m : M A X) :
  Keeps (Dprop true) m ->
  (forall s, m_arm_state (drv s) = ArmStateDisarm -> (m s).2 = s) ->
  Keeps (Dprop false) m.
Proof.
  intros Hm Hstop s [HD Ho].
  destruct (decide (m_arm_state (drv s) = ArmStateDisarm)) as [Hdisarm|Harm].
  - unfold wp. specialize (Hstop s Hdisarm).
    destruct (m s) as [[x|l|h] s']; cbn in Hstop; subst; by split.
  - eapply wp_mono; [apply Hm| |].
    + split; [|done]. destruct HD as (? & ? & _).
      split; [done|]. split; [done|]. by intros _.
    + intros x s' [HD' Ho']. split; [by eapply Dprop_weaken|done].
    + intros s' [HD' Ho']. split; [by eapply Dprop_weaken|done].
Qed.

Lemma Keeps_startArming (armed : bool) (r : ArmState) :
  Keeps (Dprop armed) (startArming r : M A unit).
Proof.
  unfold startArming. apply Keeps_assert_bind. intros Hr.
  apply Keeps_bind; [keeps|intros arm_state]. apply Keeps_assert_bind. intros _.
  apply Keeps_bind; [keeps|intros init_completed]. apply Keeps_assert_bind. intros _.
  assert (Hvalid : validRequest r).
  { apply orb_true_iff in Hr as [Hr|Hr]; apply ArmState_eqb_eq in Hr; subst;
      [by left|by right]. }
  intros s [HD Ho]. split; [|exact Ho].
  apply (Dprop_startArming armed armed r (drv s)); try done.
Qed.

Lemma Keeps_setArmState (st : ArmState) :
  st <> ArmStateDisarm -> Keeps (Dprop true) (setArmState st : M A unit).
Proof.
  intros Hst. unfold setArmState. keeps.
  - intros d HD. by apply Dprop_arm_state.
  - dprop.
Qed.

Lemma Keeps_requestDisarming (armed : bool) (r : ArmState) :
  Keeps (Dprop armed) (requestDisarming digitizer r).
Proof.
  assert (Harmed : Keeps (Dprop true) (requestDisarming digitizer r)).
  { unfold requestDisarming.
    apply Keeps_bind; [keeps|intros arm_state].
    apply Keeps_bind; [keeps|intros _].
    apply Keeps_bind; [keeps|intros disarm_requested].
    apply Keeps_bind; [|intros _; keeps; dprop].
    destruct (negb disarm_requested); [|keeps].
    apply Keeps_modify2. apply Keeps_bind; [|intros _].
    - apply Keeps_modify. intros d HD. by apply Dprop_disarm_requested.
    - apply Keeps_bind; [by apply Keeps_setArmState|intros _]. keeps; dprop. }
  destruct armed; [done|]. apply Keeps_armed; [done|].
  intros s Hdisarm. unfold requestDisarming. run_monad. by rewrite Hdisarm.
Qed.

Lemma Keeps_handleArmRequest (armed : bool) (armRequest : Z) :
  Keeps (Dprop armed) (handleArmRequest digitizer armRequest).
Proof.
  unfold handleArmRequest. keeps.
  - apply Keeps_startArming.
  - apply Keeps_requestDisarming.
Qed.

Lemma Keeps_protectedWrite (armed : bool) (reason : nat)
  (write : M A asynStatus) (f : TRBaseDriver -> TRBaseDriver) :
  (forall d, checkProtectedParamWrite reason d = true ->
             Dprop armed d -> Dprop armed (f d)) ->
  write = (modify f;; mret asynSuccess) ->
  Keeps (Dprop armed)
    (ok ← gets (checkProtectedParamWrite reason);
     if negb ok then mret asynError else write).
Proof.
  intros Hf ->. apply Keeps_gets_bind. intros s [HD Ho].
  destruct (checkProtectedParamWrite reason (drv s)) eqn:Hok; cbn [negb].
  - split; [|done]. by apply Hf.
  - by split.
Qed.

Lemma Keeps_writeInt32 (armed : bool) (reason : nat) (value : Z) :
  Keeps (Dprop armed) (writeInt32 digitizer reason value).
Proof.
  unfold writeInt32. destruct (Nat.eqb_spec reason ARM_REQUEST) as [->|Hne].
  - unfold asynPortDriver_writeInt32. keeps; [dprop|].
    apply Keeps_handleArmRequest.
  - eapply Keeps_protectedWrite; [|reflexivity].
    intros d Hok HD. apply Dprop_setIntegerParam; auto.
Qed.

Lemma Keeps_writeFloat64 (armed : bool) (reason : nat) (value : float) :
  Keeps (Dprop armed) (writeFloat64 digitizer reason value).
Proof.
  unfold writeFloat64. apply Keeps_gets_bind. intros s Hs.
  destruct (Nat.eqb_spec reason
              (m_desired_param (m_param_requested_sample_rate (drv s)))) as [->|Hne].
  - assert (Hrest : Keeps (Dprop armed)
                      (achievable ← call (requestedSampleRateChanged digitizer);
                       match achievable : option float with
                       | Some rate => modify (setAchievableSampleRate rate)
                       | None => mret ()
                       end;;
                       mret asynSuccess : M A asynStatus))
      by (keeps; dprop).
    destruct Hs as [HD Ho].
    apply wp_bind. unfold asynPortDriver_writeFloat64. apply wp_bind, wp_modify, wp_ret.
    apply Hrest. split; [|done]. cbn [drv].
    apply Dprop_setDoubleParam; [left; elem|done].
  - refine (Keeps_protectedWrite armed reason _
              (fun d => set_params (setDoubleParam reason value (params d)) d)
              _ eq_refl s Hs).
    intros d Hok HD. apply Dprop_setDoubleParam; auto.
Qed.

Lemma Keeps_runAction (armed : bool) (act : Action) :
  Keeps (Dprop armed) (runAction digitizer act).
Proof.
  unfold runAction, requestDisarmingFromDriver. destruct act; keeps; try dprop.
  - apply Keeps_writeInt32.
  - apply Keeps_writeFloat64.
  - apply Keeps_requestDisarming.
Qed.

Lemma Keeps_runActions (armed : bool) (acts : list Action) :
  Keeps (Dprop armed) (runActions digitizer acts).
Proof.
  induction acts as [|act acts IH]; cbn [runActions]; keeps.
  apply Keeps_runAction.
Qed.

Lemma Keeps_lock (armed : bool) : Keeps (Dprop armed) (lock digitizer).
Proof. unfold lock. keeps. apply Keeps_runActions. Qed.

Lemma Keeps_unlock (armed : bool) : Keeps (Dprop armed) (unlock : M A unit).
Proof. keeps. dprop. Qed.

Lemma Keeps_waitEvent (armed : bool) (get : TRBaseDriver -> bool)
  (set : bool -> TRBaseDriver -> TRBaseDriver) :
  (forall d, Dprop armed d -> Dprop armed (set false d)) ->
  Keeps (Dprop armed) (waitEvent digitizer get set).
Proof. intros Hset. unfold waitEvent. keeps. apply Keeps_runActions. Qed.

Lemma Keeps_waitUntilDisarming (armed : bool) :
  Keeps (Dprop armed) (waitUntilDisarming digitizer).
Proof.
  unfold waitUntilDisarming. keeps; [|dprop]. apply Keeps_waitEvent. dprop.
Qed.

Lemma Keeps_checkDisarmRequestedUnlocked (armed : bool) :
  Keeps (Dprop armed) (checkDisarmRequestedUnlocked digitizer).
Proof.
  unfold checkDisarmRequestedUnlocked. keeps; [apply Keeps_lock|dprop].
Qed.

Lemma Keeps_maybeSleepForTesting (armed : bool) :
  Keeps (Dprop armed) (maybeSleepForTesting digitizer).
Proof. unfold maybeSleepForTesting. keeps; [apply Keeps_lock|dprop]. Qed.

Lemma wp_keeps {X Y} (D : TRBaseDriver -> Prop) (m : M A X) (k : X -> M A Y)
  (Q : Y -> Sys A -> Prop) (E : Sys A -> Prop) (s : Sys A) :
  Keeps D m ->
  Lift D s ->
  (forall s', Lift D s' -> E s') ->
  (forall x s', Lift D s' -> wp (k x) Q E s') ->
  wp (m ≫= k) Q E s.
Proof.
  intros Hm Hs HE Hk. apply wp_bind. eapply wp_mono; [by apply Hm| |]; auto.
Qed.

Lemma Lift_weaken (armed : bool) (s : Sys A) :
  Lift (Dprop armed) s -> Lift (Dprop false) s.
Proof. intros [HD Ho]. split; [by eapply Dprop_weaken|done]. Qed.

Lemma Keeps_prepareArming : Keeps (Dprop true) (prepareArming digitizer).
Proof.
  pose proof (Keeps_lock true) as Hlock.
  unfold prepareArming. keeps; dprop.
Qed.

Lemma Keeps_burstLoop (fuel : nat) :
  forall overflow currentRemBursts remainingBursts,
    Keeps (Dprop true)
      (burstLoop digitizer fuel overflow currentRemBursts remainingBursts).
Proof.
  pose proof (Keeps_checkDisarmRequestedUnlocked true) as Hcheck.
  pose proof (Keeps_maybeSleepForTesting true) as Hsleep.
  induction fuel as [|fuel IH]; intros overflow currentRemBursts remainingBursts;
    cbn [burstLoop]; keeps.
  apply IH.
Qed.

Lemma Keeps_setArmState_requested :
  Keeps (Dprop true)
    (requested_arm_state ← gets m_requested_arm_state;
     setArmState requested_arm_state : M A unit).
Proof.
  apply Keeps_gets_bind. intros s Hs. apply Keeps_setArmState; [|done].
  destruct Hs as [(_ & Hb & Harm) _]. intros Hdisarm.
  destruct (Hb (Harm eq_refl)) as [Hr|Hr]; congruence.
Qed.

Lemma Keeps_overflowLoop (fuel burstFuel : nat) :
  forall overflow remainingBursts,
    Keeps (Dprop true)
      (overflowLoop digitizer fuel burstFuel overflow remainingBursts).
Proof.
  pose proof (Keeps_lock true) as Hlock.
  pose proof (Keeps_unlock true) as Hunlock.
  pose proof Keeps_setArmState_requested as Hset.
  pose proof (Keeps_burstLoop burstFuel) as Hburst.
  induction fuel as [|fuel IH]; intros overflow remainingBursts;
    cbn [overflowLoop]; [keeps|].
  apply Keeps_gets_bind. intros s Hs.
  destruct (m_disarm_requested (drv s)) eqn:Hdr.
  - revert s Hs Hdr. intros s Hs _. revert s Hs.
    change (Keeps (Dprop true) (unlock;; goto stopped : M A Empty_set)). keeps.
  - apply wp_bind, wp_modify.
    match goal with
    | |- wp ?rest _ _ ?s1 =>
        assert (Hrest : Keeps (Dprop true) rest); [|apply Hrest]
    end.
    + keeps; try dprop; [apply Hburst|apply IH].
    + destruct Hs as [HD Ho]. split; [|done]. cbn [drv].
      apply Dprop_allowing_data; [done|exact HD].
Qed.

Lemma Keeps_armAndRead (fuel : nat) : Keeps (Dprop true) (armAndRead digitizer fuel).
Proof.
  unfold armAndRead. keeps; [apply Keeps_prepareArming|apply Keeps_overflowLoop].
Qed.

Lemma Dprop_cleanup (armed : bool) (st : ArmState) (d : TRBaseDriver) :
  (st <> ArmStateDisarm -> m_arm_state d <> ArmStateDisarm) ->
  Dprop armed d ->
  Dprop false
    (set_m_arm_state st (set_m_disarm_requested_event false (clearEffectiveParams d))).
Proof.
  intros Hst HD.
  apply (Dprop_same false (set_m_arm_state st (clearEffectiveParams d)));
    try reflexivity.
  by eapply Dprop_clearEffectiveParams.
Qed.

Lemma disarm_invariant (had_error : bool) (s : Sys A) :
  Lift (Dprop true) s ->
  wp (disarm digitizer had_error) (fun _ => Lift (Dprop false)) (Lift (Dprop false)) s.
Proof.
  intros Hs. unfold disarm.
  pose proof (Keeps_lock true) as Hlock.
  pose proof (Keeps_unlock true) as Hunlock.
  pose proof (Keeps_waitUntilDisarming true) as Hwait.
  apply (wp_keeps (Dprop true)); [keeps|done|apply Lift_weaken|intros _ s1 Hs1].
  apply (wp_keeps (Dprop true)); [keeps; dprop|done|apply Lift_weaken|].
  clear s Hs s1 Hs1. intros _ s Hs.
  apply (wp_keeps (Dprop true)); [keeps|done|apply Lift_weaken|].
  clear s Hs. intros disarm_requested s Hs.
  apply (wp_keeps (Dprop true)); [|done|apply Lift_weaken|].
  { keeps. by apply Keeps_setArmState. }
  clear s Hs. intros _ s Hs.
  apply (wp_keeps (Dprop true)); [keeps; dprop|done|apply Lift_weaken|].
  clear s Hs. intros _ s Hs.
  apply (wp_keeps (Dprop true)); [keeps|done|apply Lift_weaken|].
  clear s Hs. intros need_stop s Hs.
  apply (wp_keeps (Dprop true)); [keeps|done|apply Lift_weaken|].
  clear s Hs. intros _ s [HD Ho].
  apply wp_bind, wp_modify, wp_bind, wp_modify, wp_bind, wp_gets.
  cbn [drv ext log observed need_stop_acquisition].
  match goal with
  | |- wp ((if ?c then _ else _) ≫= _) _ _ _ => destruct c
  end.
  - apply wp_bind, wp_bind, wp_modify.
    eapply wp_mono; [apply (Keeps_startArming false)| |done].
    + split; [|done]. cbn [drv]. by apply (Dprop_cleanup true).
    + intros x s' Hs'. by apply (Keeps_unlock false).
  - apply wp_bind. unfold setArmState.
    apply wp_bind, wp_modify, wp_bind, wp_modify, wp_emit.
    apply (Keeps_unlock false). split; [|done]. cbn [drv].
    apply Dprop_setIntegerParam; [left; elem|]. by apply (Dprop_cleanup true).
Qed.

Lemma Keeps_readThreadIteration (fuel : nat) :
  Keeps (Dprop false) (readThreadIteration digitizer fuel).
Proof.
  intros s Hs. unfold readThreadIteration.
  apply (wp_keeps (Dprop false)); [|done|done|].
  { apply Keeps_waitEvent. dprop. }
  clear s Hs. intros _ s Hs.
  apply wp_bind, wp_gets, wp_bind, wp_assert; [done|]. intros Hbusy.
  apply ArmState_eqb_eq in Hbusy.
  assert (Harmed : Lift (Dprop true) s).
  { destruct Hs as [(Hinv & Hb & _) Ho]. split; [|done].
    split; [done|]. split; [done|]. intros _. congruence. }
  apply (wp_keeps (Dprop true)); [keeps|done|apply Lift_weaken|].
  clear s Hs Hbusy Harmed. intros _ s Hs.
  apply (wp_keeps (Dprop true));
    [apply Keeps_catch, Keeps_armAndRead|done|apply Lift_weaken|].
  clear s Hs. intros label s Hs. by apply disarm_invariant.
Qed.

Lemma Keeps_readThread (n fuel : nat) :
  Keeps (Dprop false) (readThread digitizer n fuel).
Proof.
  induction n as [|n IH]; cbn [readThread]; keeps.
  apply Keeps_readThreadIteration.
Qed.

End KeptCode.

Lemma readThread_invariant {A} (digitizer : DigitizerDriver A) (n fuel : nat)
  (s0 : Sys A) :
  Invariant (drv s0) -> Basic (drv s0) -> Forall Invariant (observed s0) ->
  Forall Invariant (observed (readThread digitizer n fuel s0).2
                      ++ [drv (readThread digitizer n fuel s0).2]).
Proof.
  intros Hinv Hb Ho.
  assert (Hs : Lift (Dprop false) s0).
  { split; [|done]. split; [done|]. split; [done|]. discriminate. }
  pose proof (wp_run _ _ _ _ (Keeps_readThread digitizer n fuel s0 Hs)) as Hrun.
  assert (Hend : Lift (Dprop false) (readThread digitizer n fuel s0).2)
    by (destruct (readThread digitizer n fuel s0).1; exact Hrun).
  destruct Hend as [(Hinv' & _) Ho'].
  apply Forall_app. split; [done|]. by constructor.
Qed.

(** C4, as the code has it.  At every moment of a run of the read thread at
    which the port lock is free, and at its end: if the arm state is Disarm,
    EFFECTIVE_SAMPLE_RATE reads NaN and the effective value of every
    configuration parameter is its invalid value.  (While the arm state is
    Busy or Error the effective values of the arming may still be set.) *)
Theorem effective_invalid_while_disarmed {A} (digitizer : DigitizerDriver A)
  (n fuel : nat) (s0 : Sys A) :
  Invariant (drv s0) -> Basic (drv s0) -> Forall Invariant (observed s0) ->
  let r := readThread digitizer n fuel s0 in
  Forall (fun d => m_arm_state d = ArmStateDisarm -> Cleared d)
    (observed r.2 ++ [drv r.2]).
Proof.
  intros Hinv Hb Ho r.
  eapply Forall_impl; [by apply readThread_invariant|].
  intros d [_ Hc _]. exact Hc.
Qed.

Lemma Invariant_sampleDriver (pre_samples : bool) : Invariant (sampleDriver pre_samples).
Proof.
  destruct pre_samples.
  all: split; [split| |].
  all: try (vm_compute; repeat constructor; fail).
  all: try (apply (bool_decide_unpack _); vm_compute; exact I).
  all: try (vm_compute; discriminate).
Defined.

Lemma effective_invalid_while_disarmed_witness :
  Invariant (drv overflowRun) /\ Basic (drv overflowRun) /\
  Forall Invariant (observed overflowRun) /\
  let r := readThread overflowDigitizer 1 20 overflowRun in
  Forall (fun d => m_arm_state d = ArmStateDisarm -> Cleared d)
    (observed r.2 ++ [drv r.2]).
Proof.
  assert (Hinv : Invariant (drv overflowRun)) by apply Invariant_sampleDriver.
  assert (Hb : Basic (drv overflowRun)) by apply Basic_sampleDriver.
  assert (Ho : Forall Invariant (observed overflowRun)) by constructor.
  split; [exact Hinv|]. split; [exact Hb|]. split; [exact Ho|].
  exact (effective_invalid_while_disarmed overflowDigitizer 1 20 overflowRun Hinv Hb Ho).
Defined.

(** In the run with the overflow there is a moment, with the lock free, at
    which the arm state is Busy and EFFECTIVE_NUM_BURSTS reads 10, not its
    invalid value NaN: [setEffectiveParams] has run and the requested arm
    state is not yet published. *)
Lemma effective_valid_while_busy :
  let r := readThreadIteration overflowDigitizer 20 overflowRun in
  exists d,
    d ∈ observed r.2 /\
    m_arm_state d = ArmStateBusy /\
    params d !! EFFECTIVE_NUM_BURSTS = Some (ParamFloat64 10) /\
    (EFFECTIVE_NUM_BURSTS, ParamFloat64 NAN) ∈ effectiveTable d /\
    ~ Cleared d.
Proof.
  cbn zeta.
  destruct (observed (readThreadIteration overflowDigitizer 20 overflowRun).2 !! 4%nat)
    as [d|] eqn:Hd; [|by vm_compute in Hd].
  exists d. split; [by eapply list_elem_of_lookup_2|].
  vm_compute in Hd. injection Hd as <-.
  split; [reflexivity|]. split; [reflexivity|].
  match goal with
  | |- ?P /\ _ => assert (Hin : P) by (apply (list_elem_of_lookup_2 _ 1); reflexivity)
  end.
  split; [exact Hin|].
  intros Hc. unfold Cleared in Hc.
  eapply Forall_forall in Hc; [|exact Hin].
  apply (f_equal (fun o => match o with
                           | Some (ParamFloat64 v) => PrimFloat.is_nan v
                           | _ => false
                           end)) in Hc.
  vm_compute in Hc. discriminate.
Qed.

(** C7.  A [submit] that finds data not allowed, when it looks under the
    port lock, releases its array and passes nothing to the channels
    driver; a [submit] after which the channels driver has one more
    submitted array found data allowed; a request to disarm leaves data not
    allowed; and at every moment of a run of the read thread at which the
    lock is free and disarming is requested, data is not allowed, so that a
    [submit] that looks then submits nothing. *)
Theorem submit_only_while_allowing_data {A} (digitizer : DigitizerDriver A) :
  (forall channel unique_id timestamp epics_ts compl_cb o driver o' driver' array,
     TRChannelDataSubmit_submit channel unique_id timestamp epics_ts compl_cb o driver
       = Some (o', driver') ->
     m_array o = Some array ->
     m_allowing_data driver = false ->
     o' = mkDataSubmit None /\
     driver' =
       set_m_channels_driver
         (pool_release array
            (set_pNDArrayPool
               (alter (NDArray_setMeta unique_id timestamp epics_ts) array
                  (pNDArrayPool (m_channels_driver driver)))
               (m_channels_driver driver))) driver /\
     submitted driver' = submitted driver) /\
  (forall channel unique_id timestamp epics_ts compl_cb o driver o' driver',
     TRChannelDataSubmit_submit channel unique_id timestamp epics_ts compl_cb o driver
       = Some (o', driver') ->
     submitted driver' <> submitted driver ->
     m_allowing_data driver = true) /\
  (forall (s : Sys A) requested_rearm_state,
     m_arm_state (drv s) <> ArmStateDisarm ->
     (m_disarm_requested (drv s) = true -> m_allowing_data (drv s) = false) ->
     let r := requestDisarming digitizer requested_rearm_state s in
     m_disarm_requested (drv r.2) = true /\ m_allowing_data (drv r.2) = false) /\
  (forall n fuel (s0 : Sys A),
     Invariant (drv s0) -> Basic (drv s0) -> Forall Invariant (observed s0) ->
     let r := readThread digitizer n fuel s0 in
     Forall (fun d =>
               m_disarm_requested d = true ->
               m_allowing_data d = false /\
               forall channel unique_id timestamp epics_ts compl_cb o o' d',
                 TRChannelDataSubmit_submit channel unique_id timestamp epics_ts
                   compl_cb o d = Some (o', d') ->
                 submitted d' = submitted d)
       (observed r.2 ++ [drv r.2])).
Proof.
  split; [|split; [|split]].
  - intros channel unique_id timestamp epics_ts compl_cb o driver o' driver' array.
    unfold TRChannelDataSubmit_submit, submitted.
    destruct (negb _); [done|]. intros Hsubmit Harray Hallow. revert Hsubmit.
    rewrite Harray. cbn zeta. destruct (negb _); [done|]. rewrite Hallow.
    intros [= <- <-]. done.
  - intros channel unique_id timestamp epics_ts compl_cb o driver o' driver' Hsubmit Hne.
    destruct (submit_cases _ _ _ _ _ _ _ _ _ Hsubmit)
      as (_ & _ & [(Hsame & _)|(array & _ & Hallow & _)]); done.
  - intros s r Harm Hinv. cbn zeta. unfold requestDisarming, setArmState. run_monad.
    apply ArmState_eqb_neq in Harm. rewrite Harm. cbn.
    destruct (m_disarm_requested (drv s)) eqn:Hdr; cbn.
    + by rewrite Hdr, Hinv.
    + by destruct (m_in_read_loop (drv s)).
  - intros n fuel s0 Hinv Hb Ho r.
    eapply Forall_impl; [by apply readThread_invariant|].
    intros d [_ _ Ha] Hdr. specialize (Ha Hdr). split; [done|].
    intros channel unique_id timestamp epics_ts compl_cb o o' d' Hsubmit.
    destruct (submit_cases _ _ _ _ _ _ _ _ _ Hsubmit)
      as (_ & _ & [(Hsame & _)|(array & _ & Hallow & _)]); [done|congruence].
Qed.

Lemma submit_only_while_allowing_data_witness :
  (Invariant (drv rearmRun) /\ Basic (drv rearmRun) /\
   Forall Invariant (observed rearmRun) /\
   let r := readThread rearmDigitizer 1 20 rearmRun in
   Forall (fun d =>
             m_disarm_requested d = true ->
             m_allowing_data d = false /\
             forall channel unique_id timestamp epics_ts compl_cb o o' d',
               TRChannelDataSubmit_submit channel unique_id timestamp epics_ts
                 compl_cb o d = Some (o', d') ->
               submitted d' = submitted d)
     (observed r.2 ++ [drv r.2])) /\
  (exists o' driver',
     TRChannelDataSubmit_submit 0 1 0%float (0, 0)%Z None (mkDataSubmit (Some 0%nat))
       (sampleDriver false) = Some (o', driver') /\
     m_array (mkDataSubmit (Some 0%nat)) = Some 0%nat /\
     m_allowing_data (sampleDriver false) = false /\
     o' = mkDataSubmit None /\
     submitted driver' = submitted (sampleDriver false)).
Proof.
  assert (Hinv : Invariant (drv rearmRun)) by apply Invariant_sampleDriver.
  assert (Hb : Basic (drv rearmRun)) by apply Basic_sampleDriver.
  assert (Ho : Forall Invariant (observed rearmRun)) by constructor.
  destruct (submit_only_while_allowing_data rearmDigitizer)
    as (Hrelease & _ & _ & Hrun).
  split.
  - split; [exact Hinv|]. split; [exact Hb|]. split; [exact Ho|].
    exact (Hrun 1%nat 20%nat rearmRun Hinv Hb Ho).
  - destruct (TRChannelDataSubmit_submit 0 1 0%float (0, 0)%Z None
                (mkDataSubmit (Some 0%nat)) (sampleDriver false))
      as [[o' driver']|] eqn:Hsubmit; [|by vm_compute in Hsubmit].
    exists o', driver'. split; [reflexivity|].
    destruct (Hrelease _ _ _ _ _ _ _ _ _ 0%nat Hsubmit eq_refl eq_refl)
      as (Ho' & _ & Hsame).
    split; [reflexivity|]. split; [reflexivity|]. split; [exact Ho'|exact Hsame].
Defined.

(** In the run that is re-armed there are moments with the lock free at
    which disarming is requested. *)
Lemma rearmRun_disarm_requested :
  let r := readThread rearmDigitizer 1 20 rearmRun in
  exists d, d ∈ observed r.2 /\ m_disarm_requested d = true /\
            m_allowing_data d = false.
Proof.
  cbn zeta.
  assert (Hex : existsb (fun d => m_disarm_requested d && negb (m_allowing_data d))
                  (observed (readThread rearmDigitizer 1 20 rearmRun).2) = true)
    by (vm_compute; reflexivity).
  apply existsb_exists in Hex as (d & Hin & Hd).
  apply andb_true_iff in Hd as [Hdr Had]. apply negb_true_iff in Had.
  exists d. split; [apply list_elem_of_In; exact Hin|].
  split; assumption.
Qed.

(** * Further properties of the code *)

(** ** The time array after an arming *)

Section TimeArrayArming.

Import TimeArray.

(** Every call of [setTimeArrayParams] changes the UPDATE parameter, so
    that the clients read the array again, and keeps the unit and the
    numbers of samples it was given. *)
Theorem setTimeArrayParams_pokes_UPDATE (unit : float) (num_pre num_post : Z)
  (t : TRTimeArrayDriver) (update : Z) :
  ta_params t !! UPDATE = Some (ParamInt32 update) ->
  let t' := setTimeArrayParams unit num_pre num_post t in
  exists update',
    ta_params t' !! UPDATE = Some (ParamInt32 update') /\
    update' <> update /\
    (update' = 0 \/ update' = 1)%Z /\
    ta_params t' !! ARRAY = ta_params t !! ARRAY /\
    m_unit t' = unit /\ m_num_pre t' = num_pre /\ m_num_post t' = num_post.
Proof.
  intros Hupdate t'. unfold t', setTimeArrayParams, getIntegerParam, setIntegerParam.
  rewrite Hupdate. cbn [paramType asynParamType_eqb ta_params m_unit m_num_pre m_num_post].
  exists (if (update =? 0)%Z then 1%Z else 0%Z). split; [|split; [|split; [|split]]].
  - apply list_lookup_insert_eq. by eapply lookup_lt_Some.
  - destruct (Z.eqb_spec update 0); lia.
  - destruct (update =? 0)%Z; auto.
  - by apply list_lookup_insert_ne.
  - done.
Qed.

Lemma setTimeArrayParams_pokes_UPDATE_witness :
  ta_params new !! UPDATE = Some (ParamInt32 0) /\
  exists update',
    ta_params (setTimeArrayParams 0.5%float 1 4 new) !! UPDATE
      = Some (ParamInt32 update') /\
    update' <> 0%Z.
Proof.
  assert (H : ta_params new !! UPDATE = Some (ParamInt32 0)) by reflexivity.
  split; [exact H|].
  destruct (setTimeArrayParams_pokes_UPDATE 0.5%float 1 4 new 0 H)
    as (update' & Hlookup & Hne & _).
  exists update'. split; [exact Hlookup|exact Hne].
Defined.

(** A read of the ARRAY parameter with a negative number of samples, or
    numbers whose sum is no [int], fails: it returns no element and does
    not write the buffer.  A read of any other parameter fails too. *)
Theorem readFloat64Array_rejects (t : TRTimeArrayDriver) (reason : nat)
  (value : list float) (nElements nIn : Z) :
  (reason = ARRAY ->
   (m_num_pre t < 0 \/ m_num_post t < 0 \/ INT_MAX < m_num_pre t + m_num_post t)%Z) ->
  exists nIn',
    readFloat64Array t reason value nElements nIn = (asynError, value, nIn') /\
    (reason = ARRAY -> nIn' = 0%Z) /\ (reason <> ARRAY -> nIn' = nIn).
Proof.
  intros Hbad. unfold readFloat64Array.
  destruct (Nat.eqb_spec reason ARRAY) as [Hr|Hr].
  - specialize (Hbad Hr).
    replace ((m_num_pre t <? 0) || (m_num_post t <? 0)
             || (INT_MAX - m_num_pre t <? m_num_post t))%Z with true.
    + exists 0%Z. done.
    + symmetry. rewrite !orb_true_iff, !Z.ltb_lt. lia.
  - exists nIn. done.
Qed.

Lemma readFloat64Array_rejects_witness :
  exists nIn',
    readFloat64Array (mkTimeArray (ta_params new) 0.5%float (-1) 4) ARRAY
      [0%float; 0%float] 2 7 = (asynError, [0%float; 0%float], nIn') /\
    nIn' = 0%Z.
Proof.
  destruct (readFloat64Array_rejects (mkTimeArray (ta_params new) 0.5%float (-1) 4)
              ARRAY [0%float; 0%float] 2 7) as (nIn' & Hread & Hzero & _).
  - intros _. left. cbn. lia.
  - exists nIn'. split; [exact Hread|]. by apply Hzero.
Defined.

(** What [readFloat64Array] returns for valid numbers of samples. *)
Lemma readFloat64Array_valid (t : TRTimeArrayDriver) (value : list float)
  (nElements nIn : Z) :
  (0 <= m_num_pre t)%Z ->
  (0 <= m_num_post t)%Z ->
  (m_num_pre t + m_num_post t <= INT_MAX)%Z ->
  nElements = Z.of_nat (length value) ->
  exists value',
    readFloat64Array t ARRAY value nElements nIn =
      (asynSuccess, value', Z.min (m_num_pre t + m_num_post t) nElements) /\
    length value' = length value /\
    (forall i, (0 <= i < Z.min (m_num_pre t + m_num_post t) nElements)%Z ->
       value' !! Z.to_nat i =
         Some (PrimFloat.mul (double_of_int (i - m_num_pre t)) (m_unit t))).
Proof.
  intros Hpre Hpost Hsum HnE. unfold readFloat64Array. cbn [Nat.eqb ARRAY].
  destruct (Z.ltb_spec (m_num_pre t) 0); [lia|].
  destruct (Z.ltb_spec (m_num_post t) 0); [lia|].
  destruct (Z.ltb_spec (INT_MAX - m_num_pre t) (m_num_post t)); [lia|].
  cbn [orb].
  set (count := if (nElements <? m_num_pre t + m_num_post t)%Z
                then nElements else (m_num_pre t + m_num_post t)%Z).
  assert (Hcount : count = Z.min (m_num_pre t + m_num_post t) nElements).
  { unfold count. destruct (Z.ltb_spec nElements (m_num_pre t + m_num_post t)); lia. }
  assert (Hle : (Z.to_nat count <= length value)%nat) by lia.
  destruct (writeArray_lookup (m_unit t) (m_num_pre t) (Z.to_nat count) value Hle)
    as (Hlen & Hin & _).
  rewrite Z2Nat.id in Hlen, Hin by lia.
  eexists. split; [by rewrite Hcount|]. rewrite <- Hcount. split; [done|].
  intros i Hi. rewrite Hin by lia. rewrite Z2Nat.id by lia. reflexivity.
Qed.

(** After [checkBasicSettings] has accepted the snapshot, [setupTimeArray]
    gives the time array driver numbers of samples that
    [readFloat64Array] accepts: the read of the time array succeeds, returns
    NUM_PRE_POST_SAMPLES elements for PrePostTrigger and NUM_POST_SAMPLES
    elements otherwise (or as many as the buffer holds), and element [i] is
    [(i - num_pre) * (1 / rate)], so that the first post-trigger sample is
    at time 0. *)
Theorem time_array_after_checkBasicSettings (d d' : TRBaseDriver)
  (value : list float) (nIn : Z) :
  checkBasicSettings d = (true, d') ->
  (getSnapshot (m_param_num_post_samples d) <= INT_MAX)%Z ->
  (getSnapshot (m_param_num_pre_post_samples d) <= INT_MAX)%Z ->
  let t := m_time_array_driver (setupTimeArray d') in
  let total :=
    if ArmState_eqb (m_requested_arm_state d) ArmStatePrePostTrigger
    then getSnapshot (m_param_num_pre_post_samples d)
    else getSnapshot (m_param_num_post_samples d) in
  (0 <= m_num_pre t)%Z /\ (0 < m_num_post t)%Z /\
  (m_num_pre t + m_num_post t = total)%Z /\
  m_unit t = PrimFloat.div 1 (m_rate_for_display d) /\
  exists value',
    readFloat64Array t ARRAY value (Z.of_nat (length value)) nIn =
      (asynSuccess, value', Z.min total (Z.of_nat (length value))) /\
    length value' = length value /\
    (forall i, (0 <= i < Z.min total (Z.of_nat (length value)))%Z ->
       value' !! Z.to_nat i =
         Some (PrimFloat.mul (double_of_int (i - m_num_pre t))
                 (PrimFloat.div 1 (m_rate_for_display d)))).
Proof.
  intros Hcheck Hpost Hprepost t total.
  assert (Ht : (0 <= m_num_pre t)%Z /\ (0 < m_num_post t)%Z /\
               (m_num_pre t + m_num_post t = total)%Z /\
               m_unit t = PrimFloat.div 1 (m_rate_for_display d)).
  { revert Hcheck. unfold t, total, setupTimeArray, checkBasicSettings.
    destruct (Z.ltb_spec (getSnapshot (m_param_num_bursts d)) 0); [done|].
    destruct (Z.leb_spec (getSnapshot (m_param_num_post_samples d)) 0); [done|].
    destruct (ArmState_eqb (m_requested_arm_state d) ArmStatePrePostTrigger).
    - destruct (negb (m_supports_pre_samples d)); [done|].
      destruct (Z.leb_spec (getSnapshot (m_param_num_pre_post_samples d))
                  (getSnapshot (m_param_num_post_samples d))); [done|].
      intros [= <-]. cbn.
      destruct (Z.eqb_spec (getSnapshot (m_param_num_pre_post_samples d)) 0);
        repeat split; try lia; done.
    - intros [= <-]. cbn. unfold getSnapshot in *. cbn. repeat split; try lia; done. }
  destruct Ht as (Hpre & Hpos & Hsum & Hunit).
  repeat (split; [done|]).
  destruct (readFloat64Array_valid t value (Z.of_nat (length value)) nIn)
    as (value' & Hread & Hlen & Helems); try lia.
  { rewrite Hsum. unfold total. destruct (ArmState_eqb _ _); lia. }
  rewrite Hsum, Hunit in *. eauto.
Qed.

Lemma time_array_after_checkBasicSettings_witness :
  let d := set_m_param_num_post_samples
             (setSnapshot 4%Z (m_param_num_post_samples (sampleDriver true)))
             (set_m_param_num_pre_post_samples
                (setSnapshot 6%Z (m_param_num_pre_post_samples (sampleDriver true)))
                (set_m_rate_for_display 2%float
                   (set_m_requested_arm_state ArmStatePrePostTrigger
                      (sampleDriver true)))) in
  exists d',
    checkBasicSettings d = (true, d') /\
    let t := m_time_array_driver (setupTimeArray d') in
    m_num_pre t = 2%Z /\ m_num_post t = 4%Z /\
    exists value',
      readFloat64Array t ARRAY [0%float; 0%float; 0%float] 3 0 =
        (asynSuccess, value', 3%Z) /\
      value' !! 0%nat = Some (PrimFloat.mul (double_of_int (0 - 2))
                                (PrimFloat.div 1 2)).
Proof.
  intros d.
  destruct (checkBasicSettings d) as [ok d'] eqn:Hcheck.
  assert (Hok : ok = true) by (by vm_compute in Hcheck; injection Hcheck as <- _).
  subst ok. exists d'. split; [reflexivity|].
  assert (Hpost : (getSnapshot (m_param_num_post_samples d) <= INT_MAX)%Z)
    by (vm_compute; discriminate).
  assert (Hprepost : (getSnapshot (m_param_num_pre_post_samples d) <= INT_MAX)%Z)
    by (vm_compute; discriminate).
  destruct (time_array_after_checkBasicSettings d d' [0%float; 0%float; 0%float] 0
              Hcheck Hpost Hprepost)
    as (_ & _ & _ & _ & value' & Hread & _ & Helems).
  assert (Hd' : d' = (checkBasicSettings d).2) by (by rewrite Hcheck).
  split; [by rewrite Hd'|]. split; [by rewrite Hd'|].
  exists value'. split; [exact Hread|].
  specialize (Helems 0%Z ltac:(vm_compute; split; [discriminate|reflexivity])).
  rewrite Hd' in Helems. exact Helems.
Defined.

End TimeArrayArming.

(** ** Writes of the clients *)

Section ClientWrites.

Context {A : Type} (digitizer : DigitizerDriver A).

(** The state after an assignment to the driver object. *)
Definition withDriver (d : TRBaseDriver) (s : Sys A) : Sys A :=
  mkSys d (ext s) (log s) (observed s) (need_stop_acquisition s).

Lemma ends_modify_last (f : TRBaseDriver -> TRBaseDriver)
    (Q : Res unit -> Sys A -> Prop) s :
  Q (Ok ()) (withDriver (f (drv s)) s) -> ends (modify f) Q s.
Proof. done. Qed.

Lemma ends_emit_last (e : Event) (Q : Res unit -> Sys A -> Prop) s :
  Q (Ok ())
    (mkSys (drv s) (ext s) (log s ++ [e]) (observed s) (need_stop_acquisition s)) ->
  ends (emit e) Q s.
Proof. done. Qed.

Lemma ends_halt_bind {X Y} (h : Halt) (k : X -> M A Y)
    (Q : Res Y -> Sys A -> Prop) s :
  Q (Stop h) s -> ends (halt h ≫= k) Q s.
Proof. done. Qed.

Lemma ends_bind_halt {X Y} (h : Halt) (m : M A X) (k : X -> M A Y)
    (Q : Res Y -> Sys A -> Prop) s :
  ends m (fun r s' => r = Stop h /\ Q (Stop h) s') s -> ends (m ≫= k) Q s.
Proof.
  unfold ends, mbind, M_bind. destruct (m s) as [r s']. cbn.
  by intros [-> H].
Qed.

(** A write of an [int] to a parameter other than ARM_REQUEST: when the
    parameter is write-protected the write fails and changes nothing;
    otherwise it succeeds, the parameter reads the value if it is an [int]
    parameter, every other parameter reads what it did, and nothing else
    changes. *)
Theorem writeInt32_protected (reason : nat) (value : Z) (s : Sys A) :
  reason <> ARM_REQUEST ->
  let r := writeInt32 digitizer reason value s in
  (reason ∈ m_protected_params (drv s) -> r = (Ok asynError, s)) /\
  (reason ∉ m_protected_params (drv s) ->
   exists port,
     r = (Ok asynSuccess, withDriver (set_params port (drv s)) s) /\
     length port = length (params (drv s)) /\
     (forall i, i <> reason -> port !! i = params (drv s) !! i) /\
     (forall p, params (drv s) !! reason = Some p ->
        paramType p = asynParamInt32 -> port !! reason = Some (ParamInt32 value)) /\
     (forall p, params (drv s) !! reason = Some p ->
        paramType p <> asynParamInt32 -> port !! reason = Some p)).
Proof.
  intros Hne r. unfold r, writeInt32, asynPortDriver_writeInt32.
  apply Nat.eqb_neq in Hne. rewrite Hne. run_monad.
  unfold checkProtectedParamWrite. split; intros Hin.
  - rewrite bool_decide_eq_true_2 by done. cbn. by destruct s.
  - rewrite bool_decide_eq_false_2 by done. cbn.
    exists (setIntegerParam reason value (params (drv s))). split; [done|].
    unfold setIntegerParam.
    destruct (params (drv s) !! reason) as [p|] eqn:Hp.
    + destruct (asynParamType_eqb (paramType p) asynParamInt32) eqn:Ht.
      * split; [by rewrite length_insert|]. split; [|split].
        -- intros i Hi. by apply list_lookup_insert_ne.
        -- intros p' _ _. apply list_lookup_insert_eq. by eapply lookup_lt_Some.
        -- intros p' [= <-] Hp'. by apply asynParamType_eqb_eq in Ht.
      * split; [done|]. split; [done|]. split.
        -- intros p' [= <-] Hp'. apply asynParamType_eqb_eq in Hp'. congruence.
        -- by intros p' [= <-] _.
    + done.
Qed.

(** A write of a [double]: to the desired value of the requested sample
    rate it always succeeds, stores the value and lets the driver report
    the achievable rate, which becomes the desired value of
    ACHIEVABLE_SAMPLE_RATE; to a write-protected parameter it fails and
    changes nothing; to any other parameter it succeeds and stores the
    value.  No write of a [double] changes the arm state or calls anything
    but [requestedSampleRateChanged]. *)
Theorem writeFloat64_cases (reason : nat) (value : float) (s : Sys A) :
  let r := writeFloat64 digitizer reason value s in
  let requested := m_desired_param (m_param_requested_sample_rate (drv s)) in
  let stored := set_params (setDoubleParam reason value (params (drv s))) (drv s) in
  (reason = requested ->
   r = (Ok asynSuccess,
        let achievable := requestedSampleRateChanged digitizer stored (ext s) in
        mkSys (match achievable.1 with
               | Some rate => setAchievableSampleRate rate stored
               | None => stored
               end) achievable.2 (log s) (observed s) (need_stop_acquisition s))) /\
  (reason <> requested -> reason ∈ m_protected_params (drv s) ->
   r = (Ok asynError, s)) /\
  (reason <> requested -> reason ∉ m_protected_params (drv s) ->
   r = (Ok asynSuccess, withDriver stored s)) /\
  log r.2 = log s /\
  m_arm_state (drv r.2) = m_arm_state (drv s) /\
  m_disarm_requested (drv r.2) = m_disarm_requested (drv s).
Proof.
  intros r requested stored. unfold r, writeFloat64, asynPortDriver_writeFloat64.
  run_monad. fold requested.
  destruct (Nat.eqb_spec reason requested) as [Heq|Hne].
  - cbn. fold stored.
    destruct (requestedSampleRateChanged digitizer stored (ext s)) as [[rate|] a'];
      cbn; repeat split; try done.
  - unfold checkProtectedParamWrite.
    destruct (decide (reason ∈ m_protected_params (drv s))) as [Hin|Hin].
    + rewrite bool_decide_eq_true_2 by done. cbn. destruct s. repeat split; done.
    + rewrite bool_decide_eq_false_2 by done. cbn. repeat split; done.
Qed.

(** A write of PostTrigger or PrePostTrigger to ARM_REQUEST while the arm
    state is Disarm, after [completeInit], starts an arming: it succeeds,
    publishes Busy, remembers the requested state, clears the disarm
    request and the pending re-arm target and signals the read thread.  A
    write of Disarm while the arm state is Disarm only stores the value.
    Neither calls a function of the digitizer driver. *)
Theorem arm_request_while_disarmed (value : Z) (s : Sys A) :
  m_arm_state (drv s) = ArmStateDisarm ->
  let r := writeInt32 digitizer ARM_REQUEST value s in
  let stored := set_params (setIntegerParam ARM_REQUEST value (params (drv s))) (drv s) in
  (value = 0%Z -> r = (Ok asynSuccess, withDriver stored s)) /\
  ((value = 1 \/ value = 2)%Z -> m_init_completed (drv s) = true ->
   r.1 = Ok asynSuccess /\
   ext r.2 = ext s /\
   log r.2 = log s ++ [EvSetArmState ArmStateBusy;
                       EvStartArming (ArmState_of_int value)] /\
   m_arm_state (drv r.2) = ArmStateBusy /\
   params (drv r.2) =
     setIntegerParam ARM_STATE (ArmState_to_int ArmStateBusy) (params stored) /\
   m_requested_arm_state (drv r.2) = ArmState_of_int value /\
   m_disarm_requested (drv r.2) = false /\
   m_requested_rearm_state (drv r.2) = ArmStateDisarm /\
   m_in_read_loop (drv r.2) = false /\
   m_start_arming_event (drv r.2) = true /\
   m_allowing_data (drv r.2) = m_allowing_data (drv s)) /\
  ((value = 1 \/ value = 2)%Z -> m_init_completed (drv s) = false ->
   r = (Stop AssertFailed, withDriver stored s)).
Proof.
  intros Hdisarm r stored.
  assert (Hstep : forall (Q : Res asynStatus -> Sys A -> Prop),
            ends (handleArmRequest digitizer value) Q (withDriver stored s) ->
            Q r.1 r.2).
  { intros Q HQ. unfold r, writeInt32, asynPortDriver_writeInt32.
    cbn [Nat.eqb ARM_REQUEST].
    change (ends ((modify (fun d => set_params
                                      (setIntegerParam 0 value (params d)) d);;
                   mret asynSuccess);; handleArmRequest digitizer value) Q s).
    apply ends_bind, ends_modify, ends_ret. eexists. split; [reflexivity|].
    exact HQ. }
  assert (Hgets : forall (Q : Res asynStatus -> Sys A -> Prop),
            (value = 0 \/ value = 1 \/ value = 2)%Z ->
            ends ((if negb (value =? 0)%Z
                   then startArming (ArmState_of_int value)
                   else mret ());; mret asynSuccess) Q (withDriver stored s) ->
            ends (handleArmRequest digitizer value) Q (withDriver stored s)).
  { intros Q Hvalue HQ. unfold handleArmRequest. cbn [ArmState_to_int].
    replace (negb (value =? 0)%Z && negb (value =? 1)%Z && negb (value =? 2)%Z)
      with false by (destruct Hvalue as [->|[->| ->]]; reflexivity).
    apply ends_gets. cbn [withDriver drv].
    change (m_arm_state stored) with (m_arm_state (drv s)).
    rewrite Hdisarm. exact HQ. }
  split; [|split].
  - intros ->. rewrite (surjective_pairing r).
    apply (Hstep (fun r1 s' => (r1, s') = (Ok asynSuccess, withDriver stored s))).
    apply Hgets; [auto|]. reflexivity.
  - intros Hvalue Hinit.
    apply (Hstep (fun r1 s' =>
                    r1 = Ok asynSuccess /\ ext s' = ext s /\
                    log s' = log s ++ [EvSetArmState ArmStateBusy;
                                        EvStartArming (ArmState_of_int value)] /\
                    m_arm_state (drv s') = ArmStateBusy /\
                    params (drv s') =
                      setIntegerParam ARM_STATE (ArmState_to_int ArmStateBusy)
                        (params stored) /\
                    m_requested_arm_state (drv s') = ArmState_of_int value /\
                    m_disarm_requested (drv s') = false /\
                    m_requested_rearm_state (drv s') = ArmStateDisarm /\
                    m_in_read_loop (drv s') = false /\
                    m_start_arming_event (drv s') = true /\
                    m_allowing_data (drv s') = m_allowing_data (drv s))).
    apply Hgets; [tauto|].
    replace (value =? 0)%Z with false by (symmetry; apply Z.eqb_neq; lia).
    cbn [negb]. apply ends_bind. unfold startArming, setArmState.
    replace (ArmState_eqb (ArmState_of_int value) ArmStatePostTrigger
             || ArmState_eqb (ArmState_of_int value) ArmStatePrePostTrigger)
      with true by (destruct Hvalue as [-> | ->]; reflexivity).
    cbn [assert]. apply ends_bind, ends_ret. eexists. split; [reflexivity|].
    apply ends_gets. cbn [withDriver drv].
    change (m_arm_state stored) with (m_arm_state (drv s)).
    rewrite Hdisarm. cbn [ArmState_eqb assert].
    apply ends_bind, ends_ret. eexists. split; [reflexivity|].
    apply ends_gets.
    change (m_init_completed (drv (withDriver stored s)))
      with (m_init_completed (drv s)).
    rewrite Hinit. cbn [assert].
    apply ends_bind, ends_ret. eexists. split; [reflexivity|].
    apply ends_bind.
    apply ends_modify; cbn [withDriver drv ext log observed need_stop_acquisition].
    apply ends_modify; cbn [drv ext log observed need_stop_acquisition].
    apply ends_emit_last; cbn [drv ext log observed need_stop_acquisition].
    eexists. split; [reflexivity|].
    apply ends_modify; cbn [drv ext log observed need_stop_acquisition].
    apply ends_modify; cbn [drv ext log observed need_stop_acquisition].
    apply ends_emit; cbn [drv ext log observed need_stop_acquisition].
    apply ends_modify; cbn [drv ext log observed need_stop_acquisition].
    apply ends_modify; cbn [drv ext log observed need_stop_acquisition].
    apply ends_modify_last;
      cbn [withDriver drv ext log observed need_stop_acquisition].
    eexists. split; [reflexivity|].
    apply ends_ret. cbn [log ext drv]. rewrite <- app_assoc.
    repeat split; reflexivity.
  - intros Hvalue Hinit. rewrite (surjective_pairing r).
    apply (Hstep (fun r1 s' => (r1, s') = (Stop AssertFailed, withDriver stored s))).
    apply Hgets; [tauto|].
    replace (value =? 0)%Z with false by (symmetry; apply Z.eqb_neq; lia).
    cbn [negb]. unfold startArming.
    replace (ArmState_eqb (ArmState_of_int value) ArmStatePostTrigger
             || ArmState_eqb (ArmState_of_int value) ArmStatePrePostTrigger)
      with true by (destruct Hvalue as [-> | ->]; reflexivity).
    cbn [assert]. apply (ends_bind_halt AssertFailed), ends_ret_bind, ends_gets.
    change (m_arm_state (drv (withDriver stored s))) with (m_arm_state (drv s)).
    rewrite Hdisarm. cbn [ArmState_eqb assert].
    apply ends_ret_bind, ends_gets.
    change (m_init_completed (drv (withDriver stored s)))
      with (m_init_completed (drv s)).
    rewrite Hinit. cbn [assert]. apply ends_halt_bind. split; reflexivity.
Qed.

(** A write of a valid arm request while the arm state is not Disarm asks
    for disarming and succeeds.  The first such write of an arming forbids
    further data, publishes Busy, signals the disarm event and calls
    [interruptReading] if and only if the read thread is in its read loop;
    every later one changes only the pending re-arm target, which is always
    the last value written. *)
Theorem arm_request_while_armed (value : Z) (s : Sys A) :
  m_arm_state (drv s) <> ArmStateDisarm ->
  (value = 0 \/ value = 1 \/ value = 2)%Z ->
  let r := writeInt32 digitizer ARM_REQUEST value s in
  let stored := set_params (setIntegerParam ARM_REQUEST value (params (drv s))) (drv s) in
  r.1 = Ok asynSuccess /\
  m_requested_rearm_state (drv r.2) = ArmState_of_int value /\
  m_disarm_requested (drv r.2) = true /\
  (m_disarm_requested (drv s) = true ->
   r.2 = mkSys (set_m_requested_rearm_state (ArmState_of_int value) stored)
           (ext s) (log s ++ [EvRequestDisarming (ArmState_of_int value)])
           (observed s) (need_stop_acquisition s)) /\
  (m_disarm_requested (drv s) = false ->
   m_allowing_data (drv r.2) = false /\
   m_arm_state (drv r.2) = ArmStateBusy /\
   m_disarm_requested_event (drv r.2) = true /\
   (m_in_read_loop (drv s) = true ->
    (exists d, ext r.2 = interruptReading digitizer d (ext s)) /\
    log r.2 = log s ++ [EvSetArmState ArmStateBusy; EvInterruptReading;
                        EvRequestDisarming (ArmState_of_int value)]) /\
   (m_in_read_loop (drv s) = false ->
    ext r.2 = ext s /\
    log r.2 = log s ++ [EvSetArmState ArmStateBusy;
                        EvRequestDisarming (ArmState_of_int value)])).
Proof.
  intros Harmed Hvalue r stored.
  assert (Heqb : ArmState_eqb (m_arm_state (drv s)) ArmStateDisarm = false)
    by (destruct (m_arm_state (drv s)); cbn; congruence).
  assert (Hstep : forall (Q : Res asynStatus -> Sys A -> Prop),
            ends (requestDisarming digitizer (ArmState_of_int value))
              (fun r1 s' => exists x, r1 = Ok x /\ Q (Ok asynSuccess) s')
              (withDriver stored s) ->
            Q r.1 r.2).
  { intros Q HQ. unfold r, writeInt32, asynPortDriver_writeInt32.
    cbn [Nat.eqb ARM_REQUEST].
    change (ends ((modify (fun d => set_params
                                      (setIntegerParam 0 value (params d)) d);;
                   mret asynSuccess);; handleArmRequest digitizer value) Q s).
    apply ends_bind, ends_modify, ends_ret. eexists. split; [reflexivity|].
    unfold handleArmRequest. cbn [ArmState_to_int].
    replace (negb (value =? 0)%Z && negb (value =? 1)%Z && negb (value =? 2)%Z)
      with false by (destruct Hvalue as [->|[->| ->]]; reflexivity).
    apply ends_gets. cbn [drv].
    change (m_arm_state (set_params _ (drv s))) with (m_arm_state (drv s)).
    rewrite Heqb. apply ends_bind.
    eapply ends_mono; [exact HQ|]. intros r1 s' (x & -> & Hx).
    exists x. split; [reflexivity|]. apply ends_ret. exact Hx. }
  apply (Hstep (fun r1 s' =>
    r1 = Ok asynSuccess /\
    m_requested_rearm_state (drv s') = ArmState_of_int value /\
    m_disarm_requested (drv s') = true /\
    (m_disarm_requested (drv s) = true ->
     s' = mkSys (set_m_requested_rearm_state (ArmState_of_int value) stored)
            (ext s) (log s ++ [EvRequestDisarming (ArmState_of_int value)])
            (observed s) (need_stop_acquisition s)) /\
    (m_disarm_requested (drv s) = false ->
     m_allowing_data (drv s') = false /\
     m_arm_state (drv s') = ArmStateBusy /\
     m_disarm_requested_event (drv s') = true /\
     (m_in_read_loop (drv s) = true ->
      (exists d, ext s' = interruptReading digitizer d (ext s)) /\
      log s' = log s ++ [EvSetArmState ArmStateBusy; EvInterruptReading;
                         EvRequestDisarming (ArmState_of_int value)]) /\
     (m_in_read_loop (drv s) = false ->
      ext s' = ext s /\
      log s' = log s ++ [EvSetArmState ArmStateBusy;
                         EvRequestDisarming (ArmState_of_int value)])))).
  unfold requestDisarming. apply ends_gets. cbn [withDriver drv].
  change (m_arm_state stored) with (m_arm_state (drv s)).
  rewrite Heqb. cbn [negb assert]. apply ends_ret_bind, ends_gets.
  cbn [withDriver drv].
  change (m_disarm_requested stored) with (m_disarm_requested (drv s)).
  destruct (m_disarm_requested (drv s)) eqn:Hdr; cbn [negb].
  - apply ends_ret_bind, ends_emit; cbn [drv ext log observed need_stop_acquisition].
    apply ends_modify_last; cbn [withDriver drv ext log observed need_stop_acquisition].
    eexists. split; [reflexivity|]. split; [reflexivity|]. split; [reflexivity|].
    split; [exact Hdr|]. split; [reflexivity|]. discriminate.
  - apply ends_bind.
    apply ends_modify; cbn [drv ext log observed need_stop_acquisition].
    apply ends_modify; cbn [drv ext log observed need_stop_acquisition].
    apply ends_bind. unfold setArmState.
    apply ends_modify; cbn [drv ext log observed need_stop_acquisition].
    apply ends_modify; cbn [drv ext log observed need_stop_acquisition].
    apply ends_emit_last; cbn [drv ext log observed need_stop_acquisition].
    eexists. split; [reflexivity|].
    apply ends_modify; cbn [drv ext log observed need_stop_acquisition].
    apply ends_gets; cbn [drv].
    match goal with
    | |- context [m_in_read_loop ?d] =>
        change (m_in_read_loop d) with (m_in_read_loop (drv s))
    end.
    destruct (m_in_read_loop (drv s)) eqn:Hirl.
    + apply ends_call; cbn [fst snd drv ext log observed need_stop_acquisition].
      apply ends_emit_last; cbn [drv ext log observed need_stop_acquisition].
      eexists. split; [reflexivity|].
      apply ends_emit; cbn [drv ext log observed need_stop_acquisition].
      apply ends_modify_last;
        cbn [withDriver drv ext log observed need_stop_acquisition].
      eexists. split; [reflexivity|]. rewrite <- !app_assoc.
      split; [reflexivity|]. split; [reflexivity|]. split; [reflexivity|].
      split; [discriminate|]. intros _.
      split; [reflexivity|]. split; [reflexivity|]. split; [reflexivity|].
      split; [|discriminate]. intros _. split; [|reflexivity]. eexists. reflexivity.
    + apply ends_ret; cbn [drv ext log observed need_stop_acquisition].
      eexists. split; [reflexivity|].
      apply ends_emit; cbn [drv ext log observed need_stop_acquisition].
      apply ends_modify_last;
        cbn [withDriver drv ext log observed need_stop_acquisition].
      eexists. split; [reflexivity|]. rewrite <- !app_assoc.
      split; [reflexivity|]. split; [reflexivity|]. split; [reflexivity|].
      split; [discriminate|]. intros _.
      split; [reflexivity|]. split; [reflexivity|]. split; [reflexivity|].
      split; [discriminate|]. intros _. split; reflexivity.
Qed.

End ClientWrites.

Lemma writeInt32_protected_witness :
  ARM_STATE <> ARM_REQUEST /\
  ARM_STATE ∈ m_protected_params (drv (startOfRun (sampleDriver false) (mkScript 0 []))) /\
  writeInt32 (scripted 1000 0 0) ARM_STATE 2
    (startOfRun (sampleDriver false) (mkScript 0 []))
  = (Ok asynError, startOfRun (sampleDriver false) (mkScript 0 [])).
Proof.
  assert (Hne : ARM_STATE <> ARM_REQUEST) by discriminate.
  assert (Hin : ARM_STATE ∈ m_protected_params
                  (drv (startOfRun (sampleDriver false) (mkScript 0 []))))
    by (apply (list_elem_of_lookup_2 _ 0); reflexivity).
  split; [exact Hne|]. split; [exact Hin|].
  exact (proj1 (writeInt32_protected (scripted 1000 0 0) ARM_STATE 2
                  (startOfRun (sampleDriver false) (mkScript 0 [])) Hne) Hin).
Defined.

Lemma writeFloat64_cases_witness :
  let s := startOfRun (sampleDriver false) (mkScript 0 []) in
  let r := writeFloat64 (scripted 1000 0 0) 14 2.5%float s in
  14%nat = m_desired_param (m_param_requested_sample_rate (drv s)) /\
  r.1 = Ok asynSuccess /\
  getRequestedSampleRate (drv r.2) = 2.5%float /\
  getDesired (m_param_achievable_sample_rate (drv r.2)) (params (drv r.2)) = 2.5%float.
Proof.
  intros s r.
  assert (Hreq : 14%nat = m_desired_param (m_param_requested_sample_rate (drv s)))
    by reflexivity.
  split; [exact Hreq|].
  pose proof (proj1 (writeFloat64_cases (scripted 1000 0 0) 14 2.5%float s) Hreq) as Hr.
  fold r in Hr. rewrite Hr. split; [reflexivity|]. split; reflexivity.
Defined.

Lemma arm_request_while_disarmed_witness :
  let s := startOfRun (sampleDriver false) (mkScript 0 []) in
  let r := writeInt32 (scripted 1000 0 0) ARM_REQUEST 1 s in
  m_arm_state (drv s) = ArmStateDisarm /\
  m_init_completed (drv s) = true /\
  r.1 = Ok asynSuccess /\
  m_arm_state (drv r.2) = ArmStateBusy /\
  m_requested_arm_state (drv r.2) = ArmStatePostTrigger /\
  m_start_arming_event (drv r.2) = true.
Proof.
  intros s r.
  assert (Hd : m_arm_state (drv s) = ArmStateDisarm) by reflexivity.
  assert (Hi : m_init_completed (drv s) = true) by reflexivity.
  split; [exact Hd|]. split; [exact Hi|].
  destruct (proj1 (proj2 (arm_request_while_disarmed (scripted 1000 0 0) 1 s Hd))
              (or_introl eq_refl) Hi)
    as (Hok & _ & _ & Harm & _ & Hreq & _ & _ & _ & Hev & _).
  split; [exact Hok|]. split; [exact Harm|]. split; [exact Hreq|exact Hev].
Defined.

Lemma arm_request_while_armed_witness :
  let r := writeInt32 (unattended 1000 4 2) ARM_REQUEST 2 armedRun in
  m_arm_state (drv armedRun) <> ArmStateDisarm /\
  m_disarm_requested (drv armedRun) = false /\
  m_in_read_loop (drv armedRun) = false /\
  r.1 = Ok asynSuccess /\
  m_requested_rearm_state (drv r.2) = ArmStatePrePostTrigger /\
  m_disarm_requested (drv r.2) = true /\
  m_allowing_data (drv r.2) = false /\
  ext r.2 = ext armedRun.
Proof.
  intros r.
  assert (Ha : m_arm_state (drv armedRun) <> ArmStateDisarm) by discriminate.
  assert (Hd : m_disarm_requested (drv armedRun) = false) by reflexivity.
  assert (Hi : m_in_read_loop (drv armedRun) = false) by reflexivity.
  destruct (arm_request_while_armed (unattended 1000 4 2) 2 armedRun Ha
              (or_intror (or_intror eq_refl)))
    as (Hok & Hrearm & Hreq & _ & Hfirst).
  destruct (Hfirst Hd) as (Hallow & _ & _ & _ & Hout).
  destruct (Hout Hi) as [Hext _].
  split; [exact Ha|]. split; [exact Hd|]. split; [exact Hi|].
  split; [exact Hok|]. split; [exact Hrearm|]. split; [exact Hreq|].
  split; [exact Hallow|exact Hext].
Defined.

(** ** What the constructors establish *)

(** The driver object while it is constructed: the effective-value
    parameters read their invalid values, are distinct from one another and
    from the parameters of [writable], which exist, and are
    write-protected; the arm state is Disarm and no data is allowed. *)
Record Built (d : TRBaseDriver) : Prop := mkBuilt {
  built_cleared : Cleared d;
  built_nodup : NoDup (fst <$> effectiveTable d);
  built_writable :
    Forall (fun i => i < length (params d) /\ i ∉ fst <$> effectiveTable d)
      (writable d);
  built_protected : Forall (fun iv => iv.1 ∈ m_protected_params d) (effectiveTable d);
  built_arm_state : m_arm_state d = ArmStateDisarm;
  built_allowing : m_allowing_data d = false;
}.

Lemma Built_new (cfg : TRBaseConfig) : Built (TRBaseDriver_new cfg).
Proof.
  split.
  - unfold Cleared. vm_compute. repeat constructor.
  - apply (bool_decide_unpack _). vm_compute. exact I.
  - apply (bool_decide_unpack _). vm_compute. exact I.
  - apply (bool_decide_unpack _). vm_compute. exact I.
  - reflexivity.
  - reflexivity.
Qed.

Lemma Cleared_lt (d : TRBaseDriver) (i : nat) :
  Cleared d -> i ∈ fst <$> effectiveTable d -> i < length (params d).
Proof.
  intros Hc (iv & -> & Hin)%list_elem_of_fmap.
  eapply Forall_forall in Hc; [|exact Hin]. by eapply lookup_lt_Some.
Qed.

(** The parameter library after [TRConfigParam::init] has created the
    desired-value and effective-value parameters and has set the latter. *)
Lemma writeParam_created (t : asynParamType) (v : paramVal) (l : paramList) :
  writeParam (length (l ++ [ParamUndefined t])) v
    ((l ++ [ParamUndefined t]) ++ [ParamUndefined (paramType v)])
  = l ++ [ParamUndefined t; v].
Proof.
  unfold writeParam.
  rewrite lookup_app_r by lia. rewrite Nat.sub_diag. cbn [lookup list_lookup paramType].
  replace (asynParamType_eqb (paramType v) (paramType v)) with true
    by (symmetry; by apply asynParamType_eqb_eq).
  rewrite insert_app_r_alt by lia. rewrite Nat.sub_diag. cbn.
  by rewrite <- app_assoc.
Qed.

Lemma Built_createParam (t : asynParamType) (d : TRBaseDriver) :
  Built d -> Built (set_params (createParam t (params d)).2 d).
Proof.
  intros [Hc Hn Hw Hp Ha Hd]. split; try done.
  - unfold Cleared in *. eapply Forall_impl; [exact Hc|].
    intros iv Hiv. cbn in Hiv |- *. rewrite lookup_app_l; [done|]. by eapply lookup_lt_Some.
  - eapply Forall_impl; [exact Hw|]. intros i [Hlt Hni]. split; [|done].
    cbn. rewrite length_app. lia.
Qed.

Lemma Built_addConfigParam (c : TRConfigParamBase) (t : asynParamType)
    (protected : list nat) (d : TRBaseDriver) :
  Built d ->
  base_effective_param c = S (length (params d)) ->
  (forall i, i ∈ m_protected_params d -> i ∈ protected) ->
  S (length (params d)) ∈ protected ->
  Built (addConfigParam c (params d ++ [ParamUndefined t; base_invalidValue c])
           protected d).
Proof.
  intros [Hc Hn Hw Hp Ha Hd] Heff Hkeep Hnew.
  assert (Htable : effectiveTable
                     (addConfigParam c
                        (params d ++ [ParamUndefined t; base_invalidValue c])
                        protected d)
                   = effectiveTable d ++ [shape c]).
  { unfold effectiveTable, m_config_params. cbn.
    by rewrite fmap_app. }
  assert (Hfresh : S (length (params d)) ∉ fst <$> effectiveTable d).
  { intros Hin. apply (Cleared_lt d) in Hin; [lia|done]. }
  split; try done.
  - unfold Cleared. rewrite Htable. apply Forall_app. split.
    + unfold Cleared in Hc. eapply Forall_impl; [exact Hc|].
      intros iv Hiv. cbn in Hiv |- *. rewrite lookup_app_l; [done|]. by eapply lookup_lt_Some.
    + constructor; [|constructor]. unfold shape. cbn [fst snd]. rewrite Heff.
      cbn. rewrite lookup_app_r by lia.
      replace (S (length (params d)) - length (params d)) with 1 by lia.
      reflexivity.
  - rewrite Htable, fmap_app. apply NoDup_app. split; [done|]. split.
    + intros i Hi [->|[]%elem_of_nil]%elem_of_cons. cbn in Hi.
      rewrite Heff in Hi. done.
    + cbn. apply NoDup_singleton.
  - rewrite Htable, fmap_app.
    change (writable (addConfigParam _ _ _ d)) with (writable d).
    eapply Forall_impl; [exact Hw|]. intros i [Hlt Hni]. split.
    + cbn. rewrite length_app. cbn. lia.
    + intros [Hin|Hin]%elem_of_app; [done|]. cbn in Hin.
      apply list_elem_of_singleton in Hin. rewrite Heff in Hin. lia.
  - rewrite Htable. apply Forall_app. split.
    + eapply Forall_impl; [exact Hp|]. intros iv Hiv. cbn. by apply Hkeep.
    + constructor; [|constructor]. cbn. by rewrite Heff.
Qed.

Lemma Built_derivedInit (d : TRBaseDriver) (op : DerivedInit) :
  Built d -> Built (derivedInit d op).
Proof.
  intros HB. destruct op as [t|v internal|v internal|v internal].
  - by apply Built_createParam.
  - unfold derivedInit, init, createParam, setEffectiveParam.
    cbn [setParam asynType TRConfigParamTraits_int TRConfigParamTraits_double
         m_effective_param].
    rewrite setIntegerParam_writeParam.
    pose proof (writeParam_created asynParamInt32 (ParamInt32 v) (params d)) as Hport.
    cbn [paramType] in Hport. rewrite Hport. clear Hport.
    match goal with
    | |- Built (addConfigParam ?c _ ?prot d) =>
        apply (Built_addConfigParam c asynParamInt32 prot d); [done| | |]
    end.
    + cbn. rewrite length_app. cbn. lia.
    + intros i Hi. destruct internal; rewrite ?elem_of_app; auto.
    + rewrite length_app. cbn [length]. rewrite Nat.add_1_r.
      destruct internal; rewrite ?elem_of_app, ?list_elem_of_singleton; auto.
  - unfold derivedInit, init, createParam, setEffectiveParam.
    cbn [setParam asynType TRConfigParamTraits_int TRConfigParamTraits_double
         m_effective_param].
    rewrite setDoubleParam_writeParam.
    pose proof (writeParam_created asynParamInt32 (ParamFloat64 v) (params d)) as Hport.
    cbn [paramType] in Hport. rewrite Hport. clear Hport.
    match goal with
    | |- Built (addConfigParam ?c _ ?prot d) =>
        apply (Built_addConfigParam c asynParamInt32 prot d); [done| | |]
    end.
    + cbn. rewrite length_app. cbn. lia.
    + intros i Hi. destruct internal; rewrite ?elem_of_app; auto.
    + rewrite length_app. cbn [length]. rewrite Nat.add_1_r.
      destruct internal; rewrite ?elem_of_app, ?list_elem_of_singleton; auto.
  - unfold derivedInit, init, createParam, setEffectiveParam.
    cbn [setParam asynType TRConfigParamTraits_int TRConfigParamTraits_double
         m_effective_param].
    rewrite setDoubleParam_writeParam.
    pose proof (writeParam_created asynParamFloat64 (ParamFloat64 v) (params d)) as Hport.
    cbn [paramType] in Hport. rewrite Hport. clear Hport.
    match goal with
    | |- Built (addConfigParam ?c _ ?prot d) =>
        apply (Built_addConfigParam c asynParamFloat64 prot d); [done| | |]
    end.
    + cbn. rewrite length_app. cbn. lia.
    + intros i Hi. destruct internal; rewrite ?elem_of_app; auto.
    + rewrite length_app. cbn [length]. rewrite Nat.add_1_r.
      destruct internal; rewrite ?elem_of_app, ?list_elem_of_singleton; auto.
Qed.

Lemma Built_derived (derived : list DerivedInit) (d : TRBaseDriver) :
  Built d -> Built (foldl derivedInit d derived).
Proof.
  revert d. induction derived as [|op derived IH]; intros d HB; [done|].
  cbn [foldl]. by apply IH, Built_derivedInit.
Qed.

Lemma Built_construct (cfg : TRBaseConfig) (derived : list DerivedInit) :
  Built (construct cfg derived).
Proof.
  unfold construct, completeInit.
  destruct (Built_derived derived _ (Built_new cfg)) as [Hc Hn Hw Hp Ha Hd].
  split; done.
Qed.

Lemma Built_Invariant (d : TRBaseDriver) : Built d -> Invariant d /\ Basic d.
Proof.
  intros [Hc Hn Hw Hp Ha Hd]. split; [split; [split|..]|]; try done.
  - unfold Cleared in Hc. eapply Forall_impl; [exact Hc|].
    intros iv Hiv. cbn. by rewrite list_lookup_fmap, Hiv.
  - eapply Forall_impl; [exact Hw|]. by intros i [_ Hi].
  - intros Harm. by rewrite Ha in Harm.
Qed.

(** Every driver object that the constructor of TRBaseDriver, the
    constructor of a derived class and [completeInit] produce satisfies the
    invariant of the driver, is disarmed with the effective values invalid,
    and is ready for [startArming].  So in every run of the read thread on
    it, whatever the clients write and the digitizer driver does, the
    effective values are invalid whenever the port lock is free and the arm
    state is Disarm. *)
Theorem construct_invariant {A} (cfg : TRBaseConfig) (derived : list DerivedInit)
    (digitizer : DigitizerDriver A) (a : A) (n fuel : nat) :
  let d := construct cfg derived in
  Invariant d /\ Basic d /\ Cleared d /\
  m_arm_state d = ArmStateDisarm /\ m_init_completed d = true /\
  m_allowing_data d = false /\
  let r := readThread digitizer n fuel (startOfRun d a) in
  Forall (fun d' => Invariant d' /\ (m_arm_state d' = ArmStateDisarm -> Cleared d'))
    (observed r.2 ++ [drv r.2]).
Proof.
  intros d. pose proof (Built_construct cfg derived) as HB. fold d in HB.
  destruct (Built_Invariant d HB) as [Hinv Hb].
  destruct HB as [Hc Hn Hw Hp Ha Hd].
  split; [done|]. split; [done|]. split; [done|]. split; [done|].
  split; [reflexivity|]. split; [done|]. intros r.
  eapply Forall_impl.
  - apply (readThread_invariant digitizer n fuel (startOfRun d a)); [done|done|].
    constructor.
  - intros d' Hd'. split; [done|]. by destruct Hd'.
Qed.

Section ReadOnly.

Context {A : Type} (digitizer : DigitizerDriver A).

(** A client cannot write an effective value: on a well-formed driver
    object, a write of an [int] or of a [double] to EFFECTIVE_SAMPLE_RATE or
    to the effective-value parameter of a configuration parameter fails and
    changes nothing. *)
Theorem effective_params_read_only (reason : nat) (value : Z) (fvalue : float)
    (s : Sys A) :
  WellFormed (drv s) ->
  reason ∈ fst <$> effectiveTable (drv s) ->
  writeInt32 digitizer reason value s = (Ok asynError, s) /\
  writeFloat64 digitizer reason fvalue s = (Ok asynError, s).
Proof.
  intros [Ht Hn Hw Hp] Hin.
  assert (Hprot : reason ∈ m_protected_params (drv s)).
  { apply list_elem_of_fmap in Hin as (iv & -> & Hin).
    eapply Forall_forall in Hp; [|exact Hin]. done. }
  assert (Hnw : reason ∉ writable (drv s)).
  { intros Hin'. eapply Forall_forall in Hw; [|exact Hin']. done. }
  assert (Harm : reason <> ARM_REQUEST).
  { intros ->. apply Hnw. by apply (list_elem_of_lookup_2 _ 0). }
  assert (Hreq : reason <> m_desired_param (m_param_requested_sample_rate (drv s))).
  { intros ->. apply Hnw. by apply (list_elem_of_lookup_2 _ 6). }
  unfold writeInt32, writeFloat64.
  apply Nat.eqb_neq in Harm, Hreq. rewrite Harm.
  unfold mbind, M_bind, gets. cbn [fst snd]. rewrite Hreq.
  unfold checkProtectedParamWrite. rewrite bool_decide_eq_true_2 by done.
  cbn. by destruct s.
Qed.

End ReadOnly.

Lemma effective_params_read_only_witness :
  let s := startOfRun (sampleDriver true) (mkScript 0 []) in
  WellFormed (drv s) /\
  EFFECTIVE_NUM_BURSTS ∈ fst <$> effectiveTable (drv s) /\
  writeInt32 (scripted 1000 0 0) EFFECTIVE_NUM_BURSTS 5 s = (Ok asynError, s) /\
  writeFloat64 (scripted 1000 0 0) EFFECTIVE_NUM_BURSTS 5 s = (Ok asynError, s).
Proof.
  intros s.
  assert (Hwf : WellFormed (drv s)) by apply Invariant_sampleDriver.
  assert (Hin : EFFECTIVE_NUM_BURSTS ∈ fst <$> effectiveTable (drv s))
    by (apply (bool_decide_unpack _); vm_compute; exact I).
  split; [exact Hwf|]. split; [exact Hin|].
  exact (effective_params_read_only (scripted 1000 0 0) EFFECTIVE_NUM_BURSTS 5 5 s
           Hwf Hin).
Defined.

(** ** The order of the calls of the virtual functions *)

(** The calls that handle the data of an acquisition, and the checks
    before it. *)
Definition isData (e : Event) : bool :=
  match e with
  | EvReadBurst _ | EvCheckOverflow _ _ _ | EvProcessBurstData _ => true
  | _ => false
  end.

Definition isPrecheck (e : Event) : bool :=
  match e with
  | EvWaitForPreconditions _ | EvCheckBasicSettings _ | EvCheckSettings _ => true
  | _ => false
  end.

Definition isCheckOverflow (e : Event) : bool :=
  match e with EvCheckOverflow _ _ _ => true | _ => false end.

Lemma mon_step_call_guard (m m' : Mon) (e : Event) :
  mon_step m e = Some m' ->
  (isData e = true -> mon_started m = true /\ mon_stopped m = false) /\
  (isPrecheck e = true -> mon_started m = false /\ mon_stopped m = false) /\
  (isCheckOverflow e = true -> mon_drain m = None).
Proof.
  destruct e as [ok|ok|ok|overflow ok|ok|ok had n|ok| | |s|r|r]; cbn;
    intros He; (split; [|split]); intros Hx; try discriminate Hx;
    revert He; mon_step_cases; intros _;
    repeat match goal with
           | H : _ || _ = false |- _ => apply orb_false_elim in H; destruct H
           | H : negb _ = false |- _ => apply negb_false_iff in H
           | H : negb _ = true |- _ => apply negb_true_iff in H
           | H : bool_decide _ = true |- _ => apply bool_decide_eq_true_1 in H
           end; repeat split; congruence.
Qed.

(** Before the first call of [startAcquisition] no overflow is being
    recovered from. *)
Lemma mon_step_idle (m m' : Mon) (e : Event) :
  mon_step m e = Some m' ->
  (mon_started m = false -> mon_drain m = None) ->
  (mon_started m' = false -> mon_drain m' = None).
Proof.
  destruct e as [ok|ok|ok|overflow ok|ok|ok had n|ok| | |s|r|r]; cbn;
    mon_step_cases; intros [= <-]; cbn; intros Hidle Hs;
    repeat match goal with
           | H : _ || _ = false |- _ => apply orb_false_elim in H; destruct H
           | H : negb _ = false |- _ => apply negb_false_iff in H
           end; try congruence; try (apply Hidle; congruence).
Qed.

Lemma mon_run_idle (evs : list Event) :
  forall m m', mon_run m evs = Some m' ->
    (mon_started m = false -> mon_drain m = None) ->
    (mon_started m' = false -> mon_drain m' = None).
Proof.
  induction evs as [|e evs IH]; intros m m'; cbn; [by intros [= <-]|].
  destruct (mon_step m e) as [m1|] eqn:He; cbn; [|done]. intros Hrun Hidle.
  apply (IH _ _ Hrun). by eapply mon_step_idle.
Qed.

(** The first call of [startAcquisition] has [overflow] false and every
    later one has [overflow] true. *)
Lemma mon_step_start_overflow (m m' : Mon) (overflow ok : bool) :
  mon_step m (EvStartAcquisition overflow ok) = Some m' ->
  (mon_started m = false -> mon_drain m = None) ->
  overflow = mon_started m.
Proof.
  cbn. intros He Hidle. destruct (_ || _); [done|].
  destruct (mon_drain m) as [budget|] eqn:Hd.
  - destruct overflow; cbn in He; [|done].
    destruct (mon_started m); [done|]. by specialize (Hidle eq_refl).
  - destruct overflow; cbn in He; [done|]. by destruct (mon_started m).
Qed.

Lemma accepted_call_order (pending : ArmState) (evs : list Event) (m : Mon) :
  mon_run (mon_init pending) evs = Some m ->
  forall pre e post, evs = pre ++ e :: post ->
    (isData e = true ->
       (exists overflow ok, EvStartAcquisition overflow ok ∈ pre) /\
       EvStopAcquisition ∉ pre) /\
    (isPrecheck e = true ->
       (forall overflow ok, EvStartAcquisition overflow ok ∉ pre) /\
       EvStopAcquisition ∉ pre) /\
    (forall overflow ok, e = EvStartAcquisition overflow ok ->
       (overflow = false <-> forall o k, EvStartAcquisition o k ∉ pre)).
Proof.
  intros Hrun pre e post ->. rewrite mon_run_app in Hrun.
  apply bind_Some in Hrun as (m1 & Hpre & Hrun).
  rewrite mon_run_cons in Hrun. apply bind_Some in Hrun as (m2 & He & _).
  destruct (mon_run_flags _ _ _ Hpre) as (Hst & Hsp & _).
  unfold mon_init in Hst, Hsp. cbn in Hst, Hsp.
  destruct (mon_step_call_guard _ _ _ He) as (Hd & Hp & _).
  split; [|split].
  - intros Hx. destruct (Hd Hx) as [H1 H2]. split.
    + apply existsb_isStart. congruence.
    + intros Hin%existsb_isStop. congruence.
  - intros Hx. destruct (Hp Hx) as [H1 H2]. split.
    + intros overflow ok Hin.
      assert (existsb isStart pre = true) by (apply existsb_isStart; eauto).
      congruence.
    + intros Hin%existsb_isStop. congruence.
  - intros overflow ok ->.
    assert (Hidle : mon_started m1 = false -> mon_drain m1 = None)
      by (by apply (mon_run_idle _ _ _ Hpre)).
    rewrite (mon_step_start_overflow _ _ _ _ He Hidle), Hst. split.
    + intros Hno o k Hin.
      assert (existsb isStart pre = true) by (apply existsb_isStart; eauto).
      congruence.
    + intros Hno. destruct (existsb isStart pre) eqn:Hex; [|done].
      apply existsb_isStart in Hex as (o & k & Hin). by destruct (Hno o k).
Qed.

(** After [checkOverflow] has reported an overflow it is not called again
    before acquisition is restarted. *)
Lemma accepted_checkOverflow (pending : ArmState) (evs : list Event) (m : Mon) :
  mon_run (mon_init pending) evs = Some m ->
  forall pre n mid ok had n' post,
    evs = pre ++ EvCheckOverflow true true n :: mid ++
          EvCheckOverflow ok had n' :: post ->
    exists overflow ok', EvStartAcquisition overflow ok' ∈ mid.
Proof.
  intros Hrun pre n mid ok had n' post ->.
  apply existsb_isStart. destruct (existsb isStart mid) eqn:Hnostart; [done|].
  rewrite mon_run_app in Hrun. apply bind_Some in Hrun as (m1 & _ & Hrun).
  rewrite mon_run_cons in Hrun. apply bind_Some in Hrun as (m2 & Hdet & Hrun).
  rewrite mon_run_app in Hrun. apply bind_Some in Hrun as (m3 & Hmid & Hrun).
  rewrite mon_run_cons in Hrun. apply bind_Some in Hrun as (m4 & Hagain & _).
  assert (Hd2 : mon_drain m2 = Some (n - 1)%Z).
  { revert Hdet. cbn. destruct (_ || _); [done|]. by intros [= <-]. }
  pose proof (mon_run_drain _ _ _ _ Hmid Hd2 Hnostart) as Hd3.
  destruct (mon_step_call_guard _ _ _ Hagain) as (_ & _ & Hnone).
  rewrite Hnone in Hd3 by done. discriminate.
Qed.

Section CallOrder.

Context {A : Type} (digitizer : DigitizerDriver A).

(** In every arming (one iteration of the read thread, however it goes
    on): [readBurst], [checkOverflow] and [processBurstData] are only called
    after a call of [startAcquisition] and never after [stopAcquisition];
    [waitForPreconditions], [checkBasicSettings] and [checkSettings] are
    never run after a call of [startAcquisition]; the first call of
    [startAcquisition] has [overflow] false and every later call has it
    true; and once [checkOverflow] has reported an overflow it is not called
    again before acquisition is restarted. *)
Theorem callback_order (fuel : nat) (s0 : Sys A) :
  Basic (drv s0) ->
  let r := readThreadIteration digitizer fuel s0 in
  exists evs,
    log r.2 = log s0 ++ evs /\
    (forall pre e post, evs = pre ++ e :: post ->
       (isData e = true ->
          (exists overflow ok, EvStartAcquisition overflow ok ∈ pre) /\
          EvStopAcquisition ∉ pre) /\
       (isPrecheck e = true ->
          (forall overflow ok, EvStartAcquisition overflow ok ∉ pre) /\
          EvStopAcquisition ∉ pre) /\
       (forall overflow ok, e = EvStartAcquisition overflow ok ->
          (overflow = false <-> forall o k, EvStartAcquisition o k ∉ pre))) /\
    (forall pre n mid ok had n' post,
       evs = pre ++ EvCheckOverflow true true n :: mid ++
             EvCheckOverflow ok had n' :: post ->
       exists overflow ok', EvStartAcquisition overflow ok' ∈ mid).
Proof.
  intros Hb r.
  destruct (readThreadIteration_accepted digitizer fuel s0 Hb)
    as (evs & m & Hlog & Hrun & _).
  exists evs. split; [done|]. split.
  - by eapply accepted_call_order.
  - by eapply accepted_checkOverflow.
Qed.

End CallOrder.

Lemma callback_order_witness :
  Basic (drv overflowRun) /\
  let r := readThreadIteration overflowDigitizer 20 overflowRun in
  exists evs,
    log r.2 = log overflowRun ++ evs /\
    (forall pre e post, evs = pre ++ e :: post ->
       (isData e = true ->
          (exists overflow ok, EvStartAcquisition overflow ok ∈ pre) /\
          EvStopAcquisition ∉ pre) /\
       (isPrecheck e = true ->
          (forall overflow ok, EvStartAcquisition overflow ok ∉ pre) /\
          EvStopAcquisition ∉ pre) /\
       (forall overflow ok, e = EvStartAcquisition overflow ok ->
          (overflow = false <-> forall o k, EvStartAcquisition o k ∉ pre))) /\
    (forall pre n mid ok had n' post,
       evs = pre ++ EvCheckOverflow true true n :: mid ++
             EvCheckOverflow ok had n' :: post ->
       exists overflow ok', EvStartAcquisition overflow ok' ∈ mid).
Proof.
  split; [apply Basic_sampleDriver|].
  apply (callback_order overflowDigitizer 20 overflowRun).
  apply Basic_sampleDriver.
Defined.

(** ** The references to the arrays of the channels port *)

(** The number of addresses whose [pArrays] entry is the array [k], and
    the reference count of [k] beyond those: the references that the code
    outside [pArrays] holds. *)
Definition holders (k : nat) (c : TRChannelsDriver) : Z :=
  Z.of_nat (length (filter (fun o => o = Some k) (pArrays c))).

Definition balance (k : nat) (c : TRChannelsDriver) : option Z :=
  (fun a => referenceCount a - holders k c)%Z <$> pNDArrayPool c !! k.

Definition indicator (P : Prop) `{Decision P} : Z := if decide P then 1%Z else 0%Z.

Lemma holders_insert (k i : nat) (v old : option nat) (c : TRChannelsDriver) :
  pArrays c !! i = Some old ->
  holders k (set_pArrays (<[i := v]> (pArrays c)) c)
  = (holders k c - indicator (old = Some k) + indicator (v = Some k))%Z.
Proof.
  unfold holders, indicator. cbn [pArrays set_pArrays].
  generalize (pArrays c). intros l. revert i.
  induction l as [|x l IH]; intros [|i] Hi; try done; cbn in Hi.
  - injection Hi as ->. cbn [insert list_insert]. rewrite !filter_cons. clear IH.
    generalize (length (filter (fun o => o = Some k) l)). intros n.
    repeat case_decide; cbn [length]; lia.
  - change (<[S i := v]> (x :: l)) with (x :: <[i := v]> l).
    rewrite !filter_cons. specialize (IH i Hi).
    repeat case_decide; cbn [length]; revert IH;
      generalize (length (filter (fun o => o = Some k) l)),
                 (length (filter (fun o => o = Some k) (<[i:=v]> l)));
      intros n n' IH; lia.
Qed.

Lemma balance_insert (k i : nat) (v old : option nat) (c : TRChannelsDriver) :
  pArrays c !! i = Some old ->
  balance k (set_pArrays (<[i := v]> (pArrays c)) c)
  = (fun b => b + indicator (old = Some k) - indicator (v = Some k))%Z
      <$> balance k c.
Proof.
  intros Hi. unfold balance. rewrite (holders_insert k i v old c Hi).
  cbn [pNDArrayPool set_pArrays]. destruct (pNDArrayPool c !! k); cbn; [|done].
  f_equal. lia.
Qed.

Lemma balance_alter (f : NDArray -> NDArray) (delta : Z) (k i : nat)
    (c : TRChannelsDriver) :
  (forall a, referenceCount (f a) = (referenceCount a + delta)%Z) ->
  balance k (set_pNDArrayPool (alter f i (pNDArrayPool c)) c)
  = (fun b => b + delta * indicator (k = i))%Z <$> balance k c.
Proof.
  intros Hf. unfold balance, holders, indicator. cbn [pNDArrayPool pArrays set_pNDArrayPool].
  destruct (decide (k = i)) as [->|Hne].
  - rewrite list_lookup_alter_eq. destruct (pNDArrayPool c !! i); cbn; [|done].
    f_equal. rewrite Hf. lia.
  - rewrite list_lookup_alter_ne by done.
    destruct (pNDArrayPool c !! k); cbn; [|done]. f_equal. lia.
Qed.




Lemma pArrays_resetArrays_channel (c : TRChannelsDriver) (channel : nat) :
  pArrays (resetArrays_channel c channel) = <[channel := None]> (pArrays c).
Proof.
  unfold resetArrays_channel.
  destruct (pArrays c !! channel) as [[old|]|] eqn:H; cbn.
  - reflexivity.
  - symmetry. by apply list_insert_id.
  - symmetry. apply list_insert_ge. by apply lookup_ge_None.
Qed.

Lemma balance_resetArrays_channel (c : TRChannelsDriver) (channel k : nat) :
  balance k (resetArrays_channel c channel) = balance k c.
Proof.
  unfold resetArrays_channel.
  destruct (pArrays c !! channel) as [[old|]|] eqn:H; [|done..].
  change (pArrays c) with (pArrays (pool_release old c)).
  rewrite (balance_insert k channel None (Some old) (pool_release old c)) by done.
  unfold pool_release.
  rewrite (balance_alter NDArray_release (-1) k old c) by (intros a; cbn; lia).
  destruct (balance k c); cbn; [|done].
  f_equal; unfold indicator; repeat case_decide; try lia; congruence.
Qed.

Lemma resetArrays_channel_frame (c : TRChannelsDriver) (channel : nat) :
  maxAddr (resetArrays_channel c channel) = maxAddr c /\
  length (pNDArrayPool (resetArrays_channel c channel)) = length (pNDArrayPool c).
Proof.
  unfold resetArrays_channel.
  destruct (pArrays c !! channel) as [[old|]|]; cbn; rewrite ?length_alter; done.
Qed.

Lemma resetArrays_channels (channels : list nat) (c : TRChannelsDriver) :
  let c' := foldl resetArrays_channel c channels in
  maxAddr c' = maxAddr c /\
  length (pNDArrayPool c') = length (pNDArrayPool c) /\
  length (pArrays c') = length (pArrays c) /\
  (forall k, balance k c' = balance k c) /\
  (forall i, pArrays c' !! i
             = if bool_decide (i ∈ channels)
               then (fun _ => None) <$> pArrays c !! i else pArrays c !! i).
Proof.
  revert c. induction channels as [|ch channels IH]; intros c; cbn [foldl].
  - repeat split; try done.
  - destruct (IH (resetArrays_channel c ch)) as (Hm & Hl & Hp & Hb & Hi).
    destruct (resetArrays_channel_frame c ch) as [Hm' Hl'].
    cbn zeta. rewrite Hm, Hl, Hp, pArrays_resetArrays_channel, length_insert.
    repeat split; try done.
    + intros k. by rewrite Hb, balance_resetArrays_channel.
    + intros i. rewrite Hi, pArrays_resetArrays_channel.
      destruct (decide (i = ch)) as [->|Hne].
      * rewrite (bool_decide_eq_true_2 (ch ∈ ch :: channels)) by apply list_elem_of_here.
        destruct (pArrays c !! ch) as [o|] eqn:Ho.
        -- rewrite list_lookup_insert_eq by (by eapply lookup_lt_Some).
           by case_bool_decide.
        -- rewrite list_insert_ge by (by apply lookup_ge_None).
           rewrite Ho. by case_bool_decide.
      * rewrite list_lookup_insert_ne by done.
        destruct (decide (i ∈ channels)) as [Hin|Hin].
        -- rewrite !bool_decide_eq_true_2; [done| |done]. by apply list_elem_of_further.
        -- rewrite !bool_decide_eq_false_2; [done| |done].
           intros [?|?]%elem_of_cons; done.
Qed.

Lemma holders_none (k : nat) (c : TRChannelsDriver) :
  (forall i, i < length (pArrays c) -> pArrays c !! i = Some None) ->
  holders k c = 0%Z.
Proof.
  unfold holders. intros Hnone.
  assert (Hall : Forall (fun o => o = None) (pArrays c)).
  { apply Forall_lookup. intros i o Hi.
    rewrite (Hnone i) in Hi by (by eapply lookup_lt_Some). congruence. }
  clear Hnone. induction Hall as [|o l -> _ IH]; [done|].
  rewrite filter_cons. case_decide; [done|]. exact IH.
Qed.

(** [resetArrays] leaves no address with an array, and gives back exactly
    the references that [pArrays] held: the reference count of every array
    of the pool drops by the number of addresses that had it.  A second
    [resetArrays] changes nothing. *)
Theorem resetArrays_releases (c : TRChannelsDriver) :
  length (pArrays c) = Z.to_nat (maxAddr c) ->
  let c' := resetArrays c in
  (forall i, i < length (pArrays c) -> pArrays c' !! i = Some None) /\
  length (pArrays c') = length (pArrays c) /\
  length (pNDArrayPool c') = length (pNDArrayPool c) /\
  (forall k a, pNDArrayPool c !! k = Some a ->
     exists a', pNDArrayPool c' !! k = Some a' /\
       referenceCount a' = (referenceCount a - holders k c)%Z) /\
  resetArrays c' = c'.
Proof.
  intros Hlen c'.
  destruct (resetArrays_channels (seq 0 (Z.to_nat (maxAddr c))) c)
    as (Hm & Hl & Hp & Hb & Hi).
  fold (resetArrays c) in Hm, Hl, Hp, Hb, Hi. fold c' in Hm, Hl, Hp, Hb, Hi.
  assert (Hnone : forall i, i < length (pArrays c) -> pArrays c' !! i = Some None).
  { intros i Hlt. rewrite Hi. rewrite bool_decide_eq_true_2.
    - destruct (lookup_lt_is_Some_2 (pArrays c) i Hlt) as [o ->]. done.
    - apply elem_of_seq. lia. }
  split; [done|]. split; [done|]. split; [done|]. split.
  - intros k a Ha. specialize (Hb k). unfold balance in Hb. rewrite Ha in Hb.
    rewrite (holders_none k c') in Hb by (by rewrite Hp).
    destruct (pNDArrayPool c' !! k) as [a'|]; [|done]. cbn in Hb.
    exists a'. split; [done|]. injection Hb. lia.
  - unfold resetArrays. rewrite Hm.
    assert (Hid : forall channels, foldl resetArrays_channel c' channels = c').
    { induction channels as [|ch channels IH]; [done|]. cbn [foldl].
      replace (resetArrays_channel c' ch) with c'; [done|].
      unfold resetArrays_channel.
      destruct (pArrays c' !! ch) as [[old|]|] eqn:Hch; [|done..].
      rewrite Hnone in Hch; [done|]. rewrite <- Hp. by eapply lookup_lt_Some. }
    apply Hid.
Qed.

Lemma resetArrays_releases_witness :
  let c := default (TRChannelsDriver_new 2 0 0)
             (submitArray 0 1 1000 None
                (allocateArray 0 100 (TRChannelsDriver_new 2 0 0)).2) in
  length (pArrays c) = Z.to_nat (maxAddr c) /\
  pArrays c !! 1 = Some (Some 0) /\
  let c' := resetArrays c in
  (forall i, i < length (pArrays c) -> pArrays c' !! i = Some None) /\
  length (pArrays c') = length (pArrays c) /\
  length (pNDArrayPool c') = length (pNDArrayPool c) /\
  (forall k a, pNDArrayPool c !! k = Some a ->
     exists a', pNDArrayPool c' !! k = Some a' /\
       referenceCount a' = (referenceCount a - holders k c)%Z) /\
  resetArrays c' = c'.
Proof.
  intros c. split; [reflexivity|]. split; [reflexivity|].
  apply (resetArrays_releases c). reflexivity.
Defined.
